(** * A shallow embedding of tornado's [iostream.py]

    The development follows the source file top to bottom: byte strings
    and Python slices, the two deque utilities [_merge_prefix] and
    [_double_prefix], the event loop and socket seen from the stream, the
    [IOStream] object with its methods, and the [SSLIOStream] overrides.
    The theorems come after the definitions. *)

From Equations Require Import Equations.
From Stdlib Require Import Strings.String Strings.Byte.
From Stdlib Require Import List ZArith Lia Bool Arith.
Import ListNotations.

Local Open Scope Z_scope.

(** ** Byte strings *)

(** A Python 2 [str] (the [bytes_type] of the source) is a list of bytes. *)
Definition bytes := list byte.

(** [b("...")]: a byte-string literal. *)
Definition b (s : String.string) : bytes := String.list_byte_of_string s.
Arguments b s%_string.

(** Python's [len], an integer. *)
Definition len {A : Type} (l : list A) : Z := Z.of_nat (length l).

(** Where a slice index lands in a sequence of [n] items: negative
    indices count from the end, and everything is clipped to [0..n]. *)
Definition slice_index (n i : Z) : Z :=
  if i <? 0 then Z.max 0 (n + i) else Z.min i n.

(** [s[lo:]] *)
Definition slice_from (s : bytes) (lo : Z) : bytes :=
  skipn (Z.to_nat (slice_index (len s) lo)) s.

(** [s[:hi]] *)
Definition slice_to (s : bytes) (hi : Z) : bytes :=
  firstn (Z.to_nat (slice_index (len s) hi)) s.

(** [s[lo:hi]] *)
Definition slice (s : bytes) (lo hi : Z) : bytes :=
  let lo' := slice_index (len s) lo in
  let hi' := slice_index (len s) hi in
  firstn (Z.to_nat (hi' - lo')) (skipn (Z.to_nat lo') s).

Definition byte_eqb (x y : byte) : bool := Byte.eqb x y.

(** [s.startswith(d)] *)
Fixpoint startswith (s d : bytes) : bool :=
  match d, s with
  | [], _ => true
  | _ :: _, [] => false
  | x :: d', y :: s' => byte_eqb x y && startswith s' d'
  end.

(** The lowest offset at which [d] occurs in [s], counted from [i]. *)
Fixpoint find_from (i : Z) (s d : bytes) : Z :=
  if startswith s d then i
  else match s with
       | [] => -1
       | _ :: s' => find_from (i + 1) s' d
       end.

(** [s.find(d)]: the lowest index of [d] in [s], or [-1]. *)
Definition find (s d : bytes) : Z := find_from 0 s d.

(** Truthiness of a Python sequence. *)
Definition truthy {A : Type} (l : list A) : bool :=
  match l with [] => false | _ :: _ => true end.

(** ** Buffer utilities *)

(** The [while deque and remaining > 0] loop of [_merge_prefix]; the
    loop state is the deque, the list [prefix] and [remaining]. *)
Equations? merge_loop (deque prefix : list bytes) (remaining : Z)
  : list bytes * list bytes
  by wf (length deque + Z.to_nat remaining)%nat lt :=
  merge_loop [] prefix remaining := ([], prefix);
  merge_loop (chunk :: deque) prefix remaining with Z_gt_dec remaining 0 := {
    | right _ := (chunk :: deque, prefix);
    | left _ with Z_gt_dec (len chunk) remaining := {
      | left _ :=
          (* deque.appendleft(chunk[remaining:]); chunk = chunk[:remaining] *)
          merge_loop (slice_from chunk remaining :: deque)
                     (prefix ++ [slice_to chunk remaining])
                     (remaining - len (slice_to chunk remaining));
      | right _ :=
          merge_loop deque (prefix ++ [chunk]) (remaining - len chunk) } }.
Proof.
  - unfold slice_to, slice_index, len in *.
    destruct (Z.ltb_spec remaining 0); [lia|].
    rewrite length_firstn. simpl. lia.
  - unfold len in *. simpl. lia.
Qed.

(** [_merge_prefix(deque, size)] *)
Definition _merge_prefix (deque : list bytes) (size : Z) : list bytes :=
  if (len deque =? 1) && (len (nth 0 deque []) <=? size) then deque
  else
    let '(deque, prefix) := merge_loop deque [] size in
    let deque := if truthy prefix then concat prefix :: deque else deque in
    if negb (truthy deque) then b "" :: deque else deque.

(** [_double_prefix(deque)]; [deque[0]] and [deque[1]] raise [IndexError]
    on a shorter deque, which is [None] here. *)
Definition _double_prefix (deque : list bytes) : option (list bytes) :=
  match deque with
  | d0 :: d1 :: _ =>
      let new_len := Z.max (len d0 * 2) (len d0 + len d1) in
      Some (_merge_prefix deque new_len)
  | _ => None
  end.

(** ** Callbacks, exceptions and the outside world *)

(** A user callable, known by its name.  [stack_context.wrap] is an
    opaque wrapper that maps [None] to [None]; it is the identity here. *)
Definition callable := nat.

(** Which call site handed a callback to [_run_callback]: the slot the
    callback was taken from.  The source passes only the callable. *)
Inductive role :=
| ReadCb | StreamingCb | WriteCb | CloseCb | ConnectCb | SslConnectCb.

Definition role_eqb (r1 r2 : role) : bool :=
  match r1, r2 with
  | ReadCb, ReadCb | StreamingCb, StreamingCb | WriteCb, WriteCb
  | CloseCb, CloseCb | ConnectCb, ConnectCb
  | SslConnectCb, SslConnectCb => true
  | _, _ => false
  end.

(** The [errno] values the source tests for. *)
Inductive errno :=
| EWOULDBLOCK | EAGAIN | EINPROGRESS | ECONNABORTED | ECONNRESET
| EOTHER (code : Z).

(** The [ssl.SSL_ERROR_*] codes the source tests for. *)
Inductive ssl_errno :=
| SSL_ERROR_WANT_READ | SSL_ERROR_WANT_WRITE | SSL_ERROR_EOF
| SSL_ERROR_ZERO_RETURN | SSL_ERROR_SSL | SSL_ERROR_OTHER (code : Z).

(** Exceptions.  [SSLError] is a subclass of [socket.error], and every
    exception here is a subclass of [Exception]. *)
Inductive exn :=
| AssertionError (msg : string)
| IOError (msg : string)
| socket_error (e : errno)
| SSLError (c : ssl_errno)
| AttributeError
| IndexError
| TypeError
| UserError (n : nat).

(** [except socket.error, e] *)
Definition is_socket_error (e : exn) : bool :=
  match e with socket_error _ | SSLError _ => true | _ => false end.

(** [except ssl.SSLError, e] *)
Definition is_SSLError (e : exn) : bool :=
  match e with SSLError _ => true | _ => false end.

(** [e.args[0] in (errno.EWOULDBLOCK, errno.EAGAIN)] *)
Definition is_would_block (e : exn) : bool :=
  match e with
  | socket_error EWOULDBLOCK | socket_error EAGAIN => true
  | _ => false
  end.

(** A socket object: its descriptor, and whether [ssl.wrap_socket] has
    wrapped it. *)
Record sock := { fileno : Z; wrapped : bool }.

(** A compiled regular expression, as much as the stream uses of it:
    [search] gives [m.end()] of the first match, or [None]. *)
Record regex := { search : bytes -> option Z }.

(** What a call on the socket raises: [socket.error] with an [errno],
    or its subclass [ssl.SSLError] with an SSL code. *)
Inductive socket_exn := with_errno (e : errno) | with_ssl_code (c : ssl_errno).

Definition exn_of (e : socket_exn) : exn :=
  match e with
  | with_errno e => socket_error e
  | with_ssl_code c => SSLError c
  end.

(** What the operating system answers when the socket is used. *)
Inductive recv_outcome := RecvData (chunk : bytes) | RecvRaise (e : socket_exn).
Inductive send_outcome := SendOk (num_bytes : nat) | SendRaise (e : socket_exn).
Inductive call_outcome := CallOk | CallRaise (e : socket_exn).

(** The socket seen from outside.  Each script lists the answers to the
    successive calls; a script that has run out answers would-block (no
    more data, no more room, handshake still waiting for the peer,
    connection still in progress) and [SO_ERROR] then reads 0.  [sent]
    records the argument of every [send]. *)
Record network := {
  recv_script : list recv_outcome;
  send_script : list send_outcome;
  handshake_script : list call_outcome;
  connect_script : list call_outcome;
  so_error_script : list Z;
  sent : list bytes
}.

(** Modelled from the spec: the event loop ([tornado.ioloop]) is not in
    the source tree; the spec gives its interface, the bit flags [NONE],
    [READ], [WRITE], [ERROR] and the operations [add_handler],
    [update_handler], [remove_handler], [add_callback].  The flags take
    tornado's values. *)
Definition NONE : Z := 0.
Definition READ : Z := 1.
Definition WRITE : Z := 4.
Definition ERROR : Z := 24.

Inductive handler_call :=
| add_handler (fd events : Z)
| update_handler (fd events : Z)
| remove_handler (fd : Z).

(** What [add_callback] was given: the [wrapper] closure that
    [_run_callback] builds around a callback and its arguments, or the
    bound method [self.close]. *)
Inductive scheduled :=
| wrapper (r : role) (cb : option callable) (args : list bytes)
| bound_close.

(** The event loop as the stream uses it: the handler calls it has
    received, and the queue of callbacks not run yet, oldest first. *)
Record ioloop := {
  handler_calls : list handler_call;
  callbacks : list scheduled
}.

(** One call of [_run_callback]: what was scheduled, and the two
    attributes of the stream that guard the close callback, as they
    were when the call was made. *)
Record run_callback_call := {
  rc_role : role;
  rc_callback : option callable;
  rc_args : list bytes;
  rc_socket_present : bool;
  rc_pending : Z
}.

(** ** The stream object

    The attributes that [IOStream.__init__] and [SSLIOStream.__init__]
    assign, in the order of the source; [is_ssl] tells which of the two
    classes the object belongs to.  [io_loop] is kept beside the stream,
    in [world]. *)
Record stream := mk_stream {
  is_ssl : bool;
  socket : option sock;
  error : option exn;
  max_buffer_size : Z;
  read_chunk_size : Z;
  _read_buffer : list bytes;
  _write_buffer : list bytes;
  _read_buffer_size : Z;
  _write_buffer_frozen : bool;
  _read_delimiter : option bytes;
  _read_regex : option regex;
  _read_bytes : option Z;
  _read_until_close : bool;
  _read_callback : option callable;
  _streaming_callback : option callable;
  _write_callback : option callable;
  _close_callback : option callable;
  _connect_callback : option callable;
  _connecting : bool;
  _state : option Z;
  _pending_callbacks : Z;
  _ssl_accepting : bool;
  _handshake_reading : bool;
  _handshake_writing : bool;
  _ssl_connect_callback : option callable
}.

(** Attribute assignment, one function per attribute that the methods
    assign. *)
Definition with_socket (v : option sock) (s : stream) : stream :=
  mk_stream (is_ssl s) v (error s) (max_buffer_size s) (read_chunk_size s)
    (_read_buffer s) (_write_buffer s) (_read_buffer_size s)
    (_write_buffer_frozen s) (_read_delimiter s) (_read_regex s)
    (_read_bytes s) (_read_until_close s) (_read_callback s)
    (_streaming_callback s) (_write_callback s) (_close_callback s)
    (_connect_callback s) (_connecting s) (_state s)
    (_pending_callbacks s) (_ssl_accepting s) (_handshake_reading s)
    (_handshake_writing s) (_ssl_connect_callback s).
Definition with_error (v : option exn) (s : stream) : stream :=
  mk_stream (is_ssl s) (socket s) v (max_buffer_size s)
    (read_chunk_size s) (_read_buffer s) (_write_buffer s)
    (_read_buffer_size s) (_write_buffer_frozen s) (_read_delimiter s)
    (_read_regex s) (_read_bytes s) (_read_until_close s)
    (_read_callback s) (_streaming_callback s) (_write_callback s)
    (_close_callback s) (_connect_callback s) (_connecting s) (_state s)
    (_pending_callbacks s) (_ssl_accepting s) (_handshake_reading s)
    (_handshake_writing s) (_ssl_connect_callback s).
Definition with_read_buffer (v : list bytes) (s : stream) : stream :=
  mk_stream (is_ssl s) (socket s) (error s) (max_buffer_size s)
    (read_chunk_size s) v (_write_buffer s) (_read_buffer_size s)
    (_write_buffer_frozen s) (_read_delimiter s) (_read_regex s)
    (_read_bytes s) (_read_until_close s) (_read_callback s)
    (_streaming_callback s) (_write_callback s) (_close_callback s)
    (_connect_callback s) (_connecting s) (_state s)
    (_pending_callbacks s) (_ssl_accepting s) (_handshake_reading s)
    (_handshake_writing s) (_ssl_connect_callback s).
Definition with_write_buffer (v : list bytes) (s : stream) : stream :=
  mk_stream (is_ssl s) (socket s) (error s) (max_buffer_size s)
    (read_chunk_size s) (_read_buffer s) v (_read_buffer_size s)
    (_write_buffer_frozen s) (_read_delimiter s) (_read_regex s)
    (_read_bytes s) (_read_until_close s) (_read_callback s)
    (_streaming_callback s) (_write_callback s) (_close_callback s)
    (_connect_callback s) (_connecting s) (_state s)
    (_pending_callbacks s) (_ssl_accepting s) (_handshake_reading s)
    (_handshake_writing s) (_ssl_connect_callback s).
Definition with_read_buffer_size (v : Z) (s : stream) : stream :=
  mk_stream (is_ssl s) (socket s) (error s) (max_buffer_size s)
    (read_chunk_size s) (_read_buffer s) (_write_buffer s) v
    (_write_buffer_frozen s) (_read_delimiter s) (_read_regex s)
    (_read_bytes s) (_read_until_close s) (_read_callback s)
    (_streaming_callback s) (_write_callback s) (_close_callback s)
    (_connect_callback s) (_connecting s) (_state s)
    (_pending_callbacks s) (_ssl_accepting s) (_handshake_reading s)
    (_handshake_writing s) (_ssl_connect_callback s).
Definition with_write_buffer_frozen (v : bool) (s : stream) : stream :=
  mk_stream (is_ssl s) (socket s) (error s) (max_buffer_size s)
    (read_chunk_size s) (_read_buffer s) (_write_buffer s)
    (_read_buffer_size s) v (_read_delimiter s) (_read_regex s)
    (_read_bytes s) (_read_until_close s) (_read_callback s)
    (_streaming_callback s) (_write_callback s) (_close_callback s)
    (_connect_callback s) (_connecting s) (_state s)
    (_pending_callbacks s) (_ssl_accepting s) (_handshake_reading s)
    (_handshake_writing s) (_ssl_connect_callback s).
Definition with_read_delimiter (v : option bytes) (s : stream) : stream :=
  mk_stream (is_ssl s) (socket s) (error s) (max_buffer_size s)
    (read_chunk_size s) (_read_buffer s) (_write_buffer s)
    (_read_buffer_size s) (_write_buffer_frozen s) v (_read_regex s)
    (_read_bytes s) (_read_until_close s) (_read_callback s)
    (_streaming_callback s) (_write_callback s) (_close_callback s)
    (_connect_callback s) (_connecting s) (_state s)
    (_pending_callbacks s) (_ssl_accepting s) (_handshake_reading s)
    (_handshake_writing s) (_ssl_connect_callback s).
Definition with_read_regex (v : option regex) (s : stream) : stream :=
  mk_stream (is_ssl s) (socket s) (error s) (max_buffer_size s)
    (read_chunk_size s) (_read_buffer s) (_write_buffer s)
    (_read_buffer_size s) (_write_buffer_frozen s) (_read_delimiter s) v
    (_read_bytes s) (_read_until_close s) (_read_callback s)
    (_streaming_callback s) (_write_callback s) (_close_callback s)
    (_connect_callback s) (_connecting s) (_state s)
    (_pending_callbacks s) (_ssl_accepting s) (_handshake_reading s)
    (_handshake_writing s) (_ssl_connect_callback s).
Definition with_read_bytes (v : option Z) (s : stream) : stream :=
  mk_stream (is_ssl s) (socket s) (error s) (max_buffer_size s)
    (read_chunk_size s) (_read_buffer s) (_write_buffer s)
    (_read_buffer_size s) (_write_buffer_frozen s) (_read_delimiter s)
    (_read_regex s) v (_read_until_close s) (_read_callback s)
    (_streaming_callback s) (_write_callback s) (_close_callback s)
    (_connect_callback s) (_connecting s) (_state s)
    (_pending_callbacks s) (_ssl_accepting s) (_handshake_reading s)
    (_handshake_writing s) (_ssl_connect_callback s).
Definition with_read_until_close (v : bool) (s : stream) : stream :=
  mk_stream (is_ssl s) (socket s) (error s) (max_buffer_size s)
    (read_chunk_size s) (_read_buffer s) (_write_buffer s)
    (_read_buffer_size s) (_write_buffer_frozen s) (_read_delimiter s)
    (_read_regex s) (_read_bytes s) v (_read_callback s)
    (_streaming_callback s) (_write_callback s) (_close_callback s)
    (_connect_callback s) (_connecting s) (_state s)
    (_pending_callbacks s) (_ssl_accepting s) (_handshake_reading s)
    (_handshake_writing s) (_ssl_connect_callback s).
Definition with_read_callback (v : option callable) (s : stream) : stream :=
  mk_stream (is_ssl s) (socket s) (error s) (max_buffer_size s)
    (read_chunk_size s) (_read_buffer s) (_write_buffer s)
    (_read_buffer_size s) (_write_buffer_frozen s) (_read_delimiter s)
    (_read_regex s) (_read_bytes s) (_read_until_close s) v
    (_streaming_callback s) (_write_callback s) (_close_callback s)
    (_connect_callback s) (_connecting s) (_state s)
    (_pending_callbacks s) (_ssl_accepting s) (_handshake_reading s)
    (_handshake_writing s) (_ssl_connect_callback s).
Definition with_streaming_callback (v : option callable) (s : stream) : stream :=
  mk_stream (is_ssl s) (socket s) (error s) (max_buffer_size s)
    (read_chunk_size s) (_read_buffer s) (_write_buffer s)
    (_read_buffer_size s) (_write_buffer_frozen s) (_read_delimiter s)
    (_read_regex s) (_read_bytes s) (_read_until_close s)
    (_read_callback s) v (_write_callback s) (_close_callback s)
    (_connect_callback s) (_connecting s) (_state s)
    (_pending_callbacks s) (_ssl_accepting s) (_handshake_reading s)
    (_handshake_writing s) (_ssl_connect_callback s).
Definition with_write_callback (v : option callable) (s : stream) : stream :=
  mk_stream (is_ssl s) (socket s) (error s) (max_buffer_size s)
    (read_chunk_size s) (_read_buffer s) (_write_buffer s)
    (_read_buffer_size s) (_write_buffer_frozen s) (_read_delimiter s)
    (_read_regex s) (_read_bytes s) (_read_until_close s)
    (_read_callback s) (_streaming_callback s) v (_close_callback s)
    (_connect_callback s) (_connecting s) (_state s)
    (_pending_callbacks s) (_ssl_accepting s) (_handshake_reading s)
    (_handshake_writing s) (_ssl_connect_callback s).
Definition with_close_callback (v : option callable) (s : stream) : stream :=
  mk_stream (is_ssl s) (socket s) (error s) (max_buffer_size s)
    (read_chunk_size s) (_read_buffer s) (_write_buffer s)
    (_read_buffer_size s) (_write_buffer_frozen s) (_read_delimiter s)
    (_read_regex s) (_read_bytes s) (_read_until_close s)
    (_read_callback s) (_streaming_callback s) (_write_callback s) v
    (_connect_callback s) (_connecting s) (_state s)
    (_pending_callbacks s) (_ssl_accepting s) (_handshake_reading s)
    (_handshake_writing s) (_ssl_connect_callback s).
Definition with_connect_callback (v : option callable) (s : stream) : stream :=
  mk_stream (is_ssl s) (socket s) (error s) (max_buffer_size s)
    (read_chunk_size s) (_read_buffer s) (_write_buffer s)
    (_read_buffer_size s) (_write_buffer_frozen s) (_read_delimiter s)
    (_read_regex s) (_read_bytes s) (_read_until_close s)
    (_read_callback s) (_streaming_callback s) (_write_callback s)
    (_close_callback s) v (_connecting s) (_state s)
    (_pending_callbacks s) (_ssl_accepting s) (_handshake_reading s)
    (_handshake_writing s) (_ssl_connect_callback s).
Definition with_connecting (v : bool) (s : stream) : stream :=
  mk_stream (is_ssl s) (socket s) (error s) (max_buffer_size s)
    (read_chunk_size s) (_read_buffer s) (_write_buffer s)
    (_read_buffer_size s) (_write_buffer_frozen s) (_read_delimiter s)
    (_read_regex s) (_read_bytes s) (_read_until_close s)
    (_read_callback s) (_streaming_callback s) (_write_callback s)
    (_close_callback s) (_connect_callback s) v (_state s)
    (_pending_callbacks s) (_ssl_accepting s) (_handshake_reading s)
    (_handshake_writing s) (_ssl_connect_callback s).
Definition with_state (v : option Z) (s : stream) : stream :=
  mk_stream (is_ssl s) (socket s) (error s) (max_buffer_size s)
    (read_chunk_size s) (_read_buffer s) (_write_buffer s)
    (_read_buffer_size s) (_write_buffer_frozen s) (_read_delimiter s)
    (_read_regex s) (_read_bytes s) (_read_until_close s)
    (_read_callback s) (_streaming_callback s) (_write_callback s)
    (_close_callback s) (_connect_callback s) (_connecting s) v
    (_pending_callbacks s) (_ssl_accepting s) (_handshake_reading s)
    (_handshake_writing s) (_ssl_connect_callback s).
Definition with_pending_callbacks (v : Z) (s : stream) : stream :=
  mk_stream (is_ssl s) (socket s) (error s) (max_buffer_size s)
    (read_chunk_size s) (_read_buffer s) (_write_buffer s)
    (_read_buffer_size s) (_write_buffer_frozen s) (_read_delimiter s)
    (_read_regex s) (_read_bytes s) (_read_until_close s)
    (_read_callback s) (_streaming_callback s) (_write_callback s)
    (_close_callback s) (_connect_callback s) (_connecting s) (_state s) v
    (_ssl_accepting s) (_handshake_reading s) (_handshake_writing s)
    (_ssl_connect_callback s).
Definition with_ssl_accepting (v : bool) (s : stream) : stream :=
  mk_stream (is_ssl s) (socket s) (error s) (max_buffer_size s)
    (read_chunk_size s) (_read_buffer s) (_write_buffer s)
    (_read_buffer_size s) (_write_buffer_frozen s) (_read_delimiter s)
    (_read_regex s) (_read_bytes s) (_read_until_close s)
    (_read_callback s) (_streaming_callback s) (_write_callback s)
    (_close_callback s) (_connect_callback s) (_connecting s) (_state s)
    (_pending_callbacks s) v (_handshake_reading s) (_handshake_writing s)
    (_ssl_connect_callback s).
Definition with_handshake_reading (v : bool) (s : stream) : stream :=
  mk_stream (is_ssl s) (socket s) (error s) (max_buffer_size s)
    (read_chunk_size s) (_read_buffer s) (_write_buffer s)
    (_read_buffer_size s) (_write_buffer_frozen s) (_read_delimiter s)
    (_read_regex s) (_read_bytes s) (_read_until_close s)
    (_read_callback s) (_streaming_callback s) (_write_callback s)
    (_close_callback s) (_connect_callback s) (_connecting s) (_state s)
    (_pending_callbacks s) (_ssl_accepting s) v (_handshake_writing s)
    (_ssl_connect_callback s).
Definition with_handshake_writing (v : bool) (s : stream) : stream :=
  mk_stream (is_ssl s) (socket s) (error s) (max_buffer_size s)
    (read_chunk_size s) (_read_buffer s) (_write_buffer s)
    (_read_buffer_size s) (_write_buffer_frozen s) (_read_delimiter s)
    (_read_regex s) (_read_bytes s) (_read_until_close s)
    (_read_callback s) (_streaming_callback s) (_write_callback s)
    (_close_callback s) (_connect_callback s) (_connecting s) (_state s)
    (_pending_callbacks s) (_ssl_accepting s) (_handshake_reading s) v
    (_ssl_connect_callback s).
Definition with_ssl_connect_callback (v : option callable) (s : stream) : stream :=
  mk_stream (is_ssl s) (socket s) (error s) (max_buffer_size s)
    (read_chunk_size s) (_read_buffer s) (_write_buffer s)
    (_read_buffer_size s) (_write_buffer_frozen s) (_read_delimiter s)
    (_read_regex s) (_read_bytes s) (_read_until_close s)
    (_read_callback s) (_streaming_callback s) (_write_callback s)
    (_close_callback s) (_connect_callback s) (_connecting s) (_state s)
    (_pending_callbacks s) (_ssl_accepting s) (_handshake_reading s)
    (_handshake_writing s) v.

(** The stream, its event loop, the outside of its socket, and the
    record of every [_run_callback] call so far. *)
Record world := {
  self : stream;
  io_loop : ioloop;
  net : network;
  run_callback_calls : list run_callback_call
}.

(** ** Methods as state transformers

    A method maps a world to an outcome and a world.  [Hang] is a loop
    of the source that never ends; nothing catches it. *)
Inductive result (A : Type) :=
| Ret (a : A)
| Raise (e : exn)
| Hang.
Arguments Ret {A} a.
Arguments Raise {A} e.
Arguments Hang {A}.

Definition M (A : Type) : Type := world -> result A * world.

Definition ret {A} (a : A) : M A := fun w => (Ret a, w).
Definition raise {A} (e : exn) : M A := fun w => (Raise e, w).
Definition hang {A} : M A := fun w => (Hang, w).

Definition bind {A B} (m : M A) (f : A -> M B) : M B :=
  fun w =>
    match m w with
    | (Ret a, w') => f a w'
    | (Raise e, w') => (Raise e, w')
    | (Hang, w') => (Hang, w')
    end.

Notation "x <- m ;; k" := (bind m (fun x => k))
  (at level 61, m at next level, right associativity).
Notation "m ;; k" := (bind m (fun _ => k))
  (at level 61, right associativity).

(** [try: m  except <catches>, e: h e] *)
Definition try_except {A} (m : M A) (catches : exn -> bool)
    (h : exn -> M A) : M A :=
  fun w =>
    match m w with
    | (Raise e, w') => if catches e then h e w' else (Raise e, w')
    | r => r
    end.

(** [try: m  finally: fin] *)
Definition try_finally {A} (m : M A) (fin : M unit) : M A :=
  fun w =>
    match m w with
    | (Ret a, w') => (fin ;; ret a) w'
    | (Raise e, w') => (fin ;; raise e) w'
    | (Hang, w') => (Hang, w')
    end.

(** [except Exception] *)
Definition any_exception (e : exn) : bool := true.

(** Reading and assigning an attribute of [self]. *)
Definition get {A} (f : stream -> A) : M A := fun w => (Ret (f (self w)), w).

Definition assign (f : stream -> stream) : M unit :=
  fun w => (Ret tt, {| self := f (self w); io_loop := io_loop w;
                       net := net w;
                       run_callback_calls := run_callback_calls w |}).

Definition is_some {A} (o : option A) : bool :=
  match o with Some _ => true | None => false end.
Definition is_none {A} (o : option A) : bool := negb (is_some o).

(** ** The event loop and the socket, as the stream calls them *)

Definition io_loop_call (c : handler_call) : M unit :=
  fun w => (Ret tt,
            {| self := self w;
               io_loop := {| handler_calls := handler_calls (io_loop w) ++ [c];
                             callbacks := callbacks (io_loop w) |};
               net := net w;
               run_callback_calls := run_callback_calls w |}).

Definition io_loop_add_callback (c : scheduled) : M unit :=
  fun w => (Ret tt,
            {| self := self w;
               io_loop := {| handler_calls := handler_calls (io_loop w);
                             callbacks := callbacks (io_loop w) ++ [c] |};
               net := net w;
               run_callback_calls := run_callback_calls w |}).

Definition with_net (n : network) (w : world) : world :=
  {| self := self w; io_loop := io_loop w; net := n;
     run_callback_calls := run_callback_calls w |}.

(** [self.socket.<method>]: an [AttributeError] when [self.socket] is
    [None]. *)
Definition the_socket : M sock :=
  s <- get socket ;;
  match s with Some sk => ret sk | None => raise AttributeError end.

(** [self.socket.recv(n)] and, on an SSL socket, [self.socket.read(n)] *)
Definition socket_recv (n : Z) : M bytes :=
  the_socket ;;
  fun w =>
    let nw := net w in
    match recv_script nw with
    | [] => (Raise (socket_error EAGAIN), w)
    | o :: rest =>
        let w' := with_net {| recv_script := rest;
                              send_script := send_script nw;
                              handshake_script := handshake_script nw;
                              connect_script := connect_script nw;
                              so_error_script := so_error_script nw;
                              sent := sent nw |} w in
        match o with
        | RecvData chunk => (Ret chunk, w')
        | RecvRaise e => (Raise (exn_of e), w')
        end
    end.

(** [self.socket.send(data)] *)
Definition socket_send (data : bytes) : M Z :=
  the_socket ;;
  fun w =>
    let nw := net w in
    match send_script nw with
    | [] =>
        (Raise (socket_error EAGAIN),
         with_net {| recv_script := recv_script nw;
                     send_script := [];
                     handshake_script := handshake_script nw;
                     connect_script := connect_script nw;
                     so_error_script := so_error_script nw;
                     sent := sent nw ++ [data] |} w)
    | o :: rest =>
        let w' := with_net {| recv_script := recv_script nw;
                              send_script := rest;
                              handshake_script := handshake_script nw;
                              connect_script := connect_script nw;
                              so_error_script := so_error_script nw;
                              sent := sent nw ++ [data] |} w in
        match o with
        | SendOk num_bytes => (Ret (Z.of_nat num_bytes), w')
        | SendRaise e => (Raise (exn_of e), w')
        end
    end.

(** [self.socket.do_handshake()] *)
Definition socket_do_handshake : M unit :=
  the_socket ;;
  fun w =>
    let nw := net w in
    match handshake_script nw with
    | [] => (Raise (SSLError SSL_ERROR_WANT_READ), w)
    | o :: rest =>
        let w' := with_net {| recv_script := recv_script nw;
                              send_script := send_script nw;
                              handshake_script := rest;
                              connect_script := connect_script nw;
                              so_error_script := so_error_script nw;
                              sent := sent nw |} w in
        match o with
        | CallOk => (Ret tt, w')
        | CallRaise e => (Raise (exn_of e), w')
        end
    end.

(** [self.socket.connect(address)] *)
Definition socket_connect : M unit :=
  the_socket ;;
  fun w =>
    let nw := net w in
    match connect_script nw with
    | [] => (Raise (socket_error EINPROGRESS), w)
    | o :: rest =>
        let w' := with_net {| recv_script := recv_script nw;
                              send_script := send_script nw;
                              handshake_script := handshake_script nw;
                              connect_script := rest;
                              so_error_script := so_error_script nw;
                              sent := sent nw |} w in
        match o with
        | CallOk => (Ret tt, w')
        | CallRaise e => (Raise (exn_of e), w')
        end
    end.

(** [self.socket.getsockopt(socket.SOL_SOCKET, socket.SO_ERROR)] *)
Definition socket_getsockopt_SO_ERROR : M Z :=
  the_socket ;;
  fun w =>
    let nw := net w in
    match so_error_script nw with
    | [] => (Ret 0, w)
    | err :: rest =>
        (Ret err,
         with_net {| recv_script := recv_script nw;
                     send_script := send_script nw;
                     handshake_script := handshake_script nw;
                     connect_script := connect_script nw;
                     so_error_script := rest;
                     sent := sent nw |} w)
    end.

(** ** [IOStream]: callbacks and closing *)

(** [IOStream.__init__] and, with [ssl := true], [SSLIOStream.__init__] *)
Definition __init__ (ssl : bool) (socket : sock) (max_buffer_size read_chunk_size : Z)
  : stream :=
  {| is_ssl := ssl;
     socket := Some socket;
     error := None;
     max_buffer_size := max_buffer_size;
     read_chunk_size := read_chunk_size;
     _read_buffer := [];
     _write_buffer := [];
     _read_buffer_size := 0;
     _write_buffer_frozen := false;
     _read_delimiter := None;
     _read_regex := None;
     _read_bytes := None;
     _read_until_close := false;
     _read_callback := None;
     _streaming_callback := None;
     _write_callback := None;
     _close_callback := None;
     _connect_callback := None;
     _connecting := false;
     _state := None;
     _pending_callbacks := 0;
     _ssl_accepting := true;
     _handshake_reading := false;
     _handshake_writing := false;
     _ssl_connect_callback := None |}.

(** The defaults of [__init__]. *)
Definition default_max_buffer_size : Z := 104857600.
Definition default_read_chunk_size : Z := 4096.

(** Keep the record of [_run_callback] calls. *)
Definition record_call (c : run_callback_call) : M unit :=
  fun w => (Ret tt,
            {| self := self w; io_loop := io_loop w; net := net w;
               run_callback_calls := run_callback_calls w ++ [c] |}).

(** [_run_callback(callback, *args)]: count the callback as pending and
    hand the [wrapper] closure to the event loop.  What the wrapper does
    when the loop runs it is [run_wrapper] below. *)
Definition _run_callback (r : role) (callback : option callable)
    (args : list bytes) : M unit :=
  s <- get socket ;;
  p <- get _pending_callbacks ;;
  record_call {| rc_role := r; rc_callback := callback; rc_args := args;
                 rc_socket_present := is_some s; rc_pending := p |} ;;
  assign (with_pending_callbacks (p + 1)) ;;
  io_loop_add_callback (wrapper r callback args).

(** [deque.popleft()] on the read or the write buffer *)
Definition popleft (buffer : stream -> list bytes)
    (set_buffer : list bytes -> stream -> stream) : M bytes :=
  buf <- get buffer ;;
  match buf with
  | [] => raise IndexError
  | chunk :: rest => assign (set_buffer rest) ;; ret chunk
  end.

(** [deque[0]] *)
Definition first_chunk (buffer : stream -> list bytes) : M bytes :=
  buf <- get buffer ;;
  match buf with
  | [] => raise IndexError
  | chunk :: _ => ret chunk
  end.

(** [_consume(loc)] *)
Definition _consume (loc : Z) : M bytes :=
  if loc =? 0 then ret (b "")
  else
    buf <- get _read_buffer ;;
    assign (with_read_buffer (_merge_prefix buf loc)) ;;
    size <- get _read_buffer_size ;;
    assign (with_read_buffer_size (size - loc)) ;;
    popleft _read_buffer with_read_buffer.

(** [_check_closed()] *)
Definition _check_closed : M unit :=
  s <- get socket ;;
  if is_none s then raise (IOError "Stream is closed") else ret tt.

(** [_maybe_run_close_callback()] *)
Definition _maybe_run_close_callback : M unit :=
  s <- get socket ;;
  close_callback <- get _close_callback ;;
  p <- get _pending_callbacks ;;
  if is_none s && is_some close_callback && (p =? 0) then
    assign (with_close_callback None) ;;
    _run_callback CloseCb close_callback []
  else ret tt.

(** [close()].  [exc] is [sys.exc_info()[1]]: the exception being
    handled where [close] is called, if any. *)
Definition close (exc : option exn) : M unit :=
  s <- get socket ;;
  match s with
  | Some sk =>
      (if is_some exc then assign (with_error exc) else ret tt) ;;
      until_close <- get _read_until_close ;;
      (if until_close then
         callback <- get _read_callback ;;
         assign (with_read_callback None) ;;
         assign (with_read_until_close false) ;;
         size <- get _read_buffer_size ;;
         data <- _consume size ;;
         _run_callback ReadCb callback [data]
       else ret tt) ;;
      state <- get _state ;;
      (if is_some state then
         io_loop_call (remove_handler (fileno sk)) ;;
         assign (with_state None)
       else ret tt) ;;
      (* self.socket.close() *)
      assign (with_socket None)
  | None => ret tt
  end ;;
  _maybe_run_close_callback.

(** [set_close_callback(callback)] *)
Definition set_close_callback (callback : option callable) : M unit :=
  assign (with_close_callback callback).

(** [IOStream.reading()], [IOStream.writing()] and their overrides in
    [SSLIOStream]; [closed()] *)
Definition IOStream_reading (s : stream) : bool := is_some (_read_callback s).
Definition IOStream_writing (s : stream) : bool := truthy (_write_buffer s).
Definition reading (s : stream) : bool :=
  if is_ssl s then _handshake_reading s || IOStream_reading s
  else IOStream_reading s.
Definition writing (s : stream) : bool :=
  if is_ssl s then _handshake_writing s || IOStream_writing s
  else IOStream_writing s.
Definition closed (s : stream) : bool := is_none (socket s).

(** [_add_io_state(state)] *)
Definition _add_io_state (state : Z) : M unit :=
  s <- get socket ;;
  match s with
  | None => ret tt
  | Some sk =>
      cur <- get _state ;;
      match cur with
      | None =>
          assign (with_state (Some (Z.lor ERROR state))) ;;
          io_loop_call (add_handler (fileno sk) (Z.lor ERROR state))
      | Some cur =>
          if Z.land cur state =? 0 then
            assign (with_state (Some (Z.lor cur state))) ;;
            io_loop_call (update_handler (fileno sk) (Z.lor cur state))
          else ret tt
      end
  end.

(** [_maybe_add_error_listener()] *)
Definition _maybe_add_error_listener : M unit :=
  state <- get _state ;;
  p <- get _pending_callbacks ;;
  if is_none state && (p =? 0) then
    s <- get socket ;;
    if is_none s then _maybe_run_close_callback
    else _add_io_state READ
  else ret tt.

(** ** The read engine *)

(** [IOStream._read_from_socket()]: the chunk read, or [None]. *)
Definition IOStream_read_from_socket : M (option bytes) :=
  size <- get read_chunk_size ;;
  chunk <- try_except (c <- socket_recv size ;; ret (Some c))
             is_socket_error
             (fun e => if is_would_block e then ret None else raise e) ;;
  match chunk with
  | None => ret None
  | Some chunk =>
      if negb (truthy chunk) then close None ;; ret None
      else ret (Some chunk)
  end.

(** [SSLIOStream._read_from_socket()].  The source has one [except]
    clause for [ssl.SSLError] and one for [socket.error]; an [SSLError]
    never carries an [errno] code. *)
Definition SSLIOStream_read_from_socket : M (option bytes) :=
  accepting <- get _ssl_accepting ;;
  if accepting then ret None
  else
    size <- get read_chunk_size ;;
    chunk <- try_except (c <- socket_recv size ;; ret (Some c))
               is_socket_error
               (fun e =>
                  match e with
                  | SSLError SSL_ERROR_WANT_READ => ret None
                  | SSLError _ => raise e
                  | _ => if is_would_block e then ret None else raise e
                  end) ;;
    match chunk with
    | None => ret None
    | Some chunk =>
        if negb (truthy chunk) then close None ;; ret None
        else ret (Some chunk)
    end.

(** [self._read_from_socket()], by the class of [self]. *)
Definition _read_from_socket : M (option bytes) :=
  ssl <- get is_ssl ;;
  if ssl then SSLIOStream_read_from_socket else IOStream_read_from_socket.

(** [_read_to_buffer()] *)
Definition _read_to_buffer : M Z :=
  chunk <- try_except _read_from_socket is_socket_error
             (fun e => close (Some e) ;; raise e) ;;
  match chunk with
  | None => ret 0
  | Some chunk =>
      buf <- get _read_buffer ;;
      assign (with_read_buffer (buf ++ [chunk])) ;;
      size <- get _read_buffer_size ;;
      assign (with_read_buffer_size (size + len chunk)) ;;
      size <- get _read_buffer_size ;;
      limit <- get max_buffer_size ;;
      if limit <=? size then
        close None ;;
        raise (IOError "Reached maximum read buffer size")
      else ret (len chunk)
  end.

(** [_double_prefix(self._read_buffer)] *)
Definition double_read_prefix : M unit :=
  buf <- get _read_buffer ;;
  match _double_prefix buf with
  | Some buf' => assign (with_read_buffer buf')
  | None => raise IndexError
  end.

(** The [while True] loop of [_read_from_buffer] under
    [self._read_delimiter is not None]: [true] is [return True],
    [false] is [break]. *)
Fixpoint delimiter_loop (fuel : nat) : M bool :=
  match fuel with
  | O => hang
  | S fuel =>
      chunk <- first_chunk _read_buffer ;;
      delimiter <- get _read_delimiter ;;
      match delimiter with
      | None => raise TypeError
      | Some delimiter =>
          let loc := find chunk delimiter in
          if negb (loc =? -1) then
            callback <- get _read_callback ;;
            let delimiter_len := len delimiter in
            assign (with_read_callback None) ;;
            assign (with_streaming_callback None) ;;
            assign (with_read_delimiter None) ;;
            data <- _consume (loc + delimiter_len) ;;
            _run_callback ReadCb callback [data] ;;
            ret true
          else
            buf <- get _read_buffer ;;
            if len buf =? 1 then ret false
            else double_read_prefix ;; delimiter_loop fuel
      end
  end.

(** The same loop under [self._read_regex is not None]. *)
Fixpoint regex_loop (fuel : nat) : M bool :=
  match fuel with
  | O => hang
  | S fuel =>
      chunk <- first_chunk _read_buffer ;;
      re <- get _read_regex ;;
      match re with
      | None => raise AttributeError
      | Some re =>
          match search re chunk with
          | Some m_end =>
              callback <- get _read_callback ;;
              assign (with_read_callback None) ;;
              assign (with_streaming_callback None) ;;
              assign (with_read_regex None) ;;
              data <- _consume m_end ;;
              _run_callback ReadCb callback [data] ;;
              ret true
          | None =>
              buf <- get _read_buffer ;;
              if len buf =? 1 then ret false
              else double_read_prefix ;; regex_loop fuel
          end
      end
  end.

(** [_read_from_buffer()].  Each pass of a search loop that goes on
    merges chunks, so a loop that is still running after as many passes
    as the buffer had chunks merges nothing and never ends. *)
Definition _read_from_buffer : M bool :=
  streaming_callback <- get _streaming_callback ;;
  size <- get _read_buffer_size ;;
  (if is_some streaming_callback && negb (size =? 0) then
     read_bytes <- get _read_bytes ;;
     bytes_to_consume <-
       match read_bytes with
       | Some n =>
           let bytes_to_consume := Z.min n size in
           assign (with_read_bytes (Some (n - bytes_to_consume))) ;;
           ret bytes_to_consume
       | None => ret size
       end ;;
     data <- _consume bytes_to_consume ;;
     _run_callback StreamingCb streaming_callback [data]
   else ret tt) ;;
  read_bytes <- get _read_bytes ;;
  size <- get _read_buffer_size ;;
  delimiter <- get _read_delimiter ;;
  re <- get _read_regex ;;
  buf <- get _read_buffer ;;
  let search : M bool :=
    if is_some delimiter then
      if truthy buf then delimiter_loop (length buf) else ret false
    else if is_some re then
      if truthy buf then regex_loop (length buf) else ret false
    else ret false in
  match read_bytes with
  | Some num_bytes =>
      if num_bytes <=? size then
        callback <- get _read_callback ;;
        assign (with_read_callback None) ;;
        assign (with_streaming_callback None) ;;
        assign (with_read_bytes None) ;;
        data <- _consume num_bytes ;;
        _run_callback ReadCb callback [data] ;;
        ret true
      else search
  | None => search
  end.

(** The [while True] loop of [_try_inline_read]. *)
Fixpoint inline_read_loop (fuel : nat) : M unit :=
  match fuel with
  | O => hang
  | S fuel =>
      n <- _read_to_buffer ;;
      if n =? 0 then ret tt
      else _check_closed ;; inline_read_loop fuel
  end.

(** The [while True] loop of [_handle_read]. *)
Fixpoint handle_read_loop (fuel : nat) : M unit :=
  match fuel with
  | O => hang
  | S fuel =>
      n <- _read_to_buffer ;;
      if n =? 0 then ret tt
      else handle_read_loop fuel
  end.

(** Every pass of the two loops that goes on has read a chunk from the
    socket, so one more pass than the socket has answers left is
    enough. *)
Definition read_fuel : M nat :=
  fun w => (Ret (S (length (recv_script (net w)))), w).

(** [_try_inline_read()] *)
Definition _try_inline_read : M unit :=
  done <- _read_from_buffer ;;
  if done then ret tt
  else
    _check_closed ;;
    try_finally
      (p <- get _pending_callbacks ;;
       assign (with_pending_callbacks (p + 1)) ;;
       fuel <- read_fuel ;;
       inline_read_loop fuel)
      (p <- get _pending_callbacks ;;
       assign (with_pending_callbacks (p - 1))) ;;
    done <- _read_from_buffer ;;
    if done then ret tt
    else _maybe_add_error_listener.

(** [_set_read_callback(callback)] *)
Definition _set_read_callback (callback : callable) : M unit :=
  cur <- get _read_callback ;;
  if is_some cur then raise (AssertionError "Already reading")
  else assign (with_read_callback (Some callback)).

(** [read_until_regex(regex, callback)]; [re.compile(regex)] is the
    argument [re]. *)
Definition read_until_regex (re : regex) (callback : callable) : M unit :=
  _set_read_callback callback ;;
  assign (with_read_regex (Some re)) ;;
  _try_inline_read.

(** [read_until(delimiter, callback)] *)
Definition read_until (delimiter : bytes) (callback : callable) : M unit :=
  _set_read_callback callback ;;
  assign (with_read_delimiter (Some delimiter)) ;;
  _try_inline_read.

(** [read_bytes(num_bytes, callback, streaming_callback=None)] *)
Definition read_bytes (num_bytes : Z) (callback : callable)
    (streaming_callback : option callable) : M unit :=
  _set_read_callback callback ;;
  assign (with_read_bytes (Some num_bytes)) ;;
  assign (with_streaming_callback streaming_callback) ;;
  _try_inline_read.

(** [read_until_close(callback, streaming_callback=None)] *)
Definition read_until_close (callback : callable)
    (streaming_callback : option callable) : M unit :=
  _set_read_callback callback ;;
  assign (with_streaming_callback streaming_callback) ;;
  s <- get socket ;;
  if is_none s then
    streaming_callback <- get _streaming_callback ;;
    (if is_some streaming_callback then
       size <- get _read_buffer_size ;;
       data <- _consume size ;;
       _run_callback StreamingCb streaming_callback [data]
     else ret tt) ;;
    read_callback <- get _read_callback ;;
    size <- get _read_buffer_size ;;
    data <- _consume size ;;
    _run_callback ReadCb read_callback [data] ;;
    assign (with_streaming_callback None) ;;
    assign (with_read_callback None)
  else
    assign (with_read_until_close true) ;;
    assign (with_streaming_callback streaming_callback) ;;
    _add_io_state READ.

(** [IOStream._handle_read()] *)
Definition IOStream_handle_read : M unit :=
  ok <- try_except
          (try_finally
             (p <- get _pending_callbacks ;;
              assign (with_pending_callbacks (p + 1)) ;;
              fuel <- read_fuel ;;
              handle_read_loop fuel)
             (p <- get _pending_callbacks ;;
              assign (with_pending_callbacks (p - 1))) ;;
           ret true)
          any_exception
          (fun e => close (Some e) ;; ret false) ;;
  if ok then
    done <- _read_from_buffer ;;
    if done then ret tt
    else _maybe_run_close_callback
  else ret tt.

(** ** The write engine, connecting, and the TLS handshake *)

(** How one pass of a [while] loop ends. *)
Inductive loop_ctl := Continue | Break | Return.

Definition WRITE_BUFFER_CHUNK_SIZE : Z := 128 * 1024.

(** The body of [while self._write_buffer] in [_handle_write]. *)
Definition handle_write_pass : M loop_ctl :=
  try_except
    (frozen <- get _write_buffer_frozen ;;
     (if negb frozen then
        buf <- get _write_buffer ;;
        assign (with_write_buffer (_merge_prefix buf (128 * 1024)))
      else ret tt) ;;
     chunk <- first_chunk _write_buffer ;;
     num_bytes <- socket_send chunk ;;
     if num_bytes =? 0 then
       assign (with_write_buffer_frozen true) ;;
       ret Break
     else
       assign (with_write_buffer_frozen false) ;;
       buf <- get _write_buffer ;;
       assign (with_write_buffer (_merge_prefix buf num_bytes)) ;;
       popleft _write_buffer with_write_buffer ;;
       ret Continue)
    is_socket_error
    (fun e =>
       if is_would_block e then
         assign (with_write_buffer_frozen true) ;;
         ret Break
       else
         close (Some e) ;;
         ret Return).

(** [while self._write_buffer]: [true] when the loop ends or breaks,
    [false] when the method returns from inside it. *)
Fixpoint handle_write_loop (fuel : nat) : M bool :=
  match fuel with
  | O => hang
  | S fuel =>
      buf <- get _write_buffer ;;
      if truthy buf then
        ctl <- handle_write_pass ;;
        match ctl with
        | Continue => handle_write_loop fuel
        | Break => ret true
        | Return => ret false
        end
      else ret true
  end.

(** Every pass that goes on has used one answer of the socket, so one
    more pass than the socket has answers left is enough. *)
Definition write_fuel : M nat :=
  fun w => (Ret (S (length (send_script (net w)))), w).

(** [IOStream._handle_write()] *)
Definition IOStream_handle_write : M unit :=
  fuel <- write_fuel ;;
  fell_through <- handle_write_loop fuel ;;
  if fell_through then
    buf <- get _write_buffer ;;
    callback <- get _write_callback ;;
    if negb (truthy buf) && is_some callback then
      assign (with_write_callback None) ;;
      _run_callback WriteCb callback []
    else ret tt
  else ret tt.

(** [IOStream._handle_connect()] *)
Definition IOStream_handle_connect : M unit :=
  err <- socket_getsockopt_SO_ERROR ;;
  if negb (err =? 0) then
    assign (with_error (Some (socket_error (EOTHER err)))) ;;
    close None
  else
    callback <- get _connect_callback ;;
    (if is_some callback then
       assign (with_connect_callback None) ;;
       _run_callback ConnectCb callback []
     else ret tt) ;;
    assign (with_connecting false).

(** [IOStream.connect(address, callback=None)]; the address only
    reaches the socket. *)
Definition IOStream_connect (callback : option callable) : M unit :=
  assign (with_connecting true) ;;
  go_on <- try_except (socket_connect ;; ret true) is_socket_error
             (fun e =>
                match e with
                | socket_error EINPROGRESS | socket_error EWOULDBLOCK =>
                    ret true
                | _ => close (Some e) ;; ret false
                end) ;;
  if go_on then
    assign (with_connect_callback callback) ;;
    _add_io_state WRITE
  else ret tt.

(** [SSLIOStream._do_ssl_handshake()].  The [bool] tells whether the
    [try] block ended without an exception, which is when the [else]
    clause runs. *)
Definition _do_ssl_handshake : M unit :=
  ok <- try_except
          (assign (with_handshake_reading false) ;;
           assign (with_handshake_writing false) ;;
           socket_do_handshake ;;
           ret true)
          is_socket_error
          (fun err =>
             match err with
             | SSLError SSL_ERROR_WANT_READ =>
                 assign (with_handshake_reading true) ;; ret false
             | SSLError SSL_ERROR_WANT_WRITE =>
                 assign (with_handshake_writing true) ;; ret false
             | SSLError SSL_ERROR_EOF | SSLError SSL_ERROR_ZERO_RETURN =>
                 close (Some err) ;; ret false
             | SSLError SSL_ERROR_SSL =>
                 close (Some err) ;; ret false
             | SSLError (SSL_ERROR_OTHER _) => raise err
             | socket_error ECONNABORTED | socket_error ECONNRESET =>
                 close (Some err) ;; ret false
             | _ => ret false
             end) ;;
  if ok then
    assign (with_ssl_accepting false) ;;
    callback <- get _ssl_connect_callback ;;
    if is_some callback then
      assign (with_ssl_connect_callback None) ;;
      _run_callback SslConnectCb callback []
    else ret tt
  else ret tt.

(** [self._handle_read()], by the class of [self]. *)
Definition _handle_read : M unit :=
  ssl <- get is_ssl ;;
  if ssl then
    accepting <- get _ssl_accepting ;;
    if accepting then _do_ssl_handshake
    else IOStream_handle_read
  else IOStream_handle_read.

(** [self._handle_write()], by the class of [self]. *)
Definition _handle_write : M unit :=
  ssl <- get is_ssl ;;
  if ssl then
    accepting <- get _ssl_accepting ;;
    if accepting then _do_ssl_handshake
    else IOStream_handle_write
  else IOStream_handle_write.

(** [self._handle_connect()], by the class of [self]:
    [SSLIOStream._handle_connect] wraps the socket first. *)
Definition _handle_connect : M unit :=
  ssl <- get is_ssl ;;
  if ssl then
    sk <- the_socket ;;
    assign (with_socket (Some {| fileno := fileno sk; wrapped := true |})) ;;
    IOStream_handle_connect
  else IOStream_handle_connect.

(** [self.connect(address, callback=None)], by the class of [self]. *)
Definition connect (callback : option callable) : M unit :=
  ssl <- get is_ssl ;;
  if ssl then
    assign (with_ssl_connect_callback callback) ;;
    IOStream_connect None
  else IOStream_connect callback.

(** [range(0, stop, step)] for a positive [step] *)
Definition range0 (stop step : Z) : list Z :=
  map (fun k => Z.of_nat k * step) (seq 0 (Z.to_nat ((stop + step - 1) / step))).

(** [write(data, callback=None)] *)
Definition write (data : bytes) (callback : option callable) : M unit :=
  _check_closed ;;
  (if truthy data then
     if WRITE_BUFFER_CHUNK_SIZE <? len data then
       buf <- get _write_buffer ;;
       assign (with_write_buffer
                 (buf ++ map (fun i => slice data i (i + WRITE_BUFFER_CHUNK_SIZE))
                             (range0 (len data) WRITE_BUFFER_CHUNK_SIZE)))
     else
       buf <- get _write_buffer ;;
       assign (with_write_buffer (buf ++ [data]))
   else ret tt) ;;
  assign (with_write_callback callback) ;;
  connecting <- get _connecting ;;
  if negb connecting then
    _handle_write ;;
    buf <- get _write_buffer ;;
    (if truthy buf then _add_io_state WRITE else ret tt) ;;
    _maybe_add_error_listener
  else ret tt.

(** [_handle_events(fd, events)] *)
Definition _handle_events (fd events : Z) : M unit :=
  s <- get socket ;;
  if is_none s then ret tt
  else
    try_except
      ((if negb (Z.land events READ =? 0) then _handle_read else ret tt) ;;
       s <- get socket ;;
       if is_none s then ret tt
       else
         (if negb (Z.land events WRITE =? 0) then
            connecting <- get _connecting ;;
            (if connecting then _handle_connect else ret tt) ;;
            _handle_write
          else ret tt) ;;
         s <- get socket ;;
         if is_none s then ret tt
         else if negb (Z.land events ERROR =? 0) then
           errno <- socket_getsockopt_SO_ERROR ;;
           assign (with_error (Some (socket_error (EOTHER errno)))) ;;
           io_loop_add_callback bound_close
         else
           is_reading <- get reading ;;
           is_writing <- get writing ;;
           let state := ERROR in
           let state := if is_reading then Z.lor state READ else state in
           let state := if is_writing then Z.lor state WRITE else state in
           let state := if state =? ERROR then Z.lor state READ else state in
           cur <- get _state ;;
           match cur with
           | None =>
               raise (AssertionError
                        "shouldn't happen: _handle_events without self._state")
           | Some cur =>
               if negb (state =? cur) then
                 assign (with_state (Some state)) ;;
                 sk <- the_socket ;;
                 io_loop_call (update_handler (fileno sk) state)
               else ret tt
           end)
      any_exception
      (fun e => close (Some e) ;; raise e).

(** ** Runs of the stream

    What can happen to a stream: the application calls a public method,
    the event loop calls the handler [_handle_events], or the event loop
    runs the oldest callback it was given.  A callback is user code: it
    may call the stream again before it returns or raises. *)
#[warnings="-register-all"]
Inductive op :=
| Connect (callback : option callable)
| ReadUntilRegex (re : regex) (callback : callable)
| ReadUntil (delimiter : bytes) (callback : callable)
| ReadBytes (num_bytes : Z) (callback : callable)
    (streaming_callback : option callable)
| ReadUntilClose (callback : callable) (streaming_callback : option callable)
| Write (data : bytes) (callback : option callable)
| SetCloseCallback (callback : option callable)
| Close
| HandleEvents (fd events : Z)
| RunNext (body : list op) (raised : option exn).

(** The event loop takes the oldest callback off its queue. *)
Definition io_loop_next : M (option scheduled) :=
  fun w =>
    match callbacks (io_loop w) with
    | [] => (Ret None, w)
    | c :: rest =>
        (Ret (Some c),
         {| self := self w;
            io_loop := {| handler_calls := handler_calls (io_loop w);
                          callbacks := rest |};
            net := net w;
            run_callback_calls := run_callback_calls w |})
    end.

(** The [wrapper] closure of [_run_callback], run by the event loop;
    [user] is what the callback does.  Calling [None] is a
    [TypeError]. *)
Definition run_wrapper (callback : option callable) (user : M unit)
  : M unit :=
  p <- get _pending_callbacks ;;
  assign (with_pending_callbacks (p - 1)) ;;
  try_except
    (if is_some callback then user else raise TypeError)
    any_exception
    (fun e => close (Some e) ;; raise e) ;;
  _maybe_add_error_listener.

(** The caller of a method catches what the method raises. *)
Definition caught (m : M unit) : M unit :=
  try_except m any_exception (fun _ => ret tt).

Definition raise_if (raised : option exn) : M unit :=
  match raised with Some e => raise e | None => ret tt end.

(** One step of a run. *)
Fixpoint perform (o : op) : M unit :=
  match o with
  | Connect callback => connect callback
  | ReadUntilRegex re callback => read_until_regex re callback
  | ReadUntil delimiter callback => read_until delimiter callback
  | ReadBytes num_bytes callback streaming_callback =>
      read_bytes num_bytes callback streaming_callback
  | ReadUntilClose callback streaming_callback =>
      read_until_close callback streaming_callback
  | Write data callback => write data callback
  | SetCloseCallback callback => set_close_callback callback
  | Close => close None
  | HandleEvents fd events => _handle_events fd events
  | RunNext body raised =>
      c <- io_loop_next ;;
      match c with
      | None => ret tt
      | Some bound_close => close None
      | Some (wrapper _ callback _) =>
          run_wrapper callback
            (fold_right (fun o' rest => caught (perform o') ;; rest)
                        (raise_if raised) body)
      end
  end.

(** A run: the steps in order, each in its own [try]. *)
Definition run (ops : list op) : M unit :=
  fold_right (fun o rest => caught (perform o) ;; rest) (ret tt) ops.

(** A new stream in a world: nothing registered, nothing scheduled,
    and a socket that will answer as [n] says. *)
Definition new_world (s : stream) (n : network) : world :=
  {| self := s;
     io_loop := {| handler_calls := []; callbacks := [] |};
     net := n;
     run_callback_calls := [] |}.

Definition quiet : network :=
  {| recv_script := []; send_script := []; handshake_script := [];
     connect_script := []; so_error_script := []; sent := [] |}.

(** * Vocabulary of the properties *)

(** [m] started in [w] ends in a world and with an outcome that
    satisfy [Q]. *)
Definition wp {A} (m : M A) (Q : result A -> world -> Prop) (w : world)
  : Prop :=
  Q (fst (m w)) (snd (m w)).

(** [I] holds after [m] whenever it holds before, however [m] ends. *)
Definition preserves {A} (I : world -> Prop) (m : M A) : Prop :=
  forall w, I w -> I (snd (m w)).

(** [m] never raises and never hangs. *)
Definition returns {A} (m : M A) : Prop :=
  forall w, exists a, fst (m w) = Ret a.

(** [Q] holds after [m] whenever [P] holds before, however [m] ends. *)
Definition hoare {A} (P : world -> Prop) (m : M A) (Q : world -> Prop)
  : Prop :=
  forall w, P w -> Q (snd (m w)).

(** Every socket call leaves the stream, the event loop and the record
    of [_run_callback] calls alone. *)
Definition same_but_net (w w' : world) : Prop :=
  self w' = self w /\ io_loop w' = io_loop w /\
  run_callback_calls w' = run_callback_calls w.

(** An invariant that does not look at the socket's scripts. *)
Definition net_blind (I : world -> Prop) : Prop :=
  forall w w', same_but_net w w' -> I w -> I w'.

(** Reads *)

(** A [_run_callback] call, as it is recorded. *)
Definition call (r : role) (cb : option callable) (args : list bytes)
    (socket_present : bool) (pending : Z) : run_callback_call :=
  {| rc_role := r; rc_callback := cb; rc_args := args;
     rc_socket_present := socket_present; rc_pending := pending |}.

(** The bytes in the read buffer. *)
Definition buffered (w : world) : bytes := concat (_read_buffer (self w)).

(** The size counter of the read buffer is the number of bytes in it. *)
Definition size_counted (w : world) : Prop :=
  _read_buffer_size (self w) = len (buffered w).

(** [d] occurs in [s] at offset [i]. *)
Definition occurs_at (d s : bytes) (i : nat) : Prop :=
  exists x y, s = x ++ d ++ y /\ length x = i.

(** A payload that ends with the first [d] of the bytes it was cut
    from: it ends with [d], and [d] occurs nowhere else in it. *)
Definition ends_at_first (d payload : bytes) : Prop :=
  exists x,
    payload = x ++ d /\
    forall i, occurs_at d payload i -> i = length x.

(** No call in [l] went to the completion callback of a read. *)
Definition no_read (l : list run_callback_call) : Prop :=
  Forall (fun c => rc_role c <> ReadCb) l.

(** The bytes that the calls in [l] handed to a streaming callback, in
    the order of the calls. *)
Definition streamed (l : list run_callback_call) : bytes :=
  concat (map (fun c => if role_eqb (rc_role c) StreamingCb
                        then concat (rc_args c) else []) l).

(** No read is armed. *)
Definition idle (w : world) : Prop :=
  _read_callback (self w) = None /\
  _read_delimiter (self w) = None /\
  _read_regex (self w) = None /\
  _read_bytes (self w) = None /\
  _read_until_close (self w) = false.

(** The bytes that the answers [l] of [recv] carry. *)
Definition data_of (l : list recv_outcome) : bytes :=
  concat (map (fun o => match o with
                        | RecvData chunk => chunk
                        | RecvRaise _ => []
                        end) l).

(** [w'] is [w] with the chunks of the read buffer regrouped: the same
    bytes, and nothing else has changed. *)
Definition rebuffered (w w' : world) : Prop :=
  buffered w' = buffered w /\
  self w' = with_read_buffer (_read_buffer (self w')) (self w) /\
  io_loop w' = io_loop w /\
  net w' = net w /\
  run_callback_calls w' = run_callback_calls w.

(** The dispatch has completed a [read_until(d)] that was armed in [w]:
    one call has gone to the read callback, with a payload that ends at
    the first [d] of the buffered bytes, and the bytes behind it are
    still buffered. *)
Definition completed_until (d : bytes) (w w' : world) : Prop :=
  exists payload,
    ends_at_first d payload /\
    (forall j, occurs_at d (buffered w) j ->
               (length payload <= j + length d)%nat) /\
    buffered w = payload ++ buffered w' /\
    run_callback_calls w' =
      run_callback_calls w ++
      [call ReadCb (_read_callback (self w)) [payload]
         (is_some (socket (self w))) (_pending_callbacks (self w))] /\
    _read_callback (self w') = None /\
    _read_delimiter (self w') = None /\
    net w' = net w.


(** ** Reads in a run *)

(** Among the calls [l] there is one to the completion callback of a
    read, and the first of them, with the calls before it, is as [P]
    says. *)
Definition first_read
    (P : list run_callback_call -> run_callback_call -> Prop)
    (l : list run_callback_call) : Prop :=
  exists pre e post,
    l = pre ++ e :: post /\ no_read pre /\ rc_role e = ReadCb /\ P pre e.

(** Since the calls [before], a read has completed as [P] says. *)
Definition completed
    (P : list run_callback_call -> run_callback_call -> Prop)
    (before : list run_callback_call) (w : world) : Prop :=
  exists new, run_callback_calls w = before ++ new /\ first_read P new.

(** The bytes that no read has consumed yet: those in the read buffer,
    and behind them those that the socket is still to deliver. *)
Definition unconsumed (w : world) : bytes :=
  buffered w ++ data_of (recv_script (net w)).

(** Every socket call but [recv] leaves the stream, the event loop, the
    record of [_run_callback] calls and what [recv] will answer
    alone. *)
Definition same_recv (w w' : world) : Prop :=
  same_but_net w w' /\ recv_script (net w') = recv_script (net w).

(** The completion of a [read_until(d, cb)] that found the unconsumed
    bytes [u]: the call goes to [cb], with one payload, which is the
    beginning of [u] up to the end of the first [d] in it. *)
Definition until_payload (d : bytes) (cb : callable) (u : bytes)
    (pre : list run_callback_call) (e : run_callback_call) : Prop :=
  exists payload rest,
    rc_callback e = Some cb /\
    rc_args e = [payload] /\
    ends_at_first d payload /\
    u = payload ++ rest /\
    forall j, occurs_at d u j -> (length payload <= j + length d)%nat.

(** A [read_until(d, cb)] is armed since the calls [before], when the
    unconsumed bytes were [u], and has not completed. *)
Definition armed_until (d : bytes) (cb : callable) (u : bytes)
    (before : list run_callback_call) (w : world) : Prop :=
  _read_callback (self w) = Some cb /\
  _read_delimiter (self w) = Some d /\
  _read_bytes (self w) = None /\
  _read_until_close (self w) = false /\
  _streaming_callback (self w) = None /\
  unconsumed w = u /\
  exists new, run_callback_calls w = before ++ new /\ no_read new.

Definition until_inv (d : bytes) (cb : callable) (u : bytes)
    (before : list run_callback_call) (w : world) : Prop :=
  armed_until d cb u before w \/ completed (until_payload d cb u) before w.

(** A call to a streaming callback went to [scb]. *)
Definition to_streaming_callback (scb : option callable)
    (c : run_callback_call) : Prop :=
  rc_role c = StreamingCb -> rc_callback c = scb /\ scb <> None.

(** The completion of a [read_bytes(n, cb, scb)] that found the
    unconsumed bytes [u]: the call goes to [cb]; what was streamed
    before, followed by the payload of the call, is the first [n] bytes
    of [u]; and with a streaming callback the payload is empty. *)
Definition bytes_payload (n : Z) (cb : callable) (scb : option callable)
    (u : bytes) (pre : list run_callback_call) (e : run_callback_call)
  : Prop :=
  rc_callback e = Some cb /\
  Forall (to_streaming_callback scb) pre /\
  exists payload rest,
    rc_args e = [payload] /\
    (scb <> None -> payload = b "") /\
    len (streamed pre ++ payload) = n /\
    u = streamed pre ++ payload ++ rest.

(** A [read_bytes(n, cb, scb)] is armed since the calls [before], when
    the unconsumed bytes were [u], and has not completed: [r] bytes are
    still to come. *)
Definition armed_bytes (n : Z) (cb : callable) (scb : option callable)
    (u : bytes) (before : list run_callback_call) (w : world) : Prop :=
  _read_callback (self w) = Some cb /\
  _streaming_callback (self w) = scb /\
  _read_delimiter (self w) = None /\
  _read_regex (self w) = None /\
  _read_until_close (self w) = false /\
  size_counted w /\
  exists new r,
    run_callback_calls w = before ++ new /\
    no_read new /\
    Forall (to_streaming_callback scb) new /\
    _read_bytes (self w) = Some r /\
    0 <= r /\
    len (streamed new) + r = n /\
    streamed new ++ unconsumed w = u.

Definition bytes_inv (n : Z) (cb : callable) (scb : option callable)
    (u : bytes) (before : list run_callback_call) (w : world) : Prop :=
  armed_bytes n cb scb u before w \/
  completed (bytes_payload n cb scb u) before w.

(** The world after [_read_to_buffer] has put [chunk] at the end of the
    read buffer and counted it. *)
Definition appended (chunk : bytes) (w : world) : world :=
  snd (assign (with_read_buffer_size (_read_buffer_size (self w) + len chunk))
         (snd (assign (with_read_buffer (_read_buffer (self w) ++ [chunk]))
                 w))).

(** An invariant that looks at the socket's scripts only for what
    [recv] will answer. *)
Definition recv_blind (I : world -> Prop) : Prop :=
  forall w w', same_recv w w' -> I w -> I w'.

(** A plain stream whose socket delivers one chunk with two
    semicolons, and then nothing. *)
Definition two_delimiters : world :=
  {| self := __init__ false {| fileno := 7; wrapped := false |}
               default_max_buffer_size default_read_chunk_size;
     io_loop := {| handler_calls := []; callbacks := [] |};
     net := {| recv_script := [RecvData (b "a;b;c")];
               send_script := []; handshake_script := [];
               connect_script := []; so_error_script := []; sent := [] |};
     run_callback_calls := [] |}.

(** A plain stream whose socket delivers 4 bytes, then nothing for a
    while, then 8 bytes. *)
Definition twelve_bytes_in_two_reads : world :=
  {| self := __init__ false {| fileno := 7; wrapped := false |}
               default_max_buffer_size default_read_chunk_size;
     io_loop := {| handler_calls := []; callbacks := [] |};
     net := {| recv_script := [RecvData (b "abcd");
                               RecvRaise (with_errno EAGAIN);
                               RecvData (b "efghijkl")];
               send_script := []; handshake_script := [];
               connect_script := []; so_error_script := []; sent := [] |};
     run_callback_calls := [] |}.
(** The close callback (C8) *)

(** How many of the calls scheduled the close callback. *)
Definition close_calls (l : list run_callback_call) : Z :=
  len (filter (fun c => role_eqb (rc_role c) CloseCb) l).

(** A call that scheduled the close callback was made with the socket
    gone and no callback pending. *)
Definition guarded (c : run_callback_call) : Prop :=
  rc_role c = CloseCb -> rc_socket_present c = false /\ rc_pending c = 0.

(** 1 when a close callback is installed. *)
Definition installed (w : world) : Z :=
  if is_some (_close_callback (self w)) then 1 else 0.

(** How often a run installs a close callback, at most. *)
Fixpoint installs (o : op) : Z :=
  match o with
  | SetCloseCallback (Some _) => 1
  | RunNext body _ => fold_right (fun o' n => installs o' + n) 0 body
  | _ => 0
  end.

Definition installs_all (ops : list op) : Z :=
  fold_right (fun o n => installs o + n) 0 ops.

(** Since the calls [before]: every call that scheduled the close
    callback was guarded, and these calls, with the callback still
    installed, are at most [n]. *)
Definition close_inv (before : list run_callback_call) (n : Z) (w : world)
  : Prop :=
  exists new,
    run_callback_calls w = before ++ new /\
    close_calls new + installed w <= n /\
    Forall guarded new.

(** Examples of streams *)

(** A plain stream with the defaults of [__init__], on descriptor 7. *)
Definition plain_stream : stream :=
  __init__ false {| fileno := 7; wrapped := false |}
    default_max_buffer_size default_read_chunk_size.

(** A socket that delivers the chunks [chunks] and nothing else. *)
Definition delivering (chunks : list recv_outcome) : network :=
  {| recv_script := chunks; send_script := []; handshake_script := [];
     connect_script := []; so_error_script := []; sent := [] |}.

(** The peer sends ["tail"] and closes; the application has read one
    byte.  The stream is then closed, with ["ail"] in its buffer. *)
Definition closed_with_ail : world :=
  snd (run [ReadBytes 1 0%nat None]
         (new_world plain_stream
            (delivering [RecvData (b "tail"); RecvData (b "")]))).

(** The error of [_read_to_buffer] (C6) *)
Definition buffer_overflow : exn :=
  IOError "Reached maximum read buffer size".

(** The TLS handshake (C9) *)

(** The answer of the next [do_handshake] call. *)
Definition next_handshake (n : network) : call_outcome :=
  match handshake_script n with
  | [] => CallRaise (with_ssl_code SSL_ERROR_WANT_READ)
  | o :: _ => o
  end.

(** Since the calls [before], [_run_callback] has not been given the
    connect callback that [SSLIOStream.connect] stashed. *)
Definition no_ssl_connect (before : list run_callback_call) (w : world)
  : Prop :=
  exists new,
    run_callback_calls w = before ++ new /\
    Forall (fun c => rc_role c <> SslConnectCb) new.

(** The handshake has not succeeded, the stashed callback is where it
    was, and it has not been scheduled. *)
Definition handshake_pending (accepting : bool) (stashed : option callable)
    (before : list run_callback_call) (w : world) : Prop :=
  _ssl_accepting (self w) = accepting /\
  _ssl_connect_callback (self w) = stashed /\
  no_ssl_connect before w.

(** As long as [_ssl_accepting] is set, the stashed callback has not
    been scheduled. *)
Definition not_before_handshake (before : list run_callback_call)
    (w : world) : Prop :=
  _ssl_accepting (self w) = true -> no_ssl_connect before w.

(** An [SSLIOStream] with the defaults of [__init__], on descriptor 7. *)
Definition tls_stream : stream :=
  __init__ true {| fileno := 7; wrapped := false |}
    default_max_buffer_size default_read_chunk_size.

(** A socket whose handshake first needs to read and then succeeds. *)
Definition handshake_in_two_steps : network :=
  {| recv_script := []; send_script := [];
     handshake_script :=
       [CallRaise (with_ssl_code SSL_ERROR_WANT_READ); CallOk];
     connect_script := []; so_error_script := []; sent := [] |}.

(** The stream after [connect(address, callback)] with callback 5. *)
Definition tls_connecting : world :=
  snd (connect (Some 5%nat) (new_world tls_stream handshake_in_two_steps)).

(** The write loop (C7) *)

(** The answer of the next [send] call. *)
Definition next_send (n : network) : send_outcome :=
  match send_script n with
  | [] => SendRaise (with_errno EAGAIN)
  | o :: _ => o
  end.

(** [send] wrote nothing: it returned 0 or would block. *)
Definition stalls (o : send_outcome) : bool :=
  match o with
  | SendOk O => true
  | SendRaise (with_errno EWOULDBLOCK) | SendRaise (with_errno EAGAIN) => true
  | _ => false
  end.

(** The write buffer as [send] sees it: merged to 128 KiB unless
    frozen. *)
Definition write_buffer_for_send (s : stream) : list bytes :=
  if _write_buffer_frozen s then _write_buffer s
  else _merge_prefix (_write_buffer s) (128 * 1024).

(** The peer accepts 3 bytes, then nothing, then everything. *)
Definition slow_peer : network :=
  {| recv_script := [];
     send_script := [SendOk 3; SendOk 0; SendOk 100];
     handshake_script := []; connect_script := []; so_error_script := [];
     sent := [] |}.

(** A plain stream that was asked to write ["hello "] and ["world"]
    while it was connecting, so both chunks are still queued. *)
Definition two_chunks_queued : world :=
  snd (run [Write (b "hello ") None; Write (b "world") None]
         (new_world (with_connecting true plain_stream) slow_peer)).

(** Registering for reads (C5) *)

(** [m] is in the interest set [state]. *)
Definition interested (state : option Z) (m : Z) : bool :=
  match state with
  | Some mask => negb (Z.land mask m =? 0)
  | None => false
  end.

(** Unless the stream has been closed since [w], it has the socket, the
    registered interest and the handler calls of [w]. *)
Definition registration_kept (w w' : world) : Prop :=
  socket (self w') <> None ->
  socket (self w') = socket (self w) /\
  _state (self w') = _state (self w) /\
  handler_calls (io_loop w') = handler_calls (io_loop w).

(** The three operations that arm a read and then call
    [_try_inline_read]. *)
Inductive inline_read :=
| until_regex (re : regex) (callback : callable)
| until_delimiter (delimiter : bytes) (callback : callable)
| exact_count (num_bytes : Z) (callback : callable)
    (streaming_callback : option callable).

Definition arm (o : inline_read) : M unit :=
  match o with
  | until_regex re callback => read_until_regex re callback
  | until_delimiter delimiter callback => read_until delimiter callback
  | exact_count num_bytes callback streaming_callback =>
      read_bytes num_bytes callback streaming_callback
  end.

(** Scenario 3 of the spec, first half: the socket has ["abcd"] and
    then nothing. *)
Definition four_bytes_then_nothing : world :=
  new_world plain_stream
    (delivering [RecvData (b "abcd"); RecvRaise (with_errno EAGAIN)]).

(** What [_try_inline_read] does to the registration when it leaves the
    read armed on an open stream: it registers [ERROR | READ] if nothing
    was registered and no callback is pending, and otherwise leaves the
    registration as it was. *)
Definition registers_read (w w' : world) : Prop :=
  exists sk,
    socket (self w) = Some sk /\
    if is_none (_state (self w)) && (_pending_callbacks (self w') =? 0) then
      _state (self w') = Some (Z.lor ERROR READ) /\
      handler_calls (io_loop w') =
        handler_calls (io_loop w) ++ [add_handler (fileno sk) (Z.lor ERROR READ)]
    else
      _state (self w') = _state (self w) /\
      handler_calls (io_loop w') = handler_calls (io_loop w).

(** More vocabulary: connecting, and the socket's answers *)

(** The answer of the next [connect] call. *)
Definition next_connect (n : network) : call_outcome :=
  match connect_script n with
  | [] => CallRaise (with_errno EINPROGRESS)
  | o :: _ => o
  end.

(** [connect] returned, or the connection is in progress. *)
Definition connect_goes_on (o : call_outcome) : bool :=
  match o with
  | CallOk => true
  | CallRaise (with_errno EINPROGRESS) => true
  | CallRaise (with_errno EWOULDBLOCK) => true
  | _ => false
  end.

(** What [raise] the application sees for an answer of the socket. *)
Definition raised_by (o : call_outcome) : option exn :=
  match o with
  | CallOk => None
  | CallRaise e => Some (exn_of e)
  end.

(** The answer of the next [getsockopt(SOL_SOCKET, SO_ERROR)]. *)
Definition next_so_error (n : network) : Z :=
  match so_error_script n with
  | [] => 0
  | err :: _ => err
  end.

(** A peer that refuses the connection: [connect] fails with
    [ECONNREFUSED] (111). *)
Definition refusing : network :=
  {| recv_script := []; send_script := []; handshake_script := [];
     connect_script := [CallRaise (with_errno (EOTHER 111))];
     so_error_script := [111]; sent := [] |}.

(** Since the calls [before], every call that has been recorded is as
    [P] says. *)
Definition only_added (P : run_callback_call -> Prop)
    (before : list run_callback_call) (w : world) : Prop :=
  exists new, run_callback_calls w = before ++ new /\ Forall P new.

(** A call that does not schedule the callback with the role [r]. *)
Definition not_role (r : role) (c : run_callback_call) : Prop :=
  rc_role c <> r.

(** A connection attempt that has failed: [SO_ERROR] is
    [ECONNREFUSED]. *)
Definition connecting_refused : world :=
  {| self := with_connect_callback (Some 1%nat)
               (with_connecting true
                  (__init__ false {| fileno := 7; wrapped := false |}
                     default_max_buffer_size default_read_chunk_size));
     io_loop := {| handler_calls := []; callbacks := [] |};
     net := {| recv_script := []; send_script := []; handshake_script := [];
               connect_script := []; so_error_script := [111]; sent := [] |};
     run_callback_calls := [] |}.
(** * Properties *)

(** ** The buffer utilities *)

Lemma len_nonneg {A} (l : list A) : 0 <= len l.
Proof. unfold len. lia. Qed.

Lemma len_app {A} (l1 l2 : list A) : len (l1 ++ l2) = len l1 + len l2.
Proof. unfold len. rewrite length_app. lia. Qed.

Lemma len_nil_inv {A} (l : list A) : len l = 0 -> l = [].
Proof. destruct l; [reflexivity | unfold len; simpl; lia]. Qed.

Lemma slice_split (chunk : bytes) (remaining : Z) :
  slice_to chunk remaining ++ slice_from chunk remaining = chunk.
Proof. apply firstn_skipn. Qed.

Lemma slice_to_len (chunk : bytes) (remaining : Z) :
  0 < remaining -> remaining < len chunk ->
  len (slice_to chunk remaining) = remaining.
Proof.
  intros Hpos Hlt. unfold slice_to, slice_index, len in *.
  destruct (Z.ltb_spec remaining 0); [lia|].
  rewrite length_firstn. lia.
Qed.

(** What the loop of [_merge_prefix] computes: it moves chunks from the
    deque to [prefix] without changing the bytes or their order, and it
    moves [remaining] bytes or, if the deque is shorter, all of them. *)
Lemma merge_loop_spec (deque prefix : list bytes) (remaining : Z) :
  exists taken,
    snd (merge_loop deque prefix remaining) = prefix ++ taken /\
    concat taken ++ concat (fst (merge_loop deque prefix remaining))
      = concat deque /\
    len (concat taken) = Z.min (Z.max remaining 0) (len (concat deque)) /\
    (0 < remaining -> deque <> [] -> taken <> []) /\
    (remaining <= 0 ->
       taken = [] /\ fst (merge_loop deque prefix remaining) = deque).
Proof.
  funelim (merge_loop deque prefix remaining).
  - exists []. simp merge_loop. simpl. rewrite app_nil_r.
    repeat split; try reflexivity; try congruence.
    unfold len. simpl. lia.
  - (* the loop ends: [remaining <= 0] *)
    exists []. simpl. rewrite app_nil_r.
    repeat split; try reflexivity; try lia.
    pose proof (len_nonneg (concat (chunk :: deque))).
    unfold len in *. simpl length at 1. lia.
  - (* the chunk is split *)
    destruct H as (taken & Hsnd & Hcat & Hlen & _ & Hstop).
    pose proof (slice_to_len chunk remaining ltac:(lia) ltac:(lia)) as Hl.
    destruct Hstop as [Htaken Hfst]; [lia|]. subst taken.
    exists [slice_to chunk remaining].
    rewrite Hsnd, Hfst. rewrite <- !app_assoc. simpl. rewrite !app_nil_r.
    split; [reflexivity|]. split; [|split; [|split]].
    + rewrite app_assoc, slice_split. reflexivity.
    + rewrite Hl, len_app. pose proof (len_nonneg (concat deque)). lia.
    + intros. congruence.
    + intros. lia.
  - (* the whole chunk is taken *)
    destruct H as (taken & Hsnd & Hcat & Hlen & _ & _).
    exists (chunk :: taken).
    rewrite Hsnd. rewrite <- app_assoc. simpl.
    split; [reflexivity|]. split; [|split; [|split]].
    + rewrite <- app_assoc, Hcat. reflexivity.
    + rewrite !len_app, Hlen. pose proof (len_nonneg chunk).
      pose proof (len_nonneg (concat deque)). lia.
    + intros. congruence.
    + intros. lia.
Qed.

Lemma concat_single (c : bytes) : concat [c] = c.
Proof. simpl. apply app_nil_r. Qed.

(** [_merge_prefix] never changes the bytes of the deque. *)
Lemma merge_prefix_concat (deque : list bytes) (size : Z) :
  concat (_merge_prefix deque size) = concat deque.
Proof.
  unfold _merge_prefix.
  destruct ((len deque =? 1) && (len (nth 0 deque []) <=? size));
    [reflexivity|].
  destruct (merge_loop_spec deque [] size) as (taken & Hsnd & Hcat & _).
  destruct (merge_loop deque [] size) as [rest prefix]. simpl in *.
  subst prefix.
  destruct taken as [|t taken]; simpl truthy; cbv iota.
  - simpl in Hcat. destruct rest; simpl truthy; cbv iota; simpl;
      rewrite <- Hcat; reflexivity.
  - simpl truthy. cbv iota. exact Hcat.
Qed.

(** It never leaves the deque empty. *)
Lemma merge_prefix_nonempty (deque : list bytes) (size : Z) :
  _merge_prefix deque size <> [].
Proof.
  unfold _merge_prefix.
  destruct ((len deque =? 1) && (len (nth 0 deque []) <=? size)) eqn:E.
  - destruct deque; [discriminate E | congruence].
  - destruct (merge_loop deque [] size) as [rest prefix].
    destruct prefix; simpl; [destruct rest; simpl|]; congruence.
Qed.

(** For a positive [size], the first chunk has [size] bytes, or all the
    bytes of the deque if there are fewer. *)
Lemma merge_prefix_head (deque : list bytes) (size : Z) :
  0 < size ->
  len (hd [] (_merge_prefix deque size)) = Z.min size (len (concat deque)).
Proof.
  intros Hsize.
  destruct deque as [|c0 deque0].
  { unfold _merge_prefix. simp merge_loop. simpl. unfold len. simpl. lia. }
  remember (c0 :: deque0) as deque eqn:Hdeque.
  assert (deque <> []) as Hdne by (subst; congruence). clear Hdeque.
  unfold _merge_prefix.
  destruct ((len deque =? 1) && (len (nth 0 deque []) <=? size)) eqn:E.
  - apply andb_prop in E. destruct E as [E1 E2].
    apply Z.eqb_eq in E1. apply Z.leb_le in E2.
    destruct deque as [|c [|c' deque]]; try discriminate E1.
    + simpl in *. rewrite app_nil_r. lia.
    + unfold len in E1. simpl length in E1. lia.
  - destruct (merge_loop_spec deque [] size)
      as (taken & Hsnd & Hcat & Hlen & Hne & _).
    destruct (merge_loop deque [] size) as [rest prefix]. simpl in *.
    subst prefix.
    destruct taken as [|t taken].
    + exfalso. apply Hne; [lia | assumption | reflexivity].
    + simpl truthy. cbv iota. simpl hd.
      change (t ++ concat taken) with (concat (t :: taken)).
      rewrite Hlen. lia.
Qed.

(** For a [size] that is not positive, a deque that has chunks is left
    as it is. *)
Lemma merge_prefix_nonpositive (deque : list bytes) (size : Z) :
  size <= 0 -> deque <> [] -> _merge_prefix deque size = deque.
Proof.
  intros Hsize Hne. unfold _merge_prefix.
  destruct ((len deque =? 1) && (len (nth 0 deque []) <=? size));
    [reflexivity|].
  destruct (merge_loop_spec deque [] size) as (taken & Hsnd & _ & _ & _ & H).
  destruct (H Hsize) as [Htaken Hfst].
  destruct (merge_loop deque [] size) as [rest prefix]. simpl in *.
  subst. simpl. destruct deque; [congruence | reflexivity].
Qed.

Lemma firstn_len_app {A} (l1 l2 : list A) (n : Z) :
  len l1 = Z.min n (len (l1 ++ l2)) -> 0 <= n ->
  l1 = firstn (Z.to_nat n) (l1 ++ l2) /\ l2 = skipn (Z.to_nat n) (l1 ++ l2).
Proof.
  intros Hlen Hn. rewrite len_app in Hlen. unfold len in *.
  destruct (Z.le_gt_cases n (Z.of_nat (length l1 + length l2))) as [Hle|Hgt].
  - assert (Z.to_nat n = length l1) as -> by lia.
    rewrite firstn_app, skipn_app, firstn_all, skipn_all, Nat.sub_diag.
    simpl. rewrite app_nil_r. split; reflexivity.
  - assert (length l2 = 0%nat) as Hl2 by lia.
    destruct l2; [|discriminate Hl2].
    rewrite app_nil_r, firstn_all2, skipn_all2 by lia. split; reflexivity.
Qed.

(** The first chunk after [_merge_prefix(deque, size)] and the chunks
    behind it, in terms of the bytes of the deque. *)
Lemma merge_prefix_split (deque : list bytes) (size : Z) :
  0 < size ->
  hd [] (_merge_prefix deque size) = firstn (Z.to_nat size) (concat deque) /\
  concat (tl (_merge_prefix deque size)) = skipn (Z.to_nat size) (concat deque).
Proof.
  intros Hsize.
  pose proof (merge_prefix_concat deque size) as Hcat.
  pose proof (merge_prefix_head deque size Hsize) as Hhd.
  pose proof (merge_prefix_nonempty deque size) as Hne.
  destruct (_merge_prefix deque size) as [|c rest]; [congruence|].
  simpl in *. rewrite <- Hcat in *.
  apply firstn_len_app; [exact Hhd | lia].
Qed.

(** What a positive size leaves at the front of the deque. *)
Lemma merge_prefix_cut (D : list bytes) (k : Z) :
  0 < k ->
  exists first rest,
    _merge_prefix D k = first :: rest /\
    len first = Z.min k (len (concat D)) /\
    first = firstn (Z.to_nat k) (concat D) /\
    concat rest = skipn (Z.to_nat k) (concat D).
Proof.
  intros Hk.
  pose proof (merge_prefix_head D k Hk) as Hhd.
  pose proof (merge_prefix_split D k Hk) as [Hfirst Hrest].
  pose proof (merge_prefix_nonempty D k) as Hne.
  destruct (_merge_prefix D k) as [|first rest]; [congruence|].
  exists first, rest. simpl in *. auto.
Qed.




(** ** Searching a chunk *)

Lemma byte_eqb_eq x y : byte_eqb x y = true <-> x = y.
Proof.
  unfold byte_eqb. split.
  - apply Byte.byte_dec_bl.
  - apply Byte.byte_dec_lb.
Qed.

Lemma startswith_spec s d :
  startswith s d = true <-> exists y, s = d ++ y.
Proof.
  revert s. induction d as [|x d IH]; intros s; simpl.
  - split; [intros _; exists s; reflexivity
           | intros _; destruct s; reflexivity].
  - destruct s as [|y s]; simpl.
    + split; [discriminate | intros [z Hz]; discriminate].
    + rewrite andb_true_iff, byte_eqb_eq, IH. split.
      * intros [-> [z ->]]. exists z. reflexivity.
      * intros [z Hz]. injection Hz as -> ->. eauto.
Qed.

Lemma occurs_at_0 d s : occurs_at d s 0 <-> startswith s d = true.
Proof.
  rewrite startswith_spec. split.
  - intros (x & y & -> & Hx). destruct x; [|discriminate].
    exists y. reflexivity.
  - intros [y ->]. exists [], y. auto.
Qed.

Lemma occurs_at_S d c s i : occurs_at d (c :: s) (S i) <-> occurs_at d s i.
Proof.
  split.
  - intros (x & y & H & Hx). destruct x as [|c' x]; [discriminate|].
    injection H as -> ->. injection Hx as Hx. exists x, y. auto.
  - intros (x & y & -> & Hx). exists (c :: x), y. simpl. auto.
Qed.

Lemma find_from_nil k d :
  find_from k [] d = if startswith [] d then k else -1.
Proof. reflexivity. Qed.

Lemma find_from_cons k c s d :
  find_from k (c :: s) d =
    if startswith (c :: s) d then k else find_from (k + 1) s d.
Proof. reflexivity. Qed.

(** [find] gives the lowest offset at which the delimiter occurs. *)
Lemma find_from_spec s d k :
  find_from k s d <> -1 ->
  0 <= k ->
  exists i,
    find_from k s d = k + Z.of_nat i /\
    occurs_at d s i /\
    forall j, occurs_at d s j -> (i <= j)%nat.
Proof.
  revert k. induction s as [|c s IH]; intros k Hfound Hk.
  - rewrite find_from_nil in *. destruct (startswith [] d) eqn:E.
    + exists 0%nat. rewrite Z.add_0_r.
      split; [reflexivity|]. split; [apply occurs_at_0, E | intros; lia].
    + congruence.
  - rewrite find_from_cons in *. destruct (startswith (c :: s) d) eqn:E.
    + exists 0%nat. rewrite Z.add_0_r.
      split; [reflexivity|]. split; [apply occurs_at_0, E | intros; lia].
    + destruct (IH (k + 1)) as (i & Hi & Hocc & Hmin); [assumption|lia|].
      exists (S i). split; [lia|]. split; [apply occurs_at_S, Hocc|].
      intros [|j] Hj.
      * apply occurs_at_0 in Hj. congruence.
      * apply occurs_at_S in Hj. apply Hmin in Hj. lia.
Qed.

Lemma find_spec s d :
  find s d <> -1 ->
  exists i,
    find s d = Z.of_nat i /\
    occurs_at d s i /\
    forall j, occurs_at d s j -> (i <= j)%nat.
Proof.
  intros H. unfold find in *.
  destruct (find_from_spec s d 0) as (i & Hi & Hrest); [assumption | lia |].
  exists i. split; [lia | exact Hrest].
Qed.

(** Cutting behind the first occurrence. *)
Lemma cut_at_first d s i :
  occurs_at d s i ->
  (forall j, occurs_at d s j -> (i <= j)%nat) ->
  ends_at_first d (firstn (i + length d) s).
Proof.
  intros (x & y & -> & Hx) Hmin. subst i.
  assert (firstn (length x + length d) (x ++ d ++ y) = x ++ d) as ->.
  { rewrite app_assoc, <- length_app, firstn_app, firstn_all, Nat.sub_diag.
    simpl. apply app_nil_r. }
  exists x. split; [reflexivity|].
  intros j (x' & y' & Heq & Hx'). subst j.
  assert (length x' <= length x)%nat.
  { apply (f_equal (@length byte)) in Heq.
    rewrite !length_app in Heq. lia. }
  assert (length x <= length x')%nat; [|lia].
  apply Hmin. exists x', (y' ++ y).
  split; [|reflexivity].
  rewrite app_assoc, Heq, <- !app_assoc. reflexivity.
Qed.

(** An occurrence in a prefix is an occurrence in the whole, and an
    occurrence in the whole that ends inside the prefix is one in the
    prefix. *)
Lemma occurs_at_prefix d s t i :
  occurs_at d s i -> occurs_at d (s ++ t) i.
Proof.
  intros (x & y & -> & Hx). exists x, (y ++ t).
  rewrite <- !app_assoc. auto.
Qed.

Lemma occurs_at_within d s t i :
  occurs_at d (s ++ t) i -> (i + length d <= length s)%nat ->
  occurs_at d s i.
Proof.
  intros (x & y & Heq & Hx) Hle. subst i.
  remember (length s) as n eqn:Hn.
  exists x, (firstn (n - length x - length d) y). split; [|reflexivity].
  apply (f_equal (firstn n)) in Heq.
  rewrite firstn_app, (firstn_all2 s) in Heq by lia.
  replace (n - length s)%nat with 0%nat in Heq by lia.
  rewrite firstn_O, app_nil_r in Heq.
  rewrite Heq.
  rewrite firstn_app, (firstn_all2 x) by lia.
  rewrite firstn_app, (firstn_all2 d) by lia.
  reflexivity.
Qed.

(** ** Reasoning about methods *)

Section Preserves.
Context (I : world -> Prop).

Lemma preserves_ret {A} (a : A) : preserves I (ret a).
Proof. intros w H. exact H. Qed.

Lemma preserves_raise {A} (e : exn) : preserves I (@raise A e).
Proof. intros w H. exact H. Qed.

Lemma preserves_hang {A} : preserves I (@hang A).
Proof. intros w H. exact H. Qed.

Lemma preserves_get {A} (f : stream -> A) : preserves I (get f).
Proof. intros w H. exact H. Qed.

Lemma preserves_bind {A B} (m : M A) (f : A -> M B) :
  preserves I m -> (forall a, preserves I (f a)) -> preserves I (bind m f).
Proof.
  intros Hm Hf w H. unfold bind. specialize (Hm w H).
  destruct (m w) as [[a|e|] w']; simpl in *; auto. apply Hf. exact Hm.
Qed.

Lemma preserves_try_except {A} (m : M A) catches (h : exn -> M A) :
  preserves I m -> (forall e, preserves I (h e)) ->
  preserves I (try_except m catches h).
Proof.
  intros Hm Hh w H. unfold try_except. specialize (Hm w H).
  destruct (m w) as [[a|e|] w']; simpl in *; auto.
  destruct (catches e); simpl; auto. apply Hh. exact Hm.
Qed.

Lemma preserves_try_finally {A} (m : M A) (fin : M unit) :
  preserves I m -> preserves I fin -> preserves I (try_finally m fin).
Proof.
  intros Hm Hfin w H. unfold try_finally. specialize (Hm w H).
  destruct (m w) as [[a|e|] w']; simpl in *; auto.
  - apply preserves_bind; auto. intros; apply preserves_ret.
  - apply preserves_bind; auto. intros; apply preserves_raise.
Qed.

Lemma preserves_fold {X} (step : X -> M unit) (last : M unit) (l : list X) :
  (forall x, In x l -> preserves I (step x)) -> preserves I last ->
  preserves I (fold_right (fun x rest => step x ;; rest) last l).
Proof.
  intros Hstep Hlast. induction l as [|x l IH]; simpl; [exact Hlast|].
  apply preserves_bind; [apply Hstep; left; reflexivity|].
  intros _. apply IH. intros y Hy. apply Hstep. right. exact Hy.
Qed.
End Preserves.

(** Running a method whose outcome is known. *)
Lemma bind_ret {A B} (m : M A) (k : A -> M B) w a w' :
  m w = (Ret a, w') -> bind m k w = k a w'.
Proof. intros E. unfold bind. rewrite E. reflexivity. Qed.

Lemma bind_raise {A B} (m : M A) (k : A -> M B) w e w' :
  m w = (Raise e, w') -> bind m k w = (Raise e, w').
Proof. intros E. unfold bind. rewrite E. reflexivity. Qed.

Lemma hoare_bind {A B} (P R Q : world -> Prop) (m : M A) (f : A -> M B) :
  hoare P m R -> (forall w, R w -> Q w) -> (forall a, hoare R (f a) Q) ->
  hoare P (bind m f) Q.
Proof.
  intros Hm HRQ Hf w H. unfold bind. specialize (Hm w H).
  destruct (m w) as [[a|e|] w']; simpl in *; auto. apply Hf. exact Hm.
Qed.

Lemma hoare_try_except {A} (P R Q : world -> Prop) (m : M A) catches
    (h : exn -> M A) :
  hoare P m R -> (forall w, R w -> Q w) -> (forall e, hoare R (h e) Q) ->
  hoare P (try_except m catches h) Q.
Proof.
  intros Hm HRQ Hh w H. unfold try_except. specialize (Hm w H).
  destruct (m w) as [[a|e|] w']; simpl in *; auto.
  destruct (catches e); simpl; auto. apply Hh. exact Hm.
Qed.

Lemma hoare_weaken {A} (P P' Q Q' : world -> Prop) (m : M A) :
  hoare P' m Q' -> (forall w, P w -> P' w) -> (forall w, Q' w -> Q w) ->
  hoare P m Q.
Proof. intros Hm HP HQ w H. apply HQ, Hm, HP, H. Qed.

Lemma preserves_hoare {A} (I : world -> Prop) (m : M A) :
  preserves I m -> hoare I m I.
Proof. intros H. exact H. Qed.

(** Induction on steps, with the steps inside a callback. *)
Lemma op_induction (P : op -> Prop) :
  (forall o, (forall body raised, o <> RunNext body raised) -> P o) ->
  (forall body raised, Forall P body -> P (RunNext body raised)) ->
  forall o, P o.
Proof.
  intros Hflat Hnest.
  fix IH 1. intros o.
  destruct o as [ | | | | | | | | | body raised];
    try (apply Hflat; intros; discriminate).
  apply Hnest.
  induction body as [|o' body IHbody]; constructor; [apply IH | exact IHbody].
Qed.

(** One step of a proof that a method preserves an invariant: take the
    method apart along its control flow.  An assignment, or a call of
    the event loop, must leave the invariant as it stands; what is known
    about other methods is in the hint database. *)
Ltac preserves_step :=
  lazymatch goal with
  | |- preserves _ (bind _ _) => apply preserves_bind; [|intros ?]
  | |- preserves _ (ret _) => apply preserves_ret
  | |- preserves _ (raise _) => apply preserves_raise
  | |- preserves _ hang => apply preserves_hang
  | |- preserves _ (get _) => apply preserves_get
  | |- preserves _ (try_except _ _ _) =>
      apply preserves_try_except; [|intros ?]
  | |- preserves _ (try_finally _ _) => apply preserves_try_finally
  | |- preserves _ (if ?c then _ else _) => destruct c
  | |- preserves _ (match ?x with _ => _ end) => destruct x
  | |- preserves _ (let _ := _ in _) => cbv zeta
  | |- preserves _ (assign _) =>
      let w := fresh "w" in let H := fresh "H" in intros w H; exact H
  | |- preserves _ (io_loop_call _) =>
      let w := fresh "w" in let H := fresh "H" in intros w H; exact H
  | |- preserves _ (io_loop_add_callback _) =>
      let w := fresh "w" in let H := fresh "H" in intros w H; exact H
  | |- preserves _ (record_call _) =>
      let w := fresh "w" in let H := fresh "H" in intros w H; exact H
  | |- preserves _ read_fuel =>
      let w := fresh "w" in let H := fresh "H" in intros w H; exact H
  | |- preserves _ write_fuel =>
      let w := fresh "w" in let H := fresh "H" in intros w H; exact H
  | |- preserves _ _ => solve [auto 2 with preserves]
  end.

Create HintDb preserves.

Lemma the_socket_same w : snd (the_socket w) = w.
Proof.
  unfold the_socket, bind, get. destruct (socket (self w)); reflexivity.
Qed.

Lemma socket_recv_same n w : same_but_net w (snd (socket_recv n w)).
Proof.
  unfold socket_recv, bind. pose proof (the_socket_same w) as E.
  destruct (the_socket w) as [[sk|e|] w']; simpl in E; subst w';
    try (repeat split; reflexivity).
  destruct (recv_script (net w)) as [|[c|e] rest]; repeat split; reflexivity.
Qed.

Lemma socket_send_same data w : same_but_net w (snd (socket_send data w)).
Proof.
  unfold socket_send, bind. pose proof (the_socket_same w) as E.
  destruct (the_socket w) as [[sk|e|] w']; simpl in E; subst w';
    try (repeat split; reflexivity).
  destruct (send_script (net w)) as [|[c|e] rest]; repeat split; reflexivity.
Qed.

Lemma socket_do_handshake_same w :
  same_but_net w (snd (socket_do_handshake w)).
Proof.
  unfold socket_do_handshake, bind. pose proof (the_socket_same w) as E.
  destruct (the_socket w) as [[sk|e|] w']; simpl in E; subst w';
    try (repeat split; reflexivity).
  destruct (handshake_script (net w)) as [|[|e] rest];
    repeat split; reflexivity.
Qed.

Lemma socket_connect_same w : same_but_net w (snd (socket_connect w)).
Proof.
  unfold socket_connect, bind. pose proof (the_socket_same w) as E.
  destruct (the_socket w) as [[sk|e|] w']; simpl in E; subst w';
    try (repeat split; reflexivity).
  destruct (connect_script (net w)) as [|[|e] rest];
    repeat split; reflexivity.
Qed.

Lemma socket_getsockopt_same w :
  same_but_net w (snd (socket_getsockopt_SO_ERROR w)).
Proof.
  unfold socket_getsockopt_SO_ERROR, bind. pose proof (the_socket_same w) as E.
  destruct (the_socket w) as [[sk|e|] w']; simpl in E; subst w';
    try (repeat split; reflexivity).
  destruct (so_error_script (net w)) as [|err rest];
    repeat split; reflexivity.
Qed.

Section NetBlind.
Context (I : world -> Prop) (HI : net_blind I).

Lemma preserves_the_socket : preserves I the_socket.
Proof. intros w H. rewrite the_socket_same. exact H. Qed.

Lemma preserves_socket_recv n : preserves I (socket_recv n).
Proof. intros w H. eapply HI; [apply socket_recv_same | exact H]. Qed.

Lemma preserves_socket_send data : preserves I (socket_send data).
Proof. intros w H. eapply HI; [apply socket_send_same | exact H]. Qed.

Lemma preserves_socket_do_handshake : preserves I socket_do_handshake.
Proof. intros w H. eapply HI; [apply socket_do_handshake_same | exact H]. Qed.

Lemma preserves_socket_connect : preserves I socket_connect.
Proof. intros w H. eapply HI; [apply socket_connect_same | exact H]. Qed.

Lemma preserves_socket_getsockopt : preserves I socket_getsockopt_SO_ERROR.
Proof. intros w H. eapply HI; [apply socket_getsockopt_same | exact H]. Qed.

Lemma preserves_read_fuel : preserves I read_fuel.
Proof. intros w H. exact H. Qed.

Lemma preserves_write_fuel : preserves I write_fuel.
Proof. intros w H. exact H. Qed.
End NetBlind.

(** From the methods to the runs: an invariant that every public
    method and every part of the [wrapper] closure preserves is
    preserved by every step, and so by every run. *)
Section Runs.
Context (I : world -> Prop).
Hypothesis flat : forall o,
  (forall body raised, o <> RunNext body raised) -> preserves I (perform o).
Hypothesis closing : forall exc, preserves I (close exc).
Hypothesis listening : preserves I _maybe_add_error_listener.
Hypothesis pending : forall p, preserves I (assign (with_pending_callbacks p)).
Hypothesis next : preserves I io_loop_next.

Lemma preserves_caught (m : M unit) : preserves I m -> preserves I (caught m).
Proof.
  intros H. unfold caught. apply preserves_try_except; [exact H|].
  intros e. apply preserves_ret.
Qed.

Lemma preserves_perform o : preserves I (perform o).
Proof.
  induction o as [o Hflat | body raised IH] using op_induction.
  - apply flat. exact Hflat.
  - simpl. apply preserves_bind; [exact next|].
    intros [[r cb args|]|]; [|apply closing|apply preserves_ret].
    unfold run_wrapper.
    apply preserves_bind; [apply preserves_get|]. intros p.
    apply preserves_bind; [apply pending|]. intros _.
    apply preserves_bind; [|intros _; exact listening].
    apply preserves_try_except.
    + destruct (is_some cb); [|apply preserves_raise].
      apply (preserves_fold I (fun o' => caught (perform o'))).
      * intros o' Hin. apply preserves_caught.
        rewrite Forall_forall in IH. apply IH. exact Hin.
      * destruct raised; [apply preserves_raise | apply preserves_ret].
    + intros e. apply preserves_bind; [apply closing|].
      intros _. apply preserves_raise.
Qed.

Lemma preserves_run ops : preserves I (run ops).
Proof.
  unfold run. apply (preserves_fold I (fun o => caught (perform o))).
  - intros o _. apply preserves_caught, preserves_perform.
  - apply preserves_ret.
Qed.
End Runs.

(** When nothing else applies, look inside the method. *)
Ltac head_of t :=
  lazymatch t with
  | ?f _ => head_of f
  | _ => t
  end.

Ltac preserves_open :=
  lazymatch goal with
  | |- preserves _ ?m => let h := head_of m in progress unfold h
  end.

Ltac preserves_methods := repeat first [preserves_step | preserves_open].

(** ** C8: the close callback *)

Lemma close_inv_net_blind before n : net_blind (close_inv before n).
Proof.
  intros w w' (Hs & _ & Hc) (new & H1 & H2 & H3).
  exists new. unfold installed in *. rewrite Hs, Hc. auto.
Qed.

Lemma close_calls_app l1 l2 :
  close_calls (l1 ++ l2) = close_calls l1 + close_calls l2.
Proof. unfold close_calls. rewrite filter_app. apply len_app. Qed.

(** Scheduling any other callback. *)
Lemma close_inv_run_callback before n r cb args :
  r <> CloseCb -> preserves (close_inv before n) (_run_callback r cb args).
Proof.
  intros Hr w (new & H1 & H2 & H3).
  unfold _run_callback, record_call, bind, get; simpl.
  eexists. split; [rewrite H1, <- app_assoc; reflexivity|].
  split.
  - rewrite close_calls_app. unfold close_calls at 2. simpl.
    destruct r; try congruence; simpl; unfold installed, len in *;
      simpl; lia.
  - apply Forall_app. split; [exact H3|]. constructor; [|constructor].
    intros Hc. simpl in Hc. congruence.
Qed.

(** The one place that schedules the close callback: behind the guard,
    and with the callback taken out of its slot. *)
Lemma close_inv_maybe_run_close_callback before n :
  preserves (close_inv before n) _maybe_run_close_callback.
Proof.
  intros w (new & H1 & H2 & H3).
  unfold _maybe_run_close_callback, _run_callback, record_call, bind, get,
    installed in *.
  simpl.
  destruct (socket (self w)) as [sk|] eqn:Es; simpl.
  { exists new. auto. }
  destruct (_close_callback (self w)) as [cb|] eqn:Ec; simpl.
  2:{ exists new. unfold installed. rewrite Ec. auto. }
  destruct (Z.eqb_spec (_pending_callbacks (self w)) 0) as [Ep|Ep]; simpl.
  2:{ exists new. unfold installed. rewrite Ec. auto. }
  eexists. split; [rewrite H1, <- app_assoc; reflexivity|]. split.
  - rewrite close_calls_app. unfold close_calls at 2. simpl.
    unfold installed, len in *. simpl in *. lia.
  - apply Forall_app. split; [exact H3|]. constructor; [|constructor].
    intros _. simpl. rewrite Es. split; [reflexivity | exact Ep].
Qed.

#[global] Hint Resolve close_inv_maybe_run_close_callback : preserves.
#[global] Hint Extern 1 (preserves (close_inv _ _) (_run_callback _ _ _)) =>
  apply close_inv_run_callback; discriminate : preserves.
#[global] Hint Extern 1 (preserves _ the_socket) =>
  apply preserves_the_socket : preserves.
#[global] Hint Extern 1 (preserves (close_inv _ _) (socket_recv _)) =>
  apply preserves_socket_recv, close_inv_net_blind : preserves.
#[global] Hint Extern 1 (preserves (close_inv _ _) (socket_send _)) =>
  apply preserves_socket_send, close_inv_net_blind : preserves.
#[global] Hint Extern 1 (preserves (close_inv _ _) socket_do_handshake) =>
  apply preserves_socket_do_handshake, close_inv_net_blind : preserves.
#[global] Hint Extern 1 (preserves (close_inv _ _) socket_connect) =>
  apply preserves_socket_connect, close_inv_net_blind : preserves.
#[global] Hint Extern 1
  (preserves (close_inv _ _) socket_getsockopt_SO_ERROR) =>
  apply preserves_socket_getsockopt, close_inv_net_blind : preserves.

Lemma close_inv_delimiter_loop before n fuel :
  preserves (close_inv before n) (delimiter_loop fuel).
Proof. induction fuel; simpl; preserves_methods. Qed.

Lemma close_inv_regex_loop before n fuel :
  preserves (close_inv before n) (regex_loop fuel).
Proof. induction fuel; simpl; preserves_methods. Qed.

Lemma close_inv_inline_read_loop before n fuel :
  preserves (close_inv before n) (inline_read_loop fuel).
Proof. induction fuel; simpl; preserves_methods. Qed.

Lemma close_inv_handle_read_loop before n fuel :
  preserves (close_inv before n) (handle_read_loop fuel).
Proof. induction fuel; simpl; preserves_methods. Qed.

Lemma close_inv_handle_write_loop before n fuel :
  preserves (close_inv before n) (handle_write_loop fuel).
Proof. induction fuel; simpl; preserves_methods. Qed.

#[global] Hint Resolve close_inv_delimiter_loop close_inv_regex_loop
  close_inv_inline_read_loop close_inv_handle_read_loop
  close_inv_handle_write_loop : preserves.

(** Every step but [set_close_callback] and the callbacks. *)
Lemma close_inv_flat before n o :
  (forall body raised, o <> RunNext body raised) ->
  (forall cb, o <> SetCloseCallback cb) ->
  preserves (close_inv before n) (perform o).
Proof.
  intros Hnest Hset.
  destruct o; simpl; try (exfalso; eapply Hnest; reflexivity);
    try (exfalso; eapply Hset; reflexivity); preserves_methods.
Qed.

Lemma close_inv_close before n exc : preserves (close_inv before n) (close exc).
Proof. preserves_methods. Qed.

Lemma close_inv_maybe_add_error_listener before n :
  preserves (close_inv before n) _maybe_add_error_listener.
Proof. preserves_methods. Qed.

Lemma close_inv_mono before n n' w :
  n <= n' -> close_inv before n w -> close_inv before n' w.
Proof.
  intros Hn (new & H1 & H2 & H3). exists new. repeat split; auto. lia.
Qed.

Lemma close_inv_set_close_callback before n cb w :
  close_inv before n w ->
  close_inv before (n + installs (SetCloseCallback cb))
    (snd (set_close_callback cb w)).
Proof.
  intros (new & H1 & H2 & H3). exists new.
  unfold installed in *. simpl.
  repeat split; auto.
  destruct cb, (is_some (_close_callback (self w))); simpl; lia.
Qed.

Lemma installs_nonneg o : 0 <= installs o.
Proof.
  induction o as [o Hflat | body raised IH] using op_induction.
  - destruct o as [ | | | | | | [cb|] | | | body raised]; simpl; try lia.
    exfalso. eapply Hflat. reflexivity.
  - simpl. induction IH as [|o body Ho _ IHbody]; simpl; lia.
Qed.

Lemma installs_all_nonneg ops : 0 <= installs_all ops.
Proof.
  induction ops as [|o ops IH]; simpl; [lia|].
  pose proof (installs_nonneg o). lia.
Qed.

(** A list of steps, each in its own [try], followed by [last]. *)
Lemma close_inv_steps before (ops : list op) (last : M unit) :
  Forall (fun o => forall n, hoare (close_inv before n) (perform o)
                               (close_inv before (n + installs o))) ops ->
  (forall n, preserves (close_inv before n) last) ->
  forall n,
    hoare (close_inv before n)
      (fold_right (fun o rest => caught (perform o) ;; rest) last ops)
      (close_inv before (n + installs_all ops)).
Proof.
  intros Hops Hlast.
  induction Hops as [|o ops Ho _ IH]; intros n; simpl.
  - rewrite Z.add_0_r. apply Hlast.
  - pose proof (installs_nonneg o). pose proof (installs_all_nonneg ops).
    apply hoare_bind with (R := close_inv before (n + installs o)).
    + unfold caught. apply hoare_try_except with
        (R := close_inv before (n + installs o)); auto.
      intros e w H1. exact H1.
    + intros w. apply close_inv_mono. unfold installs_all in *. lia.
    + intros _. rewrite Z.add_assoc. apply IH.
Qed.

(** Every step keeps the invariant, with room for the close callbacks
    that the step installs. *)
Lemma close_inv_perform before o :
  forall n, hoare (close_inv before n) (perform o)
              (close_inv before (n + installs o)).
Proof.
  induction o as [o Hflat | body raised IH] using op_induction; intros n.
  - destruct o as [ | | | | | | cb | | | body raised];
      try (simpl installs; rewrite Z.add_0_r; apply close_inv_flat;
           [exact Hflat | intros; discriminate]).
    + intros w. apply close_inv_set_close_callback.
    + exfalso. eapply Hflat. reflexivity.
  - pose proof (installs_all_nonneg body) as Hnn.
    change (installs (RunNext body raised)) with (installs_all body).
    assert (forall w, close_inv before n w ->
                      close_inv before (n + installs_all body) w) as Hmono
      by (intros w; apply close_inv_mono; lia).
    simpl perform.
    apply hoare_bind with (R := close_inv before n); auto.
    { intros w H. unfold io_loop_next.
      destruct (callbacks (io_loop w)); exact H. }
    intros [[r cb args| ]|].
    + unfold run_wrapper.
      apply hoare_bind with (R := close_inv before n); auto.
      { intros w H. exact H. }
      intros p.
      apply hoare_bind with (R := close_inv before n); auto.
      { intros w H. exact H. }
      intros _.
      apply hoare_bind with (R := close_inv before (n + installs_all body));
        auto.
      * apply hoare_try_except with
          (R := close_inv before (n + installs_all body)); auto.
        -- destruct (is_some cb).
           ++ apply close_inv_steps; [exact IH|].
              intros n' w H. destruct raised; exact H.
           ++ intros w H. apply Hmono. exact H.
        -- intros e. apply preserves_hoare.
           apply preserves_bind; [apply close_inv_close|].
           intros _. apply preserves_raise.
      * intros _. apply preserves_hoare.
        apply close_inv_maybe_add_error_listener.
    + intros w H. apply Hmono. apply close_inv_close. exact H.
    + intros w H. apply Hmono. exact H.
Qed.


(** ** Methods that always return *)

Lemma bind_returns {A B} (m : M A) (k : A -> M B) w a :
  fst (m w) = Ret a -> bind m k w = k a (snd (m w)).
Proof.
  intros E. unfold bind. destruct (m w) as [r w']. simpl in *. subst r.
  reflexivity.
Qed.

Lemma returns_ret {A} (a : A) : returns (ret a).
Proof. intros w. exists a. reflexivity. Qed.

Lemma returns_get {A} (f : stream -> A) : returns (get f).
Proof. intros w. eexists. reflexivity. Qed.

Lemma returns_assign f : returns (assign f).
Proof. intros w. eexists. reflexivity. Qed.

Lemma returns_io_loop_call c : returns (io_loop_call c).
Proof. intros w. eexists. reflexivity. Qed.

Lemma returns_io_loop_add_callback c : returns (io_loop_add_callback c).
Proof. intros w. eexists. reflexivity. Qed.

Lemma returns_record_call c : returns (record_call c).
Proof. intros w. eexists. reflexivity. Qed.

Lemma returns_bind {A B} (m : M A) (k : A -> M B) :
  returns m -> (forall a, returns (k a)) -> returns (bind m k).
Proof.
  intros Hm Hk w. destruct (Hm w) as [a Ha].
  rewrite (bind_returns _ _ _ _ Ha). apply Hk.
Qed.

Lemma returns_unit (m : M unit) w : returns m -> fst (m w) = Ret tt.
Proof. intros H. destruct (H w) as [[] E]. exact E. Qed.

Create HintDb returns.

Ltac returns_step :=
  lazymatch goal with
  | |- returns (bind _ _) => apply returns_bind; [|intros ?]
  | |- returns (ret _) => apply returns_ret
  | |- returns (get _) => apply returns_get
  | |- returns (assign _) => apply returns_assign
  | |- returns (record_call _) => apply returns_record_call
  | |- returns (io_loop_call _) => apply returns_io_loop_call
  | |- returns (io_loop_add_callback _) => apply returns_io_loop_add_callback
  | |- returns (if ?c then _ else _) => destruct c
  | |- returns (match ?x with _ => _ end) => destruct x
  | |- returns _ => solve [auto 2 with returns]
  end.

Ltac returns_open :=
  lazymatch goal with
  | |- returns ?m => let h := head_of m in progress unfold h
  end.

Ltac returns_methods := repeat first [returns_step | returns_open].

Lemma returns_consume loc : returns (_consume loc).
Proof.
  intros w. unfold _consume. destruct (loc =? 0); [eexists; reflexivity|].
  unfold bind, get, assign, popleft. simpl.
  pose proof (merge_prefix_nonempty (_read_buffer (self w)) loc) as Hne.
  destruct (_merge_prefix (_read_buffer (self w)) loc); [congruence|].
  eexists. reflexivity.
Qed.

#[global] Hint Resolve returns_consume : returns.

Lemma returns_run_callback r cb args : returns (_run_callback r cb args).
Proof. intros w. exists tt. reflexivity. Qed.

#[global] Hint Resolve returns_run_callback : returns.

Lemma returns_maybe_run_close_callback : returns _maybe_run_close_callback.
Proof. returns_methods. Qed.

Lemma returns_close exc : returns (close exc).
Proof. returns_methods. Qed.

Lemma returns_add_io_state state : returns (_add_io_state state).
Proof. returns_methods. Qed.

Lemma returns_maybe_add_error_listener : returns _maybe_add_error_listener.
Proof. returns_methods. Qed.

#[global] Hint Resolve returns_maybe_run_close_callback returns_close
  returns_add_io_state returns_maybe_add_error_listener : returns.

(** ** Running a method step by step *)

Lemma wp_bind {A B} (m : M A) (k : A -> M B)
    (Q : result B -> world -> Prop) w :
  wp m (fun r w' =>
          match r with
          | Ret a => wp (k a) Q w'
          | Raise e => Q (Raise e) w'
          | Hang => Q Hang w'
          end) w ->
  wp (bind m k) Q w.
Proof.
  unfold wp, bind. destruct (m w) as [[a|e|] w']; simpl; auto.
Qed.

Lemma wp_ret {A} (a : A) (Q : result A -> world -> Prop) w :
  Q (Ret a) w -> wp (ret a) Q w.
Proof. auto. Qed.

Lemma wp_raise {A} e (Q : result A -> world -> Prop) w :
  Q (Raise e) w -> wp (raise e) Q w.
Proof. auto. Qed.

Lemma wp_get {A} (f : stream -> A) (Q : result A -> world -> Prop) w :
  Q (Ret (f (self w))) w -> wp (get f) Q w.
Proof. auto. Qed.

Lemma wp_assign f (Q : result unit -> world -> Prop) w :
  Q (Ret tt) (snd (assign f w)) -> wp (assign f) Q w.
Proof. auto. Qed.

Lemma wp_try_except {A} (m : M A) (catches : exn -> bool) (h : exn -> M A)
    (Q : result A -> world -> Prop) w :
  wp m (fun r w' =>
          match r with
          | Raise e => if catches e then wp (h e) Q w' else Q (Raise e) w'
          | _ => Q r w'
          end) w ->
  wp (try_except m catches h) Q w.
Proof.
  unfold wp, try_except. destruct (m w) as [[a|e|] w']; simpl; auto.
  destruct (catches e); auto.
Qed.

Lemma wp_try_finally {A} (m : M A) (fin : M unit)
    (Q : result A -> world -> Prop) w :
  wp m (fun r w' =>
          match r with
          | Ret a => wp (fin ;; ret a) Q w'
          | Raise e => wp (fin ;; raise e) Q w'
          | Hang => Q Hang w'
          end) w ->
  wp (try_finally m fin) Q w.
Proof.
  unfold wp, try_finally. destruct (m w) as [[a|e|] w']; simpl; auto.
Qed.

Lemma wp_conseq {A} (m : M A) (Q Q' : result A -> world -> Prop) w :
  wp m Q w -> (forall r w', Q r w' -> Q' r w') -> wp m Q' w.
Proof. unfold wp. auto. Qed.

(** A method that returns, and keeps an invariant that holds now. *)
Lemma wp_returns_preserves (m : M unit) (I : world -> Prop)
    (Q : result unit -> world -> Prop) w :
  returns m -> preserves I m -> I w ->
  (forall w', I w' -> Q (Ret tt) w') ->
  wp m Q w.
Proof.
  intros Hr Hp HI HQ. unfold wp. rewrite (returns_unit m w Hr).
  apply HQ, Hp, HI.
Qed.

Ltac wp_step :=
  lazymatch goal with
  | |- wp (bind _ _) _ _ => apply wp_bind
  | |- wp (ret _) _ _ => apply wp_ret
  | |- wp (raise _) _ _ => apply wp_raise
  | |- wp (get _) _ _ => apply wp_get
  | |- wp (assign _) _ _ => apply wp_assign
  | |- wp (try_except _ _ _) _ _ => apply wp_try_except
  | |- wp (try_finally _ _) _ _ => apply wp_try_finally
  end.

Ltac wp_go := repeat (wp_step; cbv beta iota).

(** Step over a method that returns and keeps [I]. *)
Tactic Notation "wp_over" constr(I) :=
  apply (wp_returns_preserves _ I);
  [ solve [returns_methods]
  | solve [preserves_methods]
  | | let w' := fresh "w" in let H := fresh "H" in intros w' H ].

Lemma closed_after_close exc w : socket (self (snd (close exc w))) = None.
Proof.
  change (wp (close exc) (fun _ w' => socket (self w') = None) w).
  unfold close. wp_go.
  destruct (socket (self w)) as [sk|] eqn:Es.
  - wp_go. wp_over (fun _ : world => True); [exact I|].
    wp_go. wp_over (fun _ : world => True); [exact I|].
    wp_go. wp_over (fun _ : world => True); [exact I|].
    wp_go.
    wp_over (fun w' : world => socket (self w') = None);
      [reflexivity | assumption].
  - wp_go.
    wp_over (fun w' : world => socket (self w') = None);
      [assumption | assumption].
Qed.

(** ** Running a method on a world about which some facts are known *)

Lemma wp_run {A} (m : M A) (Q : result A -> world -> Prop) w r w' :
  m w = (r, w') -> Q r w' -> wp m Q w.
Proof. intros E H. unfold wp. rewrite E. exact H. Qed.

(** Use the equations among the hypotheses, from left to right. *)
Ltac use_facts :=
  repeat match goal with
         | H : ?l = ?r |- context [?l] =>
             lazymatch r with
             | context [l] => fail
             | _ => rewrite H
             end
         end.

(** Decide the test of a conditional from the facts, or else split. *)
Ltac simpl_test :=
  lazymatch goal with
  | |- wp (if ?c then _ else _) _ _ =>
      let c' := eval simpl in c in change c with c'
  | |- wp (match ?c with _ => _ end) _ _ =>
      let c' := eval simpl in c in change c with c'
  | |- match ?c with _ => _ end =>
      let c' := eval simpl in c in change c with c'
  | |- _ => idtac
  end.

Ltac wp_decide :=
  simpl_test; use_facts; simpl_test; cbv beta iota;
  lazymatch goal with
  | |- wp (if ?d then _ else _) _ _ =>
      let E := fresh "E" in destruct d eqn:E; try discriminate
  | |- wp (match ?d with _ => _ end) _ _ =>
      let E := fresh "E" in destruct d eqn:E; try discriminate
  | |- match ?d with _ => _ end =>
      let E := fresh "E" in destruct d eqn:E; try discriminate
  | |- _ => idtac
  end.

Ltac wp_head :=
  lazymatch goal with
  | |- wp (bind _ _) _ _ => apply wp_bind
  | |- wp (ret _) _ _ => apply wp_ret
  | |- wp (raise _) _ _ => apply wp_raise
  | |- wp (get _) _ _ => apply wp_get
  | |- wp (assign _) _ _ => apply wp_assign
  | |- wp (io_loop_call _) _ _ => eapply wp_run; [reflexivity|]
  | |- wp (io_loop_add_callback _) _ _ => eapply wp_run; [reflexivity|]
  | |- wp (record_call _) _ _ => eapply wp_run; [reflexivity|]
  | |- wp read_fuel _ _ => eapply wp_run; [reflexivity|]
  | |- wp write_fuel _ _ => eapply wp_run; [reflexivity|]
  | |- wp (try_except _ _ _) _ _ => apply wp_try_except
  | |- wp (try_finally _ _) _ _ => apply wp_try_finally
  | |- wp (if _ then _ else _) _ _ => wp_decide
  | |- wp (match _ with _ => _ end) _ _ => wp_decide
  | |- match _ with _ => _ end => wp_decide
  end; cbv beta iota.

Ltac wp_exec := repeat wp_head.

(** ** Taking bytes out of the read buffer *)

Arguments _merge_prefix : simpl never.
Arguments len : simpl never.
Arguments find : simpl never.

Lemma firstn_whole {A} (l : list A) (n : Z) :
  len l <= n -> firstn (Z.to_nat n) l = l /\ skipn (Z.to_nat n) l = [].
Proof.
  unfold len. intros H. split; [apply firstn_all2 | apply skipn_all2]; lia.
Qed.

(** [_consume(loc)] for a positive [loc]: the first [loc] bytes of the
    buffer come back and the rest stays. *)
Lemma consume_positive (loc : Z) (w : world) :
  0 < loc ->
  exists data rest,
    _merge_prefix (_read_buffer (self w)) loc = data :: rest /\
    data = firstn (Z.to_nat loc) (buffered w) /\
    concat rest = skipn (Z.to_nat loc) (buffered w) /\
    _consume loc w =
      (Ret data,
       snd (assign (fun s => with_read_buffer rest
                      (with_read_buffer_size (_read_buffer_size s - loc)
                         (with_read_buffer (data :: rest) s))) w)).
Proof.
  intros Hloc.
  destruct (merge_prefix_cut (_read_buffer (self w)) loc Hloc)
    as (data & rest & Hmp & _ & Hdata & Hrest).
  exists data, rest. repeat split; try assumption.
  unfold _consume. destruct (Z.eqb_spec loc 0); [lia|].
  unfold bind, get, assign, popleft. simpl. rewrite Hmp. reflexivity.
Qed.

(** [_consume(self._read_buffer_size)] hands out the whole buffer. *)
Lemma consume_all (w : world) :
  size_counted w ->
  exists rest,
    concat rest = [] /\
    _consume (_read_buffer_size (self w)) w =
      (Ret (buffered w),
       snd (assign (fun s => with_read_buffer rest
                               (with_read_buffer_size 0 s)) w)).
Proof.
  intros Hsize. unfold size_counted in Hsize.
  destruct (Z.eqb_spec (_read_buffer_size (self w)) 0) as [E|E].
  - exists (_read_buffer (self w)).
    assert (buffered w = []) as Hb by (apply len_nil_inv; lia).
    split; [exact Hb|].
    unfold _consume. rewrite E, Hb. simpl.
    destruct w as [s l nw calls]. destruct s. simpl in *. subst.
    reflexivity.
  - pose proof (len_nonneg (buffered w)).
    destruct (consume_positive (_read_buffer_size (self w)) w ltac:(lia))
      as (data & rest & Hmp & Hdata & Hrest & Heq).
    destruct (firstn_whole (buffered w) (_read_buffer_size (self w))
                ltac:(lia)) as [Hf Hs].
    rewrite Hf in Hdata. rewrite Hs in Hrest. subst data.
    exists rest. split; [exact Hrest|]. rewrite Heq.
    destruct w as [s l nw calls]. destruct s. simpl in *.
    rewrite Z.sub_diag. reflexivity.
Qed.

(** ** C4: [read_until_close] on a closed stream *)

(** C4, as the code has it: when [read_until_close(cb, stream_cb)] is
    called on a stream that is already closed and is not reading, the
    whole read buffer is handed out, as one concatenated payload,
    exactly once: to the streaming callback if there is one, and then
    the completion callback gets an empty payload; to the completion
    callback if there is none.  The until-close mode is not stored and
    nothing is registered with the event loop. *)
Theorem read_until_close_on_closed_stream
    (w : world) (callback : callable) (streaming_callback : option callable) :
  socket (self w) = None ->
  _read_callback (self w) = None ->
  size_counted w ->
  let r := read_until_close callback streaming_callback w in
  let p := _pending_callbacks (self w) in
  fst r = Ret tt /\
  run_callback_calls (snd r) =
    run_callback_calls w ++
    match streaming_callback with
    | Some scb =>
        [call StreamingCb (Some scb) [buffered w] false p;
         call ReadCb (Some callback) [b ""] false (p + 1)]
    | None => [call ReadCb (Some callback) [buffered w] false p]
    end /\
  buffered (snd r) = [] /\
  _read_callback (self (snd r)) = None /\
  _streaming_callback (self (snd r)) = None /\
  _read_until_close (self (snd r)) = _read_until_close (self w) /\
  _state (self (snd r)) = _state (self w) /\
  handler_calls (io_loop (snd r)) = handler_calls (io_loop w).
Proof.
  intros Hclosed Hidle Hsize r p.
  assert (exists rest,
    concat rest = [] /\
    r = (Ret tt,
         {| self :=
              with_read_callback None
                (with_streaming_callback None
                   (with_pending_callbacks
                      (p + (if is_some streaming_callback then 2 else 1))
                      (with_read_buffer rest
                         (with_read_buffer_size 0 (self w)))));
            io_loop :=
              {| handler_calls := handler_calls (io_loop w);
                 callbacks :=
                   callbacks (io_loop w) ++
                   match streaming_callback with
                   | Some scb =>
                       [wrapper StreamingCb (Some scb) [buffered w];
                        wrapper ReadCb (Some callback) [b ""]]
                   | None => [wrapper ReadCb (Some callback) [buffered w]]
                   end |};
            net := net w;
            run_callback_calls :=
              run_callback_calls w ++
              match streaming_callback with
              | Some scb =>
                  [call StreamingCb (Some scb) [buffered w] false p;
                   call ReadCb (Some callback) [b ""] false (p + 1)]
              | None => [call ReadCb (Some callback) [buffered w] false p]
              end |})) as (rest & Hrest & Hr).
  { subst r p.
    unfold read_until_close, _set_read_callback.
    unfold bind at 1. unfold bind at 1. unfold get at 1. simpl.
    rewrite Hidle. simpl.
    unfold bind at 1. simpl. unfold bind at 1. unfold get at 1. simpl.
    rewrite Hclosed. simpl.
    set (w1 := snd (assign (with_streaming_callback streaming_callback)
                      (snd (assign (with_read_callback (Some callback)) w)))).
    assert (size_counted w1) as Hsize1 by exact Hsize.
    destruct (consume_all w1 Hsize1) as (rest & Hrest & Heq).
    exists rest. split; [exact Hrest|].
    change {| self := with_streaming_callback streaming_callback
                        (with_read_callback (Some callback) (self w));
              io_loop := io_loop w; net := net w;
              run_callback_calls := run_callback_calls w |} with w1.
    destruct streaming_callback as [scb|].
    - unfold bind at 1. unfold get at 1. simpl.
      unfold bind at 1. unfold bind at 1. unfold get at 1. simpl.
      rewrite (bind_ret _ _ _ _ _ Heq).
      unfold _run_callback, record_call, bind, get, assign,
        io_loop_add_callback, _consume. simpl.
      rewrite Hclosed. unfold call. rewrite <- !app_assoc. simpl.
      unfold buffered. simpl.
      destruct w as [s l nw calls]. destruct s. simpl in *.
      rewrite <- Z.add_assoc. reflexivity.
    - unfold bind at 1. unfold get at 1. simpl.
      unfold bind at 1. unfold bind at 1. unfold get at 1. simpl.
      unfold bind at 1. unfold get at 1. simpl.
      rewrite (bind_ret _ _ _ _ _ Heq).
      unfold _run_callback, record_call, bind, get, assign,
        io_loop_add_callback. simpl.
      rewrite Hclosed. unfold call, buffered. simpl.
      destruct w as [s l nw calls]. destruct s. simpl in *.
      reflexivity. }
  rewrite Hr. simpl. unfold buffered. simpl.
  repeat split; try reflexivity; try assumption.
Qed.

Lemma read_until_close_on_closed_stream_witness :
  run_callback_calls (snd (read_until_close 1%nat None closed_with_ail)) =
    run_callback_calls closed_with_ail ++
    [call ReadCb (Some 1%nat) [b "ail"] false 1].
Proof.
  exact (proj1 (proj2 (read_until_close_on_closed_stream closed_with_ail
                         1%nat None eq_refl eq_refl eq_refl))).
Defined.

(** C4, as the claim states it, fails when there is a streaming
    callback: the streaming callback takes the buffer, and the
    completion callback does not get the buffered bytes but an empty
    payload. *)
Lemma read_until_close_completion_payload_empty :
  socket (self closed_with_ail) = None /\
  buffered closed_with_ail = b "ail" /\
  run_callback_calls
    (snd (read_until_close 1%nat (Some 2%nat) closed_with_ail)) =
    run_callback_calls closed_with_ail ++
    [call StreamingCb (Some 2%nat) [b "ail"] false 1;
     call ReadCb (Some 1%nat) [b ""] false 2] /\
  b "" <> buffered closed_with_ail.
Proof. vm_compute. repeat split. discriminate. Qed.
(** ** C6: the limit on the read buffer *)

Arguments close : simpl never.

Lemma close_run exc w : close exc w = (Ret tt, snd (close exc w)).
Proof.
  rewrite (surjective_pairing (close exc w)) at 1.
  rewrite (returns_unit _ w (returns_close exc)). reflexivity.
Qed.

(** A read that gets a chunk from the socket. *)
Lemma read_from_socket_chunk w sk chunk rest :
  socket (self w) = Some sk ->
  (is_ssl (self w) = true -> _ssl_accepting (self w) = false) ->
  recv_script (net w) = RecvData chunk :: rest ->
  chunk <> [] ->
  _read_from_socket w =
    (Ret (Some chunk),
     with_net {| recv_script := rest;
                 send_script := send_script (net w);
                 handshake_script := handshake_script (net w);
                 connect_script := connect_script (net w);
                 so_error_script := so_error_script (net w);
                 sent := sent (net w) |} w).
Proof.
  intros Hs Hssl Hscript Hchunk.
  unfold _read_from_socket, IOStream_read_from_socket,
    SSLIOStream_read_from_socket, socket_recv, the_socket, try_except,
    bind, get.
  simpl. destruct (is_ssl (self w)).
  - rewrite Hssl by reflexivity. rewrite Hs. simpl. rewrite Hscript. simpl.
    destruct chunk; [congruence | reflexivity].
  - rewrite Hs. simpl. rewrite Hscript. simpl.
    destruct chunk; [congruence | reflexivity].
Qed.

(** Every way [_read_to_buffer] can end: it raises the overflow error
    only after a chunk has come from the socket and has taken the size
    counter to the limit or beyond. *)
Lemma read_to_buffer_overflow_only w :
  fst (_read_to_buffer w) = Raise buffer_overflow ->
  exists chunk rest,
    recv_script (net w) = RecvData chunk :: rest /\
    max_buffer_size (self w) <= _read_buffer_size (self w) + len chunk.
Proof.
  unfold _read_to_buffer, _read_from_socket, IOStream_read_from_socket,
    SSLIOStream_read_from_socket, socket_recv, the_socket, try_except,
    bind, get, assign.
  simpl.
  destruct (is_ssl (self w)); simpl;
    [destruct (_ssl_accepting (self w)); simpl; [discriminate|]|];
    (destruct (socket (self w)) as [sk|]; simpl; [|discriminate]);
    (destruct (recv_script (net w)) as [|[chunk|e] rest]; simpl;
     [discriminate| |]).
  all: try (destruct chunk as [|c0 chunk]; simpl;
            [rewrite close_run; simpl; discriminate|];
            destruct (Z.leb_spec (max_buffer_size (self w))
                        (_read_buffer_size (self w) + len (c0 :: chunk)));
            simpl; [|discriminate];
            intros _; eexists; eexists; split; [reflexivity | assumption]).
  all: destruct e as [[| | | | |code]|[| | | | |code]]; simpl;
    try discriminate; rewrite close_run; simpl; discriminate.
Qed.

(** C6: when a read from the socket appends a chunk that takes the size
    counter of the read buffer to [max_buffer_size] or beyond,
    [_read_to_buffer] closes the stream and raises the overflow error;
    when the counter stays below [max_buffer_size] it returns the
    length of the chunk and leaves the stream open; and it raises the
    overflow error in no other case. *)
Theorem read_to_buffer_limit :
  (forall w sk chunk rest,
     socket (self w) = Some sk ->
     (is_ssl (self w) = true -> _ssl_accepting (self w) = false) ->
     recv_script (net w) = RecvData chunk :: rest ->
     chunk <> [] ->
     let r := _read_to_buffer w in
     let size := _read_buffer_size (self w) + len chunk in
     (max_buffer_size (self w) <= size ->
        fst r = Raise buffer_overflow /\ socket (self (snd r)) = None) /\
     (size < max_buffer_size (self w) ->
        fst r = Ret (len chunk) /\
        socket (self (snd r)) = Some sk /\
        _read_buffer (self (snd r)) = _read_buffer (self w) ++ [chunk] /\
        _read_buffer_size (self (snd r)) = size)) /\
  (forall w,
     fst (_read_to_buffer w) = Raise buffer_overflow ->
     exists chunk rest,
       recv_script (net w) = RecvData chunk :: rest /\
       max_buffer_size (self w) <= _read_buffer_size (self w) + len chunk).
Proof.
  split; [|exact read_to_buffer_overflow_only].
  intros w sk chunk rest Hs Hssl Hscript Hchunk r size.
  assert (r = bind (ret (Some chunk))
                (fun c => match c with
                          | None => ret 0
                          | Some chunk =>
                              buf <- get _read_buffer ;;
                              assign (with_read_buffer (buf ++ [chunk])) ;;
                              size <- get _read_buffer_size ;;
                              assign (with_read_buffer_size (size + len chunk)) ;;
                              size <- get _read_buffer_size ;;
                              limit <- get max_buffer_size ;;
                              if limit <=? size then
                                close None ;; raise buffer_overflow
                              else ret (len chunk)
                          end)
                (with_net {| recv_script := rest;
                             send_script := send_script (net w);
                             handshake_script := handshake_script (net w);
                             connect_script := connect_script (net w);
                             so_error_script := so_error_script (net w);
                             sent := sent (net w) |} w)) as Hr.
  { subst r. unfold _read_to_buffer, try_except. unfold bind at 1.
    rewrite (read_from_socket_chunk w sk chunk rest Hs Hssl Hscript Hchunk).
    reflexivity. }
  rewrite Hr. subst size. clear Hr r.
  unfold bind, get, assign, ret. simpl.
  destruct (Z.leb_spec (max_buffer_size (self w))
              (_read_buffer_size (self w) + len chunk)); simpl.
  - split; [|intros; lia]. intros _.
    rewrite close_run. simpl. split; [reflexivity|].
    apply closed_after_close.
  - split; [intros; lia|]. intros _. auto.
Qed.

(** Scenario 5 of the spec: a limit of 8 bytes, and the socket delivers
    10 bytes in one read. *)
Lemma read_to_buffer_limit_witness :
  let w := new_world
             (__init__ false {| fileno := 7; wrapped := false |} 8 4096)
             (delivering [RecvData (b "0123456789")]) in
  fst (_read_to_buffer w) = Raise buffer_overflow /\
  socket (self (snd (_read_to_buffer w))) = None.
Proof.
  intros w.
  refine (proj1 (proj1 read_to_buffer_limit w
                   {| fileno := 7; wrapped := false |}
                   (b "0123456789") [] eq_refl _ eq_refl _) _).
  - discriminate.
  - discriminate.
  - vm_compute. discriminate.
Defined.

(** ** C9: the TLS handshake and the connect callback *)

Lemma no_ssl_connect_net_blind before : net_blind (no_ssl_connect before).
Proof.
  intros w w' (Hs & _ & Hc) (new & H1 & H2). exists new. rewrite Hc. auto.
Qed.

Lemma handshake_pending_net_blind a c before :
  net_blind (handshake_pending a c before).
Proof.
  intros w w' Hsame (Ha & Hc & Hn). pose proof Hsame as (Hs & _ & _).
  unfold handshake_pending. rewrite Hs.
  repeat split; auto. eapply no_ssl_connect_net_blind; eauto.
Qed.

Lemma handshake_pending_run_callback a c before r cb args :
  r <> SslConnectCb ->
  preserves (handshake_pending a c before) (_run_callback r cb args).
Proof.
  intros Hr w (Ha & Hc & new & H1 & H2).
  unfold _run_callback, record_call, bind, get; simpl.
  repeat split; auto.
  eexists. split; [simpl; rewrite H1, <- app_assoc; reflexivity|].
  apply Forall_app. split; [exact H2|]. constructor; [|constructor].
  exact Hr.
Qed.

#[global] Hint Extern 1
  (preserves (handshake_pending _ _ _) (_run_callback _ _ _)) =>
  apply handshake_pending_run_callback; discriminate : preserves.

Lemma handshake_pending_close a c before exc :
  preserves (handshake_pending a c before) (close exc).
Proof. preserves_methods. Qed.

(** A handshake attempt that does not succeed: whatever it does
    instead (wait, close, raise, or nothing at all), [_ssl_accepting]
    and the stashed callback stay, and the callback is not scheduled. *)
Lemma handshake_attempt_fails w :
  socket (self w) = None \/ next_handshake (net w) <> CallOk ->
  handshake_pending (_ssl_accepting (self w)) (_ssl_connect_callback (self w))
    (run_callback_calls w) (snd (_do_ssl_handshake w)).
Proof.
  intros Hfail.
  assert (forall n' exc,
    handshake_pending (_ssl_accepting (self w))
      (_ssl_connect_callback (self w)) (run_callback_calls w)
      (snd (close exc
         (with_net n'
            (snd (assign (with_handshake_writing false)
               (snd (assign (with_handshake_reading false) w)))))))) as Hclose.
  { intros n' exc. apply handshake_pending_close.
    repeat split. exists []. rewrite app_nil_r. split; [reflexivity|constructor]. }
  assert (forall w', self w' = self w \/
            self w' = with_handshake_writing false
                        (with_handshake_reading false (self w)) \/
            self w' = with_handshake_reading true
                        (with_handshake_writing false
                           (with_handshake_reading false (self w))) \/
            self w' = with_handshake_writing true
                        (with_handshake_writing false
                           (with_handshake_reading false (self w))) ->
          run_callback_calls w' = run_callback_calls w ->
          handshake_pending (_ssl_accepting (self w))
            (_ssl_connect_callback (self w)) (run_callback_calls w) w')
    as Hsame.
  { intros w' Hself Hcalls. unfold handshake_pending.
    destruct Hself as [-> | [-> | [-> | ->]]]; repeat split;
      exists []; rewrite app_nil_r; (split; [exact Hcalls | constructor]). }
  unfold _do_ssl_handshake, socket_do_handshake, the_socket, try_except,
    bind, get, assign.
  simpl.
  destruct (socket (self w)) as [sk|] eqn:Es; simpl.
  2:{ apply Hsame; auto. }
  destruct Hfail as [Hfail | Hfail]; [discriminate|].
  unfold next_handshake in Hfail.
  destruct (handshake_script (net w)) as [|[|e] rest]; simpl.
  - apply Hsame; auto.
  - congruence.
  - destruct e as [[| | | | |code]|[| | | | |code]]; simpl;
      try (rewrite close_run; simpl; apply Hclose);
      apply Hsame; auto.
Qed.

(** A handshake attempt that succeeds clears [_ssl_accepting] and
    schedules the stashed callback, if there is one. *)
Lemma handshake_attempt_succeeds w sk :
  socket (self w) = Some sk -> next_handshake (net w) = CallOk ->
  let w' := snd (_do_ssl_handshake w) in
  fst (_do_ssl_handshake w) = Ret tt /\
  _ssl_accepting (self w') = false /\
  _ssl_connect_callback (self w') = None /\
  run_callback_calls w' =
    run_callback_calls w ++
    match _ssl_connect_callback (self w) with
    | Some cb =>
        [call SslConnectCb (Some cb) [] true (_pending_callbacks (self w))]
    | None => []
    end.
Proof.
  intros Hs Hok. unfold next_handshake in Hok.
  destruct (handshake_script (net w)) as [|[|e] rest] eqn:Hscript;
    try discriminate.
  unfold _do_ssl_handshake, socket_do_handshake, the_socket, try_except,
    _run_callback, record_call, io_loop_add_callback, bind, get, assign.
  simpl. rewrite Hs. simpl. rewrite Hscript. simpl.
  destruct (_ssl_connect_callback (self w)) as [cb|] eqn:Hcb; simpl;
    rewrite ?Hs, ?app_nil_r; auto.
Qed.

(** A handshake attempt that needs to read. *)
Lemma handshake_attempt_wants_read w sk :
  socket (self w) = Some sk ->
  next_handshake (net w) = CallRaise (with_ssl_code SSL_ERROR_WANT_READ) ->
  let w' := snd (_do_ssl_handshake w) in
  fst (_do_ssl_handshake w) = Ret tt /\
  self w' = with_handshake_reading true
              (with_handshake_writing false
                 (with_handshake_reading false (self w))) /\
  io_loop w' = io_loop w /\
  run_callback_calls w' = run_callback_calls w.
Proof.
  intros Hs Hwant. unfold next_handshake in Hwant.
  unfold _do_ssl_handshake, socket_do_handshake, the_socket, try_except,
    bind, get, assign.
  simpl. rewrite Hs. simpl.
  destruct (handshake_script (net w)) as [|[|e] rest] eqn:Hscript;
    try discriminate; simpl.
  - auto.
  - injection Hwant as ->. simpl. auto.
Qed.

(** The same for whole runs. *)
Lemma no_ssl_connect_trans before w w' :
  no_ssl_connect before w -> no_ssl_connect (run_callback_calls w) w' ->
  no_ssl_connect before w'.
Proof.
  intros (new & H1 & H2) (new' & H1' & H2').
  exists (new ++ new'). rewrite H1', H1, app_assoc. split; [reflexivity|].
  apply Forall_app. auto.
Qed.

Lemma not_before_handshake_net_blind before :
  net_blind (not_before_handshake before).
Proof.
  intros w w' Hsame H. pose proof Hsame as (Hs & _ & _).
  unfold not_before_handshake. rewrite Hs. intros Ha.
  eapply no_ssl_connect_net_blind; eauto.
Qed.

Lemma not_before_handshake_run_callback before r cb args :
  r <> SslConnectCb ->
  preserves (not_before_handshake before) (_run_callback r cb args).
Proof.
  intros Hr w H Ha. destruct (H Ha) as (new & H1 & H2).
  unfold _run_callback, record_call, bind, get; simpl.
  eexists. split; [simpl; rewrite H1, <- app_assoc; reflexivity|].
  apply Forall_app. split; [exact H2|]. constructor; [|constructor].
  exact Hr.
Qed.

Lemma not_before_handshake_do_ssl_handshake before :
  preserves (not_before_handshake before) _do_ssl_handshake.
Proof.
  intros w H.
  assert (socket (self w) = None \/ next_handshake (net w) <> CallOk ->
          not_before_handshake before (snd (_do_ssl_handshake w))) as Hfail.
  { intros Hf. destruct (handshake_attempt_fails w Hf) as (Ha & _ & Hn).
    intros Ha'. rewrite Ha in Ha'.
    eapply no_ssl_connect_trans; [apply H; exact Ha' | exact Hn]. }
  destruct (socket (self w)) as [sk|] eqn:Es; [|auto].
  destruct (next_handshake (net w)) as [|e] eqn:En;
    [|apply Hfail; right; discriminate].
  destruct (handshake_attempt_succeeds w sk Es En) as (_ & Ha & _).
  intros Ha'. rewrite Ha in Ha'. discriminate.
Qed.

#[global] Hint Resolve not_before_handshake_do_ssl_handshake : preserves.
#[global] Hint Extern 1
  (preserves (not_before_handshake _) (_run_callback _ _ _)) =>
  apply not_before_handshake_run_callback; discriminate : preserves.
#[global] Hint Extern 1 (preserves (not_before_handshake _) (socket_recv _)) =>
  apply preserves_socket_recv, not_before_handshake_net_blind : preserves.
#[global] Hint Extern 1 (preserves (not_before_handshake _) (socket_send _)) =>
  apply preserves_socket_send, not_before_handshake_net_blind : preserves.
#[global] Hint Extern 1
  (preserves (not_before_handshake _) socket_connect) =>
  apply preserves_socket_connect, not_before_handshake_net_blind : preserves.
#[global] Hint Extern 1
  (preserves (not_before_handshake _) socket_getsockopt_SO_ERROR) =>
  apply preserves_socket_getsockopt, not_before_handshake_net_blind
  : preserves.

Lemma not_before_handshake_delimiter_loop before fuel :
  preserves (not_before_handshake before) (delimiter_loop fuel).
Proof. induction fuel; simpl; preserves_methods. Qed.

Lemma not_before_handshake_regex_loop before fuel :
  preserves (not_before_handshake before) (regex_loop fuel).
Proof. induction fuel; simpl; preserves_methods. Qed.

Lemma not_before_handshake_inline_read_loop before fuel :
  preserves (not_before_handshake before) (inline_read_loop fuel).
Proof. induction fuel; simpl; preserves_methods. Qed.

Lemma not_before_handshake_handle_read_loop before fuel :
  preserves (not_before_handshake before) (handle_read_loop fuel).
Proof. induction fuel; simpl; preserves_methods. Qed.

Lemma not_before_handshake_handle_write_loop before fuel :
  preserves (not_before_handshake before) (handle_write_loop fuel).
Proof. induction fuel; simpl; preserves_methods. Qed.

#[global] Hint Resolve not_before_handshake_delimiter_loop
  not_before_handshake_regex_loop not_before_handshake_inline_read_loop
  not_before_handshake_handle_read_loop
  not_before_handshake_handle_write_loop : preserves.

Lemma not_before_handshake_run before ops :
  preserves (not_before_handshake before) (run ops).
Proof.
  apply preserves_run.
  - intros o Hflat.
    destruct o; simpl; try (exfalso; eapply Hflat; reflexivity);
      preserves_methods.
  - intros exc. preserves_methods.
  - preserves_methods.
  - intros p. preserves_methods.
  - intros w H. unfold io_loop_next.
    destruct (callbacks (io_loop w)); exact H.
Qed.

(** C9: when [_do_ssl_handshake] meets a needs-read outcome it sets
    [_handshake_reading] and leaves [_ssl_accepting] as it is, with the
    stashed connect callback still stashed and not scheduled; no
    attempt that does not succeed changes [_ssl_accepting] or the
    stashed callback, or schedules it; an attempt that succeeds clears
    [_ssl_accepting] and schedules the stashed callback; and in every
    run, as long as [_ssl_accepting] is set the stashed callback has
    not been scheduled. *)
Theorem handshake_gates_connect_callback :
  (forall w sk,
     socket (self w) = Some sk ->
     next_handshake (net w) = CallRaise (with_ssl_code SSL_ERROR_WANT_READ) ->
     let w' := snd (_do_ssl_handshake w) in
     fst (_do_ssl_handshake w) = Ret tt /\
     _handshake_reading (self w') = true /\
     _handshake_writing (self w') = false /\
     _ssl_accepting (self w') = _ssl_accepting (self w) /\
     _ssl_connect_callback (self w') = _ssl_connect_callback (self w) /\
     run_callback_calls w' = run_callback_calls w /\
     callbacks (io_loop w') = callbacks (io_loop w)) /\
  (forall w,
     socket (self w) = None \/ next_handshake (net w) <> CallOk ->
     handshake_pending (_ssl_accepting (self w))
       (_ssl_connect_callback (self w)) (run_callback_calls w)
       (snd (_do_ssl_handshake w))) /\
  (forall w sk,
     socket (self w) = Some sk -> next_handshake (net w) = CallOk ->
     let w' := snd (_do_ssl_handshake w) in
     _ssl_accepting (self w') = false /\
     _ssl_connect_callback (self w') = None /\
     run_callback_calls w' =
       run_callback_calls w ++
       match _ssl_connect_callback (self w) with
       | Some cb =>
           [call SslConnectCb (Some cb) [] true (_pending_callbacks (self w))]
       | None => []
       end) /\
  (forall w ops,
     _ssl_accepting (self (snd (run ops w))) = true ->
     no_ssl_connect (run_callback_calls w) (snd (run ops w))).
Proof.
  split; [|split; [|split]].
  - intros w sk Hs Hwant w'. subst w'.
    destruct (handshake_attempt_wants_read w sk Hs Hwant)
      as (Hr & Hself & Hloop & Hcalls).
    rewrite Hself, Hloop. auto 10.
  - exact handshake_attempt_fails.
  - intros w sk Hs Hok. apply (handshake_attempt_succeeds w sk Hs Hok).
  - intros w ops. apply not_before_handshake_run.
    intros _. exists []. rewrite app_nil_r. split; [reflexivity|constructor].
Qed.

(** Scenario 6 of the spec, first half: the handshake of a connecting
    TLS stream needs to read. *)
Lemma handshake_gates_connect_callback_witness :
  let sk := {| fileno := 7; wrapped := false |} in
  let w' := snd (_do_ssl_handshake tls_connecting) in
  (socket (self tls_connecting) = Some sk /\
   next_handshake (net tls_connecting)
     = CallRaise (with_ssl_code SSL_ERROR_WANT_READ)) /\
  fst (_do_ssl_handshake tls_connecting) = Ret tt /\
  _handshake_reading (self w') = true /\
  _handshake_writing (self w') = false /\
  _ssl_accepting (self w') = _ssl_accepting (self tls_connecting) /\
  _ssl_connect_callback (self w')
    = _ssl_connect_callback (self tls_connecting) /\
  run_callback_calls w' = run_callback_calls tls_connecting /\
  callbacks (io_loop w') = callbacks (io_loop tls_connecting).
Proof.
  intros sk w'. split; [split; reflexivity|].
  exact (proj1 handshake_gates_connect_callback tls_connecting sk
           eq_refl eq_refl).
Defined.

(** Scenario 6 of the spec as a run: the connect callback is scheduled
    by the second handshake attempt, not by the first. *)
Example handshake_in_two_events :
  let start := new_world tls_stream handshake_in_two_steps in
  let w1 := snd (run [Connect (Some 5%nat); HandleEvents 7 WRITE] start) in
  let w2 := snd (run [HandleEvents 7 READ] w1) in
  (_ssl_accepting (self w1) = true /\ run_callback_calls w1 = [] /\
   _state (self w1) = Some (Z.lor ERROR READ)) /\
  (_ssl_accepting (self w2) = false /\
   run_callback_calls w2 = [call SslConnectCb (Some 5%nat) [] true 0]).
Proof. vm_compute. auto. Qed.

(** ** C10: writing nothing *)

Arguments _maybe_add_error_listener : simpl never.

Lemma add_io_state_frame state w :
  let w' := snd (_add_io_state state w) in
  run_callback_calls w' = run_callback_calls w /\
  callbacks (io_loop w') = callbacks (io_loop w) /\
  net w' = net w /\
  _write_buffer (self w') = _write_buffer (self w) /\
  _write_callback (self w') = _write_callback (self w).
Proof.
  unfold _add_io_state, io_loop_call, bind, get, assign. simpl.
  destruct (socket (self w)); simpl; auto.
  destruct (_state (self w)); simpl; auto.
  destruct (Z.land z state =? 0); simpl; auto.
Qed.

(** On an open stream [_maybe_add_error_listener] schedules nothing. *)
Lemma maybe_add_error_listener_open w sk :
  socket (self w) = Some sk ->
  let w' := snd (_maybe_add_error_listener w) in
  fst (_maybe_add_error_listener w) = Ret tt /\
  run_callback_calls w' = run_callback_calls w /\
  callbacks (io_loop w') = callbacks (io_loop w) /\
  net w' = net w /\
  _write_buffer (self w') = _write_buffer (self w) /\
  _write_callback (self w') = _write_callback (self w).
Proof.
  intros Hs. simpl.
  split; [apply returns_unit, returns_maybe_add_error_listener|].
  unfold _maybe_add_error_listener, bind, get. simpl.
  destruct (is_none (_state (self w)) && (_pending_callbacks (self w) =? 0));
    simpl; auto.
  rewrite Hs. simpl. apply add_io_state_frame.
Qed.

(** C10, as the code has it: on an open stream that is not connecting,
    has an empty write buffer and is not a TLS stream whose handshake is
    still going on, [write] with empty data and a callback appends
    nothing to the write buffer and schedules the callback at once,
    without calling [send]. *)
Theorem write_nothing (w : world) (sk : sock) (callback : callable) :
  socket (self w) = Some sk ->
  _connecting (self w) = false ->
  _write_buffer (self w) = [] ->
  (is_ssl (self w) = true -> _ssl_accepting (self w) = false) ->
  let r := write (b "") (Some callback) w in
  fst r = Ret tt /\
  _write_buffer (self (snd r)) = [] /\
  _write_callback (self (snd r)) = None /\
  run_callback_calls (snd r) =
    run_callback_calls w ++
    [call WriteCb (Some callback) [] true (_pending_callbacks (self w))] /\
  callbacks (io_loop (snd r)) =
    callbacks (io_loop w) ++ [wrapper WriteCb (Some callback) []] /\
  sent (net (snd r)) = sent (net w).
Proof.
  intros Hs Hconn Hbuf Hssl r.
  set (w1 := {| self := with_pending_callbacks (_pending_callbacks (self w) + 1)
                          (with_write_callback None
                             (with_write_callback (Some callback) (self w)));
                io_loop := {| handler_calls := handler_calls (io_loop w);
                              callbacks := callbacks (io_loop w) ++
                                           [wrapper WriteCb (Some callback) []] |};
                net := net w;
                run_callback_calls :=
                  run_callback_calls w ++
                  [call WriteCb (Some callback) []
                     true (_pending_callbacks (self w))] |}).
  assert (r = _maybe_add_error_listener w1) as Hr.
  { subst r w1.
    unfold write, _check_closed, _handle_write, IOStream_handle_write,
      write_fuel, _run_callback, record_call, io_loop_add_callback,
      bind, get, assign.
    simpl. rewrite Hs. simpl. rewrite Hconn. simpl.
    destruct (is_ssl (self w)); simpl.
    - rewrite Hssl by reflexivity. simpl. unfold bind, get. simpl.
      repeat (progress (rewrite ?Hbuf, ?Hs); simpl). reflexivity.
    - unfold bind, get. simpl.
      repeat (progress (rewrite ?Hbuf, ?Hs); simpl). reflexivity. }
  rewrite Hr.
  destruct (maybe_add_error_listener_open w1 sk Hs)
    as (H1 & H2 & H3 & H4 & H5 & H6).
  rewrite H1, H2, H3, H4, H5, H6. simpl. auto 10.
Qed.

Lemma write_nothing_witness :
  let w := new_world plain_stream quiet in
  run_callback_calls (snd (write (b "") (Some 3%nat) w)) =
    [call WriteCb (Some 3%nat) [] true 0].
Proof.
  intros w.
  refine (proj1 (proj2 (proj2 (proj2
            (write_nothing w {| fileno := 7; wrapped := false |} 3%nat
               eq_refl eq_refl eq_refl _))))).
  discriminate.
Defined.

(** C10, as the claim states it, fails on a TLS stream whose handshake
    is still going on: the stream is open, is not connecting and has an
    empty write buffer, but [write] attempts the handshake and the
    callback is not scheduled. *)
Lemma write_nothing_during_handshake :
  let w := new_world tls_stream quiet in
  let w' := snd (write (b "") (Some 3%nat) w) in
  (socket (self w) <> None /\ _connecting (self w) = false /\
   _write_buffer (self w) = []) /\
  fst (write (b "") (Some 3%nat) w) = Ret tt /\
  run_callback_calls w' = [] /\
  callbacks (io_loop w') = [] /\
  _write_callback (self w') = Some 3%nat /\
  _handshake_reading (self w') = true.
Proof. vm_compute. repeat split. discriminate. Qed.

(** ** C7: the write loop and the frozen write buffer *)

Lemma write_buffer_for_send_nonempty s :
  _write_buffer s <> [] -> write_buffer_for_send s <> [].
Proof.
  unfold write_buffer_for_send. destruct (_write_buffer_frozen s); auto.
  intros _. apply merge_prefix_nonempty.
Qed.

Lemma write_buffer_for_send_concat s :
  concat (write_buffer_for_send s) = concat (_write_buffer s).
Proof.
  unfold write_buffer_for_send. destruct (_write_buffer_frozen s); auto.
  apply merge_prefix_concat.
Qed.

(** [send] on an open stream: the answer comes from the script, and the
    data is on record. *)
Lemma socket_send_run data w sk :
  socket (self w) = Some sk ->
  socket_send data w =
    (match next_send (net w) with
     | SendOk n => Ret (Z.of_nat n)
     | SendRaise e => Raise (exn_of e)
     end,
     with_net {| recv_script := recv_script (net w);
                 send_script := tl (send_script (net w));
                 handshake_script := handshake_script (net w);
                 connect_script := connect_script (net w);
                 so_error_script := so_error_script (net w);
                 sent := sent (net w) ++ [data] |} w).
Proof.
  intros Hs. unfold socket_send, the_socket, bind, get, next_send.
  simpl. rewrite Hs. simpl.
  destruct (send_script (net w)) as [|[n|e] rest]; reflexivity.
Qed.

Arguments next_send : simpl never.

Lemma handle_write_pass_sends w sk :
  socket (self w) = Some sk ->
  _write_buffer (self w) <> [] ->
  let B := write_buffer_for_send (self w) in
  let w' := snd (handle_write_pass w) in
  sent (net w') = sent (net w) ++ [hd [] B] /\
  (stalls (next_send (net w)) = true ->
     fst (handle_write_pass w) = Ret Break /\
     _write_buffer_frozen (self w') = true /\
     _write_buffer (self w') = B /\
     run_callback_calls w' = run_callback_calls w /\
     socket (self w') = Some sk) /\
  (forall N, next_send (net w) = SendOk N -> (0 < N)%nat ->
     fst (handle_write_pass w) = Ret Continue /\
     _write_buffer_frozen (self w') = false /\
     concat (_write_buffer (self w')) = skipn N (concat (_write_buffer (self w)))).
Proof.
  intros Hs Hne B w'. subst B w'.
  pose proof (write_buffer_for_send_nonempty (self w) Hne) as HB.
  pose proof (write_buffer_for_send_concat (self w)) as HBc.
  destruct (write_buffer_for_send (self w)) as [|c rest] eqn:HBeq;
    [congruence|]. clear HB.
  set (Q := fun (r : result loop_ctl) w' =>
      sent (net w') = sent (net w) ++ [hd [] (c :: rest)] /\
  (stalls (next_send (net w)) = true ->
     r = Ret Break /\
     _write_buffer_frozen (self w') = true /\
     _write_buffer (self w') = c :: rest /\
     run_callback_calls w' = run_callback_calls w /\
     socket (self w') = Some sk) /\
  (forall N, next_send (net w) = SendOk N -> (0 < N)%nat ->
     r = Ret Continue /\
     _write_buffer_frozen (self w') = false /\
     concat (_write_buffer (self w')) = skipn N (concat (_write_buffer (self w))))).
  change (wp handle_write_pass Q w).
  unfold write_buffer_for_send in HBeq.
  change (128 * 1024) with 131072 in HBeq.
  unfold handle_write_pass.
  assert (forall n, (0 < n)%nat ->
            exists c' rest',
              _merge_prefix (c :: rest) (Z.of_nat n) = c' :: rest' /\
              concat rest' = skipn n (concat (_write_buffer (self w))))
    as Hmerge.
  { intros n Hn.
    destruct (merge_prefix_cut (c :: rest) (Z.of_nat n) ltac:(lia))
      as (c' & rest' & Hmp & _ & _ & Hrest).
    exists c', rest'. rewrite Nat2Z.id, HBc in Hrest. auto. }
  destruct (_write_buffer_frozen (self w)) eqn:Hf;
    wp_exec; unfold first_chunk; wp_exec;
    (eapply wp_run; [apply (socket_send_run _ _ sk); simpl; exact Hs|]);
    simpl_test;
    destruct (next_send (net w)) as [n|e] eqn:Hn.
  1, 3: destruct (Nat.eq_dec n 0) as [->|Hn0];
    [ wp_exec; subst Q; simpl; rewrite ?Hf, ?HBeq, ?Hs;
      split; [reflexivity|]; split; [auto 10|];
      intros N HN HN0; injection HN as <-; lia
    | destruct (Hmerge n ltac:(lia)) as (c' & rest' & Hmp & Hrest);
      assert ((Z.of_nat n =? 0) = false) as Hz by (apply Z.eqb_neq; lia);
      wp_exec; unfold popleft; wp_exec;
      subst Q; simpl; split; [reflexivity|];
      (split; [destruct n; [congruence | discriminate]|]);
      intros N HN HN0; injection HN as <-; auto ].
  all: destruct e as [[| | | | |code]|[| | | | |code]]; simpl; wp_exec.
  all: try (subst Q; simpl; rewrite ?Hf, ?HBeq, ?Hs;
            split; [reflexivity|]; split; [auto 10 | discriminate]).
  all: wp_over (fun w' : world => sent (net w') = sent (net w) ++ [c]);
    [reflexivity|];
    wp_exec; subst Q; simpl; split; [assumption|];
    split; discriminate.
Qed.

(** When the first [send] stalls, the loop stops after that one pass
    and the method returns. *)
Lemma handle_write_stalls w sk :
  socket (self w) = Some sk ->
  _write_buffer (self w) <> [] ->
  stalls (next_send (net w)) = true ->
  IOStream_handle_write w = (Ret tt, snd (handle_write_pass w)).
Proof.
  intros Hs Hne Hstall.
  destruct (handle_write_pass_sends w sk Hs Hne) as (_ & Hpass & _).
  destruct (Hpass Hstall) as (Hr & _ & Hbuf & _).
  pose proof (write_buffer_for_send_nonempty (self w) Hne) as HB.
  rewrite <- Hbuf in HB.
  assert (handle_write_pass w = (Ret Break, snd (handle_write_pass w)))
    as Hp by (rewrite <- Hr; apply surjective_pairing).
  set (w' := snd (handle_write_pass w)) in *.
  assert (truthy (_write_buffer (self w)) = true) as Ht
    by (destruct (_write_buffer (self w)); [congruence | reflexivity]).
  assert (truthy (_write_buffer (self w')) = true) as Ht'
    by (destruct (_write_buffer (self w')); [congruence | reflexivity]).
  set (Q := fun (r : result unit) w'' => (r, w'') = (Ret tt, w')).
  assert (wp IOStream_handle_write Q w) as H.
  { unfold IOStream_handle_write. wp_exec.
    change (handle_write_loop (S (length (send_script (net w)))))
      with (buf <- get _write_buffer ;;
            if truthy buf then
              ctl <- handle_write_pass ;;
              match ctl with
              | Continue => handle_write_loop (length (send_script (net w)))
              | Break => ret true
              | Return => ret false
              end
            else ret true).
    wp_exec. eapply wp_run; [exact Hp|]. wp_exec. reflexivity. }
  unfold wp, Q in H. rewrite <- surjective_pairing in H. exact H.
Qed.

(** C7: one pass of the loop of [_handle_write] on an open stream with
    queued data.  [send] is given the first chunk of the write buffer,
    merged to at most 128 KiB unless the buffer is frozen; a frozen
    buffer is submitted as it is.  If [send] returns 0 or would block,
    [_write_buffer_frozen] is set, the buffer is left with that chunk
    first, and the loop stops.  If [send] returns [N > 0], the flag is
    cleared and the first [N] bytes leave the write buffer. *)
Theorem handle_write_frozen_buffer (w : world) (sk : sock) :
  socket (self w) = Some sk ->
  _write_buffer (self w) <> [] ->
  let B := write_buffer_for_send (self w) in
  let w' := snd (handle_write_pass w) in
  (_write_buffer_frozen (self w) = true -> B = _write_buffer (self w)) /\
  sent (net w') = sent (net w) ++ [hd [] B] /\
  (stalls (next_send (net w)) = true ->
     fst (handle_write_pass w) = Ret Break /\
     _write_buffer_frozen (self w') = true /\
     _write_buffer (self w') = B /\
     IOStream_handle_write w = (Ret tt, w')) /\
  (forall N, next_send (net w) = SendOk N -> (0 < N)%nat ->
     fst (handle_write_pass w) = Ret Continue /\
     _write_buffer_frozen (self w') = false /\
     concat (_write_buffer (self w'))
       = skipn N (concat (_write_buffer (self w)))).
Proof.
  intros Hs Hne B w'.
  destruct (handle_write_pass_sends w sk Hs Hne) as (Hsent & Hstall & Hok).
  split; [|split; [exact Hsent | split; [|exact Hok]]].
  - intros Hf. unfold B, write_buffer_for_send. rewrite Hf. reflexivity.
  - intros Hst. destruct (Hstall Hst) as (H1 & H2 & H3 & _).
    repeat split; try assumption.
    apply (handle_write_stalls w sk Hs Hne Hst).
Qed.

Lemma handle_write_frozen_buffer_witness :
  let w' := snd (handle_write_pass two_chunks_queued) in
  sent (net w') = [b "hello world"] /\
  fst (handle_write_pass two_chunks_queued) = Ret Continue /\
  _write_buffer_frozen (self w') = false /\
  concat (_write_buffer (self w')) = b "lo world".
Proof.
  intros w'.
  destruct (handle_write_frozen_buffer two_chunks_queued
              {| fileno := 7; wrapped := false |} eq_refl
              ltac:(vm_compute; discriminate))
    as (_ & Hsent & _ & Hok).
  split; [exact Hsent|].
  exact (Hok 3%nat eq_refl ltac:(lia)).
Defined.

(** The whole method on the same stream: the peer takes 3 bytes, then
    nothing; the rest is frozen and, at the next call, submitted as it
    is. *)
Example handle_write_twice :
  let w1 := snd (IOStream_handle_write two_chunks_queued) in
  let w2 := snd (IOStream_handle_write w1) in
  (sent (net w1) = [b "hello world"; b "lo world"] /\
   _write_buffer (self w1) = [b "lo world"] /\
   _write_buffer_frozen (self w1) = true) /\
  (sent (net w2) = [b "hello world"; b "lo world"; b "lo world"] /\
   _write_buffer (self w2) = [] /\
   _write_buffer_frozen (self w2) = false).
Proof. vm_compute. auto 10. Qed.

(** ** C5: registering for reads after an inline read *)

Lemma wp_step_inv {A} (m : M A) (P : world -> Prop)
    (Q : result A -> world -> Prop) w :
  preserves P m -> P w -> (forall r w', P w' -> Q r w') -> wp m Q w.
Proof. intros Hp HP HQ. apply HQ, Hp, HP. Qed.

(** Step over a method that keeps [P], however it ends. *)
Tactic Notation "wp_inv" constr(P) :=
  apply (wp_step_inv _ P);
  [ solve [preserves_methods]
  |
  | let r := fresh "r" in let w' := fresh "w" in let H := fresh "H" in
    intros r w' H; destruct r; cbv beta iota ].

Lemma wp_both {A} (m : M A) (Q1 Q2 : result A -> world -> Prop) w :
  wp m Q1 w -> wp m Q2 w -> wp m (fun r w' => Q1 r w' /\ Q2 r w') w.
Proof. unfold wp. auto. Qed.

(** A dispatch that completes the read leaves no read callback. *)
Lemma delimiter_loop_done fuel w :
  wp (delimiter_loop fuel)
     (fun r w' => r = Ret true -> _read_callback (self w') = None) w.
Proof.
  revert w. induction fuel as [|fuel IH]; intros w; simpl.
  - apply wp_run with (r := Hang) (w' := w); [reflexivity | discriminate].
  - unfold first_chunk, double_read_prefix. wp_exec; try discriminate.
    + wp_inv (fun w' : world => _read_callback (self w') = None);
        [reflexivity | | discriminate | discriminate].
      wp_inv (fun w' : world => _read_callback (self w') = None);
        [assumption | | discriminate | discriminate].
      wp_exec. auto.
    + apply IH.
Qed.

Lemma regex_loop_done fuel w :
  wp (regex_loop fuel)
     (fun r w' => r = Ret true -> _read_callback (self w') = None) w.
Proof.
  revert w. induction fuel as [|fuel IH]; intros w; simpl.
  - apply wp_run with (r := Hang) (w' := w); [reflexivity | discriminate].
  - unfold first_chunk, double_read_prefix. wp_exec; try discriminate.
    + wp_inv (fun w' : world => _read_callback (self w') = None);
        [reflexivity | | discriminate | discriminate].
      wp_inv (fun w' : world => _read_callback (self w') = None);
        [assumption | | discriminate | discriminate].
      wp_exec. auto.
    + apply IH.
Qed.

Lemma wp_any {A} (m : M A) (Q : result A -> world -> Prop) w :
  (forall r w', Q r w') -> wp m Q w.
Proof. intros H. apply H. Qed.

Lemma read_from_buffer_done w :
  fst (_read_from_buffer w) = Ret true ->
  _read_callback (self (snd (_read_from_buffer w))) = None.
Proof.
  change (wp _read_from_buffer
            (fun r w' => r = Ret true -> _read_callback (self w') = None) w).
  unfold _read_from_buffer.
  apply wp_bind, wp_get. cbv beta iota.
  apply wp_bind, wp_get. cbv beta iota.
  apply wp_bind, wp_any. intros r w1.
  destruct r; [|discriminate..]. clear w.
  wp_exec; try discriminate;
    try apply delimiter_loop_done; try apply regex_loop_done.
  wp_inv (fun w' : world => _read_callback (self w') = None);
    [reflexivity | | discriminate | discriminate].
  wp_inv (fun w' : world => _read_callback (self w') = None);
    [assumption | | discriminate | discriminate].
  wp_exec. auto.
Qed.

(** ** What an inline read leaves of the registration *)

Lemma registration_kept_net_blind w : net_blind (registration_kept w).
Proof.
  intros w1 w2 (Hs & Hl & _) H. unfold registration_kept.
  rewrite Hs, Hl. exact H.
Qed.

Lemma registration_kept_close w exc :
  preserves (registration_kept w) (close exc).
Proof.
  intros w1 _ Hopen. rewrite closed_after_close in Hopen. congruence.
Qed.

#[global] Hint Resolve registration_kept_close : preserves.
#[global] Hint Extern 1 (preserves (registration_kept _) (socket_recv _)) =>
  apply preserves_socket_recv, registration_kept_net_blind : preserves.

Lemma registration_kept_delimiter_loop w fuel :
  preserves (registration_kept w) (delimiter_loop fuel).
Proof. induction fuel; simpl; preserves_methods. Qed.

Lemma registration_kept_regex_loop w fuel :
  preserves (registration_kept w) (regex_loop fuel).
Proof. induction fuel; simpl; preserves_methods. Qed.

Lemma registration_kept_inline_read_loop w fuel :
  preserves (registration_kept w) (inline_read_loop fuel).
Proof. induction fuel; simpl; preserves_methods. Qed.

#[global] Hint Resolve registration_kept_delimiter_loop
  registration_kept_regex_loop registration_kept_inline_read_loop
  : preserves.

Lemma registration_kept_read_from_buffer w :
  preserves (registration_kept w) _read_from_buffer.
Proof. preserves_methods. Qed.

#[global] Hint Resolve registration_kept_read_from_buffer : preserves.

Lemma wp_dispatch w0 w (Q : result bool -> world -> Prop) :
  registration_kept w0 w ->
  (forall r w1, registration_kept w0 w1 ->
                (r = Ret true -> _read_callback (self w1) = None) ->
                Q r w1) ->
  wp _read_from_buffer Q w.
Proof.
  intros Hk HQ. apply HQ.
  - apply registration_kept_read_from_buffer, Hk.
  - apply read_from_buffer_done.
Qed.

Lemma try_inline_read_registers w0 w :
  registration_kept w0 w ->
  wp _try_inline_read
     (fun r w' => r = Ret tt -> socket (self w') <> None ->
                  _read_callback (self w') <> None ->
                  registers_read w0 w') w.
Proof.
  intros Hk. unfold _try_inline_read.
  apply wp_bind, (wp_dispatch w0); [exact Hk|].
  intros [[|]|e|] w1 Hk1 Hdone; try discriminate.
  { wp_exec. intros _ _ Hr. elim Hr. auto. }
  apply wp_bind. wp_inv (registration_kept w0);
    [exact Hk1 | | discriminate | discriminate].
  apply wp_bind. wp_inv (registration_kept w0);
    [assumption | | discriminate | discriminate].
  apply wp_bind, (wp_dispatch w0); [assumption|].
  intros [[|]|e|] w4 Hk4 Hdone4; try discriminate.
  { wp_exec. intros _ _ Hr. elim Hr. auto. }
  unfold _maybe_add_error_listener, _maybe_run_close_callback, _add_io_state.
  destruct (socket (self w4)) as [sk|] eqn:Es.
  - destruct Hk4 as (Hs & Hst & Hcalls); [congruence|].
    rewrite Es in Hs. symmetry in Hs.
    assert (forall w', _state (self w') = _state (self w0) ->
              handler_calls (io_loop w') = handler_calls (io_loop w0) ->
              _pending_callbacks (self w') = _pending_callbacks (self w4) ->
              (is_none (_state (self w0))
               && (_pending_callbacks (self w4) =? 0)) = false ->
              registers_read w0 w') as Hsame.
    { intros w' H1 H2 H3 H4. exists sk. split; [assumption|].
      rewrite H3, H4. auto. }
    destruct (_state (self w0)) as [cur|] eqn:Est0.
    + wp_exec. intros _ _ _. apply Hsame; auto.
    + destruct (_pending_callbacks (self w4) =? 0) eqn:Ep.
      * wp_exec. intros _ _ _. exists sk. split; [assumption|].
        simpl. rewrite Est0, Ep, Hcalls. simpl. auto.
      * wp_exec. intros _ _ _. apply Hsame; auto.
  - unfold _run_callback. wp_exec; intros _ Hopen; simpl in Hopen; congruence.
Qed.

Lemma lor_READ_interested (cur : Z) :
  negb (Z.land (Z.lor cur READ) READ =? 0) = true.
Proof.
  apply negb_true_iff, Z.eqb_neq. intros H.
  assert (Z.testbit (Z.land (Z.lor cur READ) READ) 0 = true) as Hb.
  { rewrite Z.land_spec, Z.lor_spec. unfold READ. simpl.
    rewrite orb_true_r. reflexivity. }
  rewrite H in Hb. discriminate.
Qed.

(** On an open stream [_add_io_state(READ)] leaves [READ] in the
    interest set. *)
Lemma add_io_state_READ w sk :
  socket (self w) = Some sk ->
  interested (_state (self (snd (_add_io_state READ w)))) READ = true.
Proof.
  intros Hs.
  change (wp (_add_io_state READ)
            (fun _ w' => interested (_state (self w')) READ = true) w).
  unfold _add_io_state. wp_exec; simpl.
  - apply lor_READ_interested.
  - rewrite E. simpl. rewrite E0. reflexivity.
  - reflexivity.
Qed.




(** ** Reads in a run *)

(** The first call to a read's completion callback is where it is. *)
Lemma first_read_unique (pre pre' post post' : list run_callback_call) e e' :
  pre ++ e :: post = pre' ++ e' :: post' ->
  no_read pre -> rc_role e = ReadCb ->
  no_read pre' -> rc_role e' = ReadCb ->
  pre = pre' /\ e = e'.
Proof.
  revert pre'. induction pre as [|c pre IH]; intros pre' Heq Hpre He Hpre' He'.
  - destruct pre' as [|c' pre'].
    + injection Heq as -> _. auto.
    + injection Heq as <- _. inversion Hpre'. congruence.
  - destruct pre' as [|c' pre'].
    + injection Heq as -> _. inversion Hpre. congruence.
    + injection Heq as <- Heq. inversion Hpre. inversion Hpre'. subst.
      destruct (IH pre' Heq) as (-> & ->); auto.
Qed.

Lemma no_read_app l1 l2 : no_read l1 -> no_read l2 -> no_read (l1 ++ l2).
Proof. intros H1 H2. apply Forall_app. auto. Qed.

Lemma streamed_app l1 l2 : streamed (l1 ++ l2) = streamed l1 ++ streamed l2.
Proof. unfold streamed. rewrite map_app, concat_app. reflexivity. Qed.

(** From the invariant to the first call that went to a read
    callback. *)
Lemma first_read_is P before w pre e post :
  (exists new, run_callback_calls w = before ++ new /\ no_read new) \/
  completed P before w ->
  run_callback_calls w = before ++ pre ++ e :: post ->
  no_read pre -> rc_role e = ReadCb ->
  P pre e.
Proof.
  intros [(new & Hnew & Hno)
         |(new & Hnew & pre' & e' & post' & -> & Hpre' & He' & HP)]
         Hcalls Hpre He.
  - rewrite Hnew in Hcalls. apply app_inv_head in Hcalls. subst new.
    apply Forall_app in Hno. destruct Hno as (_ & Hno).
    inversion Hno. congruence.
  - rewrite Hnew in Hcalls. apply app_inv_head in Hcalls.
    destruct (first_read_unique _ _ _ _ _ _ Hcalls Hpre' He' Hpre He)
      as (-> & ->).
    exact HP.
Qed.

(** A read that has completed stays completed: calls are only ever
    added to the record. *)
Lemma completed_grows P before w w' l :
  completed P before w ->
  run_callback_calls w' = run_callback_calls w ++ l ->
  completed P before w'.
Proof.
  intros (new & Hnew & pre & e & post & -> & Hrest) Hl.
  exists ((pre ++ e :: post) ++ l). split.
  - rewrite Hl, Hnew. symmetry. apply app_assoc.
  - exists pre, e, (post ++ l). split; [|exact Hrest].
    rewrite <- app_assoc. reflexivity.
Qed.

Lemma completed_net_blind P before : net_blind (completed P before).
Proof.
  intros w w' (_ & _ & Hc) H. apply (completed_grows P before w w' []).
  - exact H.
  - rewrite app_nil_r. exact Hc.
Qed.

Lemma completed_run_callback P before r cb args :
  preserves (completed P before) (_run_callback r cb args).
Proof.
  intros w H. eapply completed_grows; [exact H|]. reflexivity.
Qed.

#[global] Hint Resolve completed_run_callback : preserves.
#[global] Hint Extern 1 (preserves (completed _ _) (socket_recv _)) =>
  apply preserves_socket_recv, completed_net_blind : preserves.
#[global] Hint Extern 1 (preserves (completed _ _) (socket_send _)) =>
  apply preserves_socket_send, completed_net_blind : preserves.
#[global] Hint Extern 1 (preserves (completed _ _) socket_do_handshake) =>
  apply preserves_socket_do_handshake, completed_net_blind : preserves.
#[global] Hint Extern 1 (preserves (completed _ _) socket_connect) =>
  apply preserves_socket_connect, completed_net_blind : preserves.
#[global] Hint Extern 1
  (preserves (completed _ _) socket_getsockopt_SO_ERROR) =>
  apply preserves_socket_getsockopt, completed_net_blind : preserves.

Lemma completed_delimiter_loop P before fuel :
  preserves (completed P before) (delimiter_loop fuel).
Proof. induction fuel; simpl; preserves_methods. Qed.

Lemma completed_regex_loop P before fuel :
  preserves (completed P before) (regex_loop fuel).
Proof. induction fuel; simpl; preserves_methods. Qed.

Lemma completed_inline_read_loop P before fuel :
  preserves (completed P before) (inline_read_loop fuel).
Proof. induction fuel; simpl; preserves_methods. Qed.

Lemma completed_handle_read_loop P before fuel :
  preserves (completed P before) (handle_read_loop fuel).
Proof. induction fuel; simpl; preserves_methods. Qed.

Lemma completed_handle_write_loop P before fuel :
  preserves (completed P before) (handle_write_loop fuel).
Proof. induction fuel; simpl; preserves_methods. Qed.

#[global] Hint Resolve completed_delimiter_loop completed_regex_loop
  completed_inline_read_loop completed_handle_read_loop
  completed_handle_write_loop : preserves.

Lemma completed_close P before exc :
  preserves (completed P before) (close exc).
Proof. preserves_methods. Qed.

Lemma completed_read_from_buffer P before :
  preserves (completed P before) _read_from_buffer.
Proof. preserves_methods. Qed.

Lemma completed_read_to_buffer P before :
  preserves (completed P before) _read_to_buffer.
Proof. preserves_methods. Qed.

Lemma completed_perform P before o :
  (forall body raised, o <> RunNext body raised) ->
  preserves (completed P before) (perform o).
Proof.
  intros Hnest.
  destruct o; simpl; try (exfalso; eapply Hnest; reflexivity);
    preserves_methods.
Qed.

(** Two invariants, one of which may give way to the other. *)
Lemma preserves_or {A} (I J : world -> Prop) (m : M A) :
  hoare I m (fun w => I w \/ J w) -> preserves J m ->
  preserves (fun w => I w \/ J w) m.
Proof. intros HI HJ w [H|H]; [apply HI, H | right; apply HJ, H]. Qed.

Lemma same_recv_refl w : same_recv w w.
Proof. repeat split. Qed.

Lemma socket_send_same_recv data w :
  same_recv w (snd (socket_send data w)).
Proof.
  split; [apply socket_send_same|].
  unfold socket_send, bind. pose proof (the_socket_same w) as E.
  destruct (the_socket w) as [[sk|e|] w']; simpl in E; subst w';
    try reflexivity.
  destruct (send_script (net w)) as [|[c|e] rest]; reflexivity.
Qed.

Lemma socket_do_handshake_same_recv w :
  same_recv w (snd (socket_do_handshake w)).
Proof.
  split; [apply socket_do_handshake_same|].
  unfold socket_do_handshake, bind. pose proof (the_socket_same w) as E.
  destruct (the_socket w) as [[sk|e|] w']; simpl in E; subst w';
    try reflexivity.
  destruct (handshake_script (net w)) as [|[|e] rest]; reflexivity.
Qed.

Lemma socket_connect_same_recv w : same_recv w (snd (socket_connect w)).
Proof.
  split; [apply socket_connect_same|].
  unfold socket_connect, bind. pose proof (the_socket_same w) as E.
  destruct (the_socket w) as [[sk|e|] w']; simpl in E; subst w';
    try reflexivity.
  destruct (connect_script (net w)) as [|[|e] rest]; reflexivity.
Qed.

Lemma socket_getsockopt_same_recv w :
  same_recv w (snd (socket_getsockopt_SO_ERROR w)).
Proof.
  split; [apply socket_getsockopt_same|].
  unfold socket_getsockopt_SO_ERROR, bind.
  pose proof (the_socket_same w) as E.
  destruct (the_socket w) as [[sk|e|] w']; simpl in E; subst w';
    try reflexivity.
  destruct (so_error_script (net w)) as [|err rest]; reflexivity.
Qed.

Section RecvBlind.
Context (I : world -> Prop) (HI : recv_blind I).

Lemma recv_blind_the_socket : preserves I the_socket.
Proof. intros w H. rewrite the_socket_same. exact H. Qed.

Lemma recv_blind_socket_send data : preserves I (socket_send data).
Proof. intros w H. eapply HI; [apply socket_send_same_recv | exact H]. Qed.

Lemma recv_blind_socket_do_handshake : preserves I socket_do_handshake.
Proof.
  intros w H. eapply HI; [apply socket_do_handshake_same_recv | exact H].
Qed.

Lemma recv_blind_socket_connect : preserves I socket_connect.
Proof. intros w H. eapply HI; [apply socket_connect_same_recv | exact H]. Qed.

Lemma recv_blind_socket_getsockopt : preserves I socket_getsockopt_SO_ERROR.
Proof.
  intros w H. eapply HI; [apply socket_getsockopt_same_recv | exact H].
Qed.
End RecvBlind.

Lemma net_blind_recv_blind I : net_blind I -> recv_blind I.
Proof. intros H w w' (Hs & _). apply H. exact Hs. Qed.

(** While a read is armed, arming another one fails and changes
    nothing. *)
Lemma set_read_callback_reading w cb callback :
  _read_callback (self w) = Some cb ->
  _set_read_callback callback w = (Raise (AssertionError "Already reading"), w).
Proof.
  intros H. unfold _set_read_callback, bind, get. simpl. rewrite H.
  reflexivity.
Qed.

Lemma arming_while_reading o w cb :
  _read_callback (self w) = Some cb ->
  match o with
  | ReadUntilRegex _ _ | ReadUntil _ _ | ReadBytes _ _ _
  | ReadUntilClose _ _ => snd (perform o w) = w
  | _ => True
  end.
Proof.
  intros H. destruct o; try exact I; simpl;
    unfold read_until_regex, read_until, read_bytes, read_until_close;
    erewrite bind_raise by (apply (set_read_callback_reading w cb); exact H);
    reflexivity.
Qed.

(** ** Chunks on their way from the socket to the read buffer *)

Section Receiving.
Context (I : world -> Prop).
Hypothesis receiving : forall n w,
  I w ->
  wp (socket_recv n)
     (fun r w' =>
        match r with
        | Ret chunk => I (appended chunk w')
        | _ => I w'
        end) w.
Hypothesis nothing : forall w, I (appended [] w) -> I w.
Hypothesis closing : forall exc, preserves I (close exc).

Lemma receiving_read_from_socket w :
  I w ->
  wp _read_from_socket
     (fun r w' =>
        match r with
        | Ret (Some chunk) => I (appended chunk w')
        | _ => I w'
        end) w.
Proof.
  intros H.
  assert (forall size X,
    (forall e w', X e w' = (Ret None, w') \/
                  exists e', X e w' = (Raise e', w')) ->
    wp (chunk <- try_except (c <- socket_recv size ;; ret (Some c))
                   is_socket_error X ;;
        match chunk with
        | None => ret None
        | Some chunk =>
            if negb (truthy chunk) then close None ;; ret None
            else ret (Some chunk)
        end)
     (fun r w' =>
        match r with
        | Ret (Some chunk) => I (appended chunk w')
        | _ => I w'
        end) w) as Hrecv.
  { intros size X HX. apply wp_bind, wp_try_except, wp_bind.
    eapply wp_conseq; [apply receiving, H|].
    intros [chunk|e|] w1 H1; cbv beta iota.
    - apply wp_ret. destruct chunk as [|c chunk]; simpl.
      + apply nothing in H1.
        apply wp_bind. apply (wp_step_inv _ I); [apply closing | exact H1|].
        intros [a|e|] w2 H2; cbv beta iota; exact H2.
      + apply wp_ret. exact H1.
    - destruct (is_socket_error e); [|exact H1].
      destruct (HX e w1) as [E|[e' E]];
        (eapply wp_run; [exact E|]); [apply wp_ret|]; exact H1.
    - exact H1. }
  unfold _read_from_socket, IOStream_read_from_socket,
    SSLIOStream_read_from_socket.
  apply wp_bind, wp_get. cbv beta iota.
  destruct (is_ssl (self w)).
  - apply wp_bind, wp_get. cbv beta iota.
    destruct (_ssl_accepting (self w)); [apply wp_ret; exact H|].
    apply wp_bind, wp_get. cbv beta iota. apply Hrecv.
    intros e w'.
    destruct e as [m|m|en|c| | | |k]; try destruct c;
      try (destruct (is_would_block _));
      first [left; reflexivity | right; eexists; reflexivity].
  - apply wp_bind, wp_get. cbv beta iota. apply Hrecv.
    intros e w'. destruct (is_would_block e);
      first [left; reflexivity | right; eexists; reflexivity].
Qed.

Lemma receiving_read_to_buffer : preserves I _read_to_buffer.
Proof.
  intros w H.
  change (wp _read_to_buffer (fun _ w' => I w') w).
  unfold _read_to_buffer.
  apply wp_bind, wp_try_except.
  eapply wp_conseq; [apply receiving_read_from_socket, H|].
  intros [[chunk|]|e|] w1 H1; cbv beta iota.
  - apply wp_bind, wp_get. cbv beta iota.
    apply wp_bind, wp_assign. cbv beta iota.
    apply wp_bind, wp_get. cbv beta iota.
    apply wp_bind, wp_assign. cbv beta iota.
    match goal with
    | |- wp ?m ?Q _ => change (wp m Q (appended chunk w1))
    end.
    revert H1. generalize (appended chunk w1). intros w2 H2.
    apply wp_bind, wp_get. cbv beta iota.
    apply wp_bind, wp_get. cbv beta iota.
    destruct (_ <=? _).
    + apply wp_bind. apply (wp_step_inv _ I); [apply closing | exact H2|].
      intros [a|e|] w3 H3; cbv beta iota; exact H3.
    + apply wp_ret. exact H2.
  - apply wp_ret. exact H1.
  - destruct (is_socket_error e); [|exact H1].
    apply wp_bind. apply (wp_step_inv _ I); [apply closing | exact H1|].
    intros [a|e'|] w3 H3; cbv beta iota; exact H3.
  - exact H1.
Qed.
End Receiving.
(** ** The dispatch of [read_until] *)

Lemma rebuffered_refl w : rebuffered w w.
Proof.
  unfold rebuffered. repeat split.
  destruct w as [s l n c]. destruct s. reflexivity.
Qed.

Lemma ends_at_first_empty : ends_at_first [] [].
Proof.
  exists []. split; [reflexivity|].
  intros i (x & y & H & Hx). destruct x; [simpl in *; lia | discriminate].
Qed.

Lemma rebuffered_regroup w0 w buf :
  rebuffered w0 w -> concat buf = buffered w ->
  rebuffered w0 (snd (assign (with_read_buffer buf) w)).
Proof.
  intros (Hbuf & Hself & Hloop & Hnet & Hcalls) Hcat.
  unfold rebuffered, buffered in *. simpl.
  split; [congruence|]. split; [|auto].
  rewrite Hself. reflexivity.
Qed.

(** The first occurrence in the first chunk is the first occurrence in
    the buffer. *)
Lemma first_in_chunk d chunk rest i :
  occurs_at d chunk i ->
  (forall j, occurs_at d chunk j -> (i <= j)%nat) ->
  occurs_at d (chunk ++ rest) i /\
  (forall j, occurs_at d (chunk ++ rest) j -> (i <= j)%nat) /\
  firstn (i + length d) (chunk ++ rest) = firstn (i + length d) chunk /\
  length (firstn (i + length d) chunk) = (i + length d)%nat.
Proof.
  intros Hocc Hmin.
  assert (i + length d <= length chunk)%nat as Hle.
  { destruct Hocc as (x & y & -> & <-). rewrite !length_app. lia. }
  split; [apply occurs_at_prefix, Hocc|]. split.
  - intros j Hj. destruct (Nat.le_gt_cases i j) as [|Hlt]; [assumption|].
    apply Hmin. eapply occurs_at_within; [exact Hj | lia].
  - split.
    + rewrite firstn_app.
      replace (i + length d - length chunk)%nat with 0%nat by lia.
      rewrite firstn_O. apply app_nil_r.
    + apply firstn_length_le. exact Hle.
Qed.
Lemma delimiter_loop_dispatch d fuel w0 w :
  _read_delimiter (self w0) = Some d ->
  rebuffered w0 w ->
  wp (delimiter_loop fuel)
     (fun r w' =>
        match r with
        | Ret true => completed_until d w0 w'
        | _ => rebuffered w0 w'
        end) w.
Proof.
  intros Hd. revert w. induction fuel as [|fuel IH]; intros w Hw; simpl.
  - apply wp_run with (r := Hang) (w' := w); [reflexivity | exact Hw].
  - pose proof Hw as (Hbuf & Hself & Hloop & Hnet & Hcalls).
    assert (_read_delimiter (self w) = Some d) as Hdw
      by (rewrite Hself; simpl; exact Hd).
    assert (_read_callback (self w) = _read_callback (self w0)) as Hcb
      by (rewrite Hself; reflexivity).
    assert (socket (self w) = socket (self w0)) as Hsk
      by (rewrite Hself; reflexivity).
    assert (_pending_callbacks (self w) = _pending_callbacks (self w0)) as Hp
      by (rewrite Hself; reflexivity).
    unfold first_chunk. apply wp_bind. apply wp_bind. apply wp_get.
    destruct (_read_buffer (self w)) as [|chunk rest] eqn:Ebuf; cbv beta iota.
    { apply wp_raise. exact Hw. }
    apply wp_ret. apply wp_bind, wp_get. rewrite Hdw. cbv beta iota zeta.
    destruct (Z.eqb_spec (find chunk d) (-1)) as [Enf|Efound]; cbv beta iota.
    + (* not in the first chunk *)
      apply wp_bind, wp_get. rewrite Ebuf.
      destruct (len (chunk :: rest) =? 1); [apply wp_ret; exact Hw|].
      apply wp_bind. unfold double_read_prefix.
      apply wp_bind, wp_get. rewrite Ebuf.
      destruct (_double_prefix (chunk :: rest)) as [buf'|] eqn:Edp.
      * apply wp_assign. apply IH. apply rebuffered_regroup; [exact Hw|].
        unfold buffered. rewrite Ebuf.
        destruct rest as [|c1 rest]; [discriminate|].
        simpl in Edp. injection Edp as <-. apply merge_prefix_concat.
      * apply wp_raise. exact Hw.
    + (* in the first chunk *)
      destruct (find_spec chunk d Efound) as (i & Hi & Hocc & Hmin).
      destruct (first_in_chunk d chunk (concat rest) i Hocc Hmin)
        as (HoccU & HminU & Hcut & Hlen).
      assert (buffered w0 = chunk ++ concat rest) as HU.
      { rewrite <- Hbuf. unfold buffered. rewrite Ebuf. reflexivity. }
      change (negb false) with true. cbv iota.
      apply wp_bind, wp_get. apply wp_bind, wp_assign.
      apply wp_bind, wp_assign. apply wp_bind, wp_assign.
      match goal with
      | |- wp _ _ ?x => set (w1 := x)
      end.
      assert (buffered w1 = chunk ++ concat rest) as HU1.
      { unfold w1, buffered. simpl. rewrite Ebuf. reflexivity. }
      rewrite Hi. unfold len.
      replace (Z.of_nat i + Z.of_nat (length d))
        with (Z.of_nat (i + length d)) by lia.
      apply wp_bind.
      destruct (Nat.eq_dec (i + length d) 0) as [En|En].
      * (* an empty delimiter: [_consume(0)] *)
        rewrite En.
        apply wp_run with (r := Ret (b "")) (w' := w1); [reflexivity|].
        apply wp_bind. eapply wp_run; [reflexivity|]. apply wp_ret.
        exists []. simpl.
        assert (d = []) as -> by (destruct d; [reflexivity | simpl in En; lia]).
        split; [apply ends_at_first_empty|].
        split; [intros; simpl; lia|].
        split; [rewrite HU; symmetry; exact HU1|].
        split; [|split; [reflexivity | split; [reflexivity | exact Hnet]]].
        rewrite Hcalls, Hcb, Hsk, Hp. reflexivity.
      * destruct (consume_positive (Z.of_nat (i + length d)) w1 ltac:(lia))
          as (data & rest' & Hmp & Hdata & Hrest & Hrun).
        rewrite Nat2Z.id, HU1 in Hdata, Hrest.
        eapply wp_run; [exact Hrun|].
        apply wp_bind. eapply wp_run; [reflexivity|]. apply wp_ret.
        exists data.
        split; [rewrite Hdata; apply cut_at_first; assumption|].
        split.
        { intros j Hj. rewrite HU in Hj. apply HminU in Hj.
          rewrite Hdata, Hcut, Hlen. lia. }
        split.
        { rewrite HU. unfold buffered. simpl. rewrite Hrest, Hdata.
          symmetry. apply firstn_skipn. }
        split; [|split; [reflexivity | split; [reflexivity | exact Hnet]]].
        simpl. rewrite Hcalls, Hcb, Hsk, Hp. reflexivity.
Qed.

(** ** A [read_until] in a run *)

Lemma armed_until_recv_blind d cb u before :
  recv_blind (armed_until d cb u before).
Proof.
  intros w w' ((Hs & _ & Hc) & Hr) H.
  unfold armed_until, unconsumed, buffered in *.
  rewrite Hs, Hc, Hr. exact H.
Qed.

Lemma until_inv_recv_blind d cb u before :
  recv_blind (until_inv d cb u before).
Proof.
  intros w w' Hww [H|H]; [left | right].
  - eapply armed_until_recv_blind; eassumption.
  - eapply (net_blind_recv_blind _ (completed_net_blind _ _)); eassumption.
Qed.

(** Scheduling a callback that is not the completion callback of a
    read. *)
Lemma armed_until_run_callback d cb u before r callback args :
  r <> ReadCb ->
  preserves (armed_until d cb u before) (_run_callback r callback args).
Proof.
  intros Hr w (H1 & H2 & H3 & H4 & H5 & H6 & new & Hnew & Hno).
  unfold armed_until. simpl.
  repeat (split; [assumption|]).
  eexists. split; [rewrite Hnew, <- app_assoc; reflexivity|].
  apply no_read_app; [exact Hno|]. constructor; [exact Hr | constructor].
Qed.

#[global] Hint Extern 1
  (preserves (armed_until _ _ _ _) (_run_callback _ _ _)) =>
  apply armed_until_run_callback; discriminate : preserves.

(** [close] on a stream that is not reading until close hands nothing
    to a read callback. *)
Lemma armed_until_close d cb u before exc :
  preserves (armed_until d cb u before) (close exc).
Proof.
  intros w H. pose proof H as (H1 & H2 & H3 & H4 & H5 & H6 & Hnew).
  change (wp (close exc) (fun _ w' => armed_until d cb u before w') w).
  unfold close.
  apply wp_bind, wp_get. cbv beta iota.
  destruct (socket (self w)) as [sk|] eqn:Es.
  - apply wp_bind. apply wp_bind.
    wp_inv (armed_until d cb u before);
      [exact H | | exact H0 | exact H0].
    clear H1 H2 H3 H4 H5 H6 Hnew.
    pose proof H0 as (H1 & H2 & H3 & H4 & H5 & H6 & Hnew).
    apply wp_bind, wp_get. cbv beta iota. rewrite H4.
    apply wp_bind, wp_ret.
    wp_inv (armed_until d cb u before);
      [exact H0 | | assumption | assumption].
    wp_inv (armed_until d cb u before); assumption.
  - apply wp_bind, wp_ret. wp_inv (armed_until d cb u before); assumption.
Qed.

#[global] Hint Resolve armed_until_close : preserves.
#[global] Hint Extern 1 (preserves (armed_until _ _ _ _) (socket_send _)) =>
  apply recv_blind_socket_send, armed_until_recv_blind : preserves.
#[global] Hint Extern 1
  (preserves (armed_until _ _ _ _) socket_do_handshake) =>
  apply recv_blind_socket_do_handshake, armed_until_recv_blind : preserves.
#[global] Hint Extern 1 (preserves (armed_until _ _ _ _) socket_connect) =>
  apply recv_blind_socket_connect, armed_until_recv_blind : preserves.
#[global] Hint Extern 1
  (preserves (armed_until _ _ _ _) socket_getsockopt_SO_ERROR) =>
  apply recv_blind_socket_getsockopt, armed_until_recv_blind : preserves.

(** The world after [self._read_buffer.append(chunk)]. *)
Lemma buffered_append chunk w :
  buffered (snd (assign (with_read_buffer (_read_buffer (self w) ++ [chunk]))
                   w)) = buffered w ++ chunk.
Proof.
  unfold buffered. simpl. rewrite concat_app. simpl.
  rewrite app_nil_r. reflexivity.
Qed.

(** A chunk that [recv] returns is on its way from the socket to the
    read buffer. *)
Lemma armed_until_socket_recv d cb u before n w :
  armed_until d cb u before w ->
  wp (socket_recv n)
     (fun r w' =>
        match r with
        | Ret chunk =>
            armed_until d cb u before
              (snd (assign (with_read_buffer
                              (_read_buffer (self w') ++ [chunk])) w'))
        | _ => armed_until d cb u before w'
        end) w.
Proof.
  intros H. unfold wp, socket_recv, bind.
  pose proof (the_socket_same w) as E.
  destruct (the_socket w) as [[sk|e|] w']; simpl in E; subst w';
    try exact H.
  destruct H as (H1 & H2 & H3 & H4 & H5 & H6 & Hnew).
  destruct (recv_script (net w)) as [|[chunk|e] rest] eqn:Escript; simpl.
  - repeat (split; [assumption|]). assumption.
  - repeat (split; [assumption|]). split; [|assumption].
    rewrite <- H6. unfold unconsumed, buffered. simpl.
    rewrite Escript, concat_app. simpl.
    rewrite app_nil_r, <- app_assoc. reflexivity.
  - repeat (split; [assumption|]). split; [|assumption].
    rewrite <- H6. unfold unconsumed. simpl. rewrite Escript. reflexivity.
Qed.

Lemma armed_until_append_nothing d cb u before w :
  armed_until d cb u before
    (snd (assign (with_read_buffer (_read_buffer (self w) ++ [[]])) w)) ->
  armed_until d cb u before w.
Proof.
  intros (H1 & H2 & H3 & H4 & H5 & H6 & Hnew).
  repeat (split; [assumption|]). split; [|assumption].
  rewrite <- H6. unfold unconsumed. rewrite buffered_append, app_nil_r.
  reflexivity.
Qed.

Lemma armed_until_read_from_socket d cb u before w :
  armed_until d cb u before w ->
  wp _read_from_socket
     (fun r w' =>
        match r with
        | Ret (Some chunk) =>
            armed_until d cb u before
              (snd (assign (with_read_buffer
                              (_read_buffer (self w') ++ [chunk])) w'))
        | _ => armed_until d cb u before w'
        end) w.
Proof.
  intros H.
  assert (forall size X,
    (forall e w', X e w' = (Ret None, w') \/
                  exists e', X e w' = (Raise e', w')) ->
    wp (chunk <- try_except (c <- socket_recv size ;; ret (Some c))
                   is_socket_error X ;;
        match chunk with
        | None => ret None
        | Some chunk =>
            if negb (truthy chunk) then close None ;; ret None
            else ret (Some chunk)
        end)
     (fun r w' =>
        match r with
        | Ret (Some chunk) =>
            armed_until d cb u before
              (snd (assign (with_read_buffer
                              (_read_buffer (self w') ++ [chunk])) w'))
        | _ => armed_until d cb u before w'
        end) w) as Hrecv.
  { intros size X HX. apply wp_bind, wp_try_except, wp_bind.
    eapply wp_conseq; [apply armed_until_socket_recv, H|].
    intros [chunk|e|] w1 H1; cbv beta iota.
    - apply wp_ret. destruct chunk as [|c chunk]; simpl.
      + apply armed_until_append_nothing in H1.
        apply wp_bind.
        wp_inv (armed_until d cb u before); assumption.
      + apply wp_ret. exact H1.
    - destruct (is_socket_error e); [|exact H1].
      destruct (HX e w1) as [E|[e' E]];
        (eapply wp_run; [exact E|]); [apply wp_ret|]; exact H1.
    - exact H1. }
  unfold _read_from_socket, IOStream_read_from_socket,
    SSLIOStream_read_from_socket.
  apply wp_bind, wp_get. cbv beta iota.
  destruct (is_ssl (self w)).
  - apply wp_bind, wp_get. cbv beta iota.
    destruct (_ssl_accepting (self w)); [apply wp_ret; exact H|].
    apply wp_bind, wp_get. cbv beta iota. apply Hrecv.
    intros e w'.
    destruct e as [m|m|en|c| | | |k]; try destruct c;
      try (destruct (is_would_block _));
      first [left; reflexivity | right; eexists; reflexivity].
  - apply wp_bind, wp_get. cbv beta iota. apply Hrecv.
    intros e w'. destruct (is_would_block e);
      first [left; reflexivity | right; eexists; reflexivity].
Qed.

Lemma armed_until_read_to_buffer d cb u before :
  preserves (armed_until d cb u before) _read_to_buffer.
Proof.
  intros w H.
  change (wp _read_to_buffer (fun _ w' => armed_until d cb u before w') w).
  unfold _read_to_buffer.
  apply wp_bind, wp_try_except.
  eapply wp_conseq; [apply armed_until_read_from_socket, H|].
  intros [[chunk|]|e|] w1 H1; cbv beta iota.
  - apply wp_bind, wp_get. cbv beta iota.
    apply wp_bind, wp_assign. cbv beta iota.
    wp_inv (armed_until d cb u before); assumption.
  - apply wp_ret. exact H1.
  - destruct (is_socket_error e); [|exact H1].
    apply wp_bind. wp_inv (armed_until d cb u before); assumption.
  - exact H1.
Qed.

(** The dispatch of an armed [read_until(d)]: either it hands the
    buffered bytes up to the first [d] to the read callback, or it
    leaves everything as it was, but for the grouping of the buffered
    bytes in chunks. *)
Lemma read_from_buffer_until d w :
  _read_delimiter (self w) = Some d ->
  _read_bytes (self w) = None ->
  _streaming_callback (self w) = None ->
  wp _read_from_buffer
     (fun r w' =>
        match r with
        | Ret true => completed_until d w w'
        | _ => rebuffered w w'
        end) w.
Proof.
  intros Hd Hb Hs. unfold _read_from_buffer.
  apply wp_bind, wp_get. cbv beta iota.
  apply wp_bind, wp_get. cbv beta iota.
  rewrite Hs. simpl andb. cbv iota.
  apply wp_bind, wp_ret.
  apply wp_bind, wp_get. cbv beta iota.
  apply wp_bind, wp_get. cbv beta iota.
  apply wp_bind, wp_get. cbv beta iota.
  apply wp_bind, wp_get. cbv beta iota.
  apply wp_bind, wp_get. cbv beta iota zeta.
  rewrite Hb, Hd. simpl is_some. cbv iota.
  destruct (truthy (_read_buffer (self w))).
  - apply delimiter_loop_dispatch; [exact Hd | apply rebuffered_refl].
  - apply wp_ret. apply rebuffered_refl.
Qed.

Lemma ends_at_first_prefix d payload rest j :
  ends_at_first d payload ->
  occurs_at d (payload ++ rest) j ->
  (length payload <= j + length d)%nat.
Proof.
  intros (x & -> & Hx) Hj.
  destruct (Nat.le_gt_cases (j + length d) (length (x ++ d))) as [Hle|]; [|lia].
  apply occurs_at_within in Hj; [|exact Hle].
  apply Hx in Hj. rewrite length_app. lia.
Qed.

Lemma armed_until_rebuffered d cb u before w w' :
  armed_until d cb u before w -> rebuffered w w' ->
  armed_until d cb u before w'.
Proof.
  intros (H1 & H2 & H3 & H4 & H5 & H6 & Hnew)
         (Hbuf & Hself & Hloop & Hnet & Hcalls).
  unfold armed_until, unconsumed in *.
  rewrite Hself, Hbuf, Hnet, Hcalls. simpl.
  repeat (split; [assumption|]). assumption.
Qed.

Lemma armed_until_read_from_buffer d cb u before :
  hoare (armed_until d cb u before) _read_from_buffer
        (until_inv d cb u before).
Proof.
  intros w H. pose proof H as (H1 & H2 & H3 & H4 & H5 & H6 & new & Hnew & Hno).
  pose proof (read_from_buffer_until d w H2 H3 H5) as Hwp.
  unfold wp in Hwp.
  destruct (_read_from_buffer w) as [r w']. simpl in *.
  assert (rebuffered w w' -> until_inv d cb u before w') as Hsame.
  { intros Hre. left. eapply armed_until_rebuffered; eassumption. }
  destruct r as [[|]|e|]; auto.
  destruct Hwp as (payload & Hends & Hfirst & Hsplit & Hcalls & _ & _ & Hnet).
  right. eexists. split.
  { rewrite Hcalls, Hnew, <- app_assoc. reflexivity. }
  exists new. eexists. exists []. split; [reflexivity|].
  split; [exact Hno|]. split; [reflexivity|].
  assert (u = payload ++ (buffered w' ++ data_of (recv_script (net w'))))
    as Hu.
  { rewrite <- H6. unfold unconsumed. rewrite Hsplit, Hnet, <- app_assoc.
    reflexivity. }
  exists payload. eexists. split; [exact H1|]. split; [reflexivity|].
  split; [exact Hends|]. split; [exact Hu|].
  intros j Hj. rewrite Hu in Hj. eapply ends_at_first_prefix; eassumption.
Qed.

Lemma until_inv_run_callback d cb u before r callback args :
  r <> ReadCb ->
  preserves (until_inv d cb u before) (_run_callback r callback args).
Proof.
  intros Hr. apply preserves_or.
  - intros w H. left. apply armed_until_run_callback; assumption.
  - apply completed_run_callback.
Qed.

Lemma until_inv_close d cb u before exc :
  preserves (until_inv d cb u before) (close exc).
Proof.
  apply preserves_or.
  - intros w H. left. apply armed_until_close. exact H.
  - apply completed_close.
Qed.

Lemma until_inv_read_to_buffer d cb u before :
  preserves (until_inv d cb u before) _read_to_buffer.
Proof.
  apply preserves_or.
  - intros w H. left. apply armed_until_read_to_buffer. exact H.
  - apply completed_read_to_buffer.
Qed.

Lemma until_inv_read_from_buffer d cb u before :
  preserves (until_inv d cb u before) _read_from_buffer.
Proof.
  apply preserves_or.
  - apply armed_until_read_from_buffer.
  - apply completed_read_from_buffer.
Qed.

#[global] Hint Resolve until_inv_close until_inv_read_to_buffer
  until_inv_read_from_buffer : preserves.
#[global] Hint Extern 1
  (preserves (until_inv _ _ _ _) (_run_callback _ _ _)) =>
  apply until_inv_run_callback; discriminate : preserves.
#[global] Hint Extern 1 (preserves (until_inv _ _ _ _) (socket_send _)) =>
  apply recv_blind_socket_send, until_inv_recv_blind : preserves.
#[global] Hint Extern 1
  (preserves (until_inv _ _ _ _) socket_do_handshake) =>
  apply recv_blind_socket_do_handshake, until_inv_recv_blind : preserves.
#[global] Hint Extern 1 (preserves (until_inv _ _ _ _) socket_connect) =>
  apply recv_blind_socket_connect, until_inv_recv_blind : preserves.
#[global] Hint Extern 1
  (preserves (until_inv _ _ _ _) socket_getsockopt_SO_ERROR) =>
  apply recv_blind_socket_getsockopt, until_inv_recv_blind : preserves.

Lemma until_inv_inline_read_loop d cb u before fuel :
  preserves (until_inv d cb u before) (inline_read_loop fuel).
Proof. induction fuel; simpl; preserves_methods. Qed.

Lemma until_inv_handle_read_loop d cb u before fuel :
  preserves (until_inv d cb u before) (handle_read_loop fuel).
Proof. induction fuel; simpl; preserves_methods. Qed.

Lemma until_inv_handle_write_loop d cb u before fuel :
  preserves (until_inv d cb u before) (handle_write_loop fuel).
Proof. induction fuel; simpl; preserves_methods. Qed.

#[global] Hint Resolve until_inv_inline_read_loop
  until_inv_handle_read_loop until_inv_handle_write_loop : preserves.

(** Every step but the callbacks keeps the invariant: a step that would
    arm another read fails while this one is armed. *)
Lemma until_inv_flat d cb u before o :
  (forall body raised, o <> RunNext body raised) ->
  preserves (until_inv d cb u before) (perform o).
Proof.
  intros Hnest w [H|Hc]; [|right; apply completed_perform; assumption].
  pose proof (arming_while_reading o w cb (proj1 H)) as Harm.
  destruct o; try (rewrite Harm; left; exact H);
    try (exfalso; eapply Hnest; reflexivity);
    clear Harm;
    match goal with
    | |- until_inv _ _ _ _ (snd (?m _)) =>
        assert (preserves (until_inv d cb u before) m) as Hp
          by (simpl; preserves_methods);
        apply Hp; left; exact H
    end.
Qed.

Lemma until_inv_maybe_add_error_listener d cb u before :
  preserves (until_inv d cb u before) _maybe_add_error_listener.
Proof. preserves_methods. Qed.

Lemma until_inv_run d cb u before ops :
  preserves (until_inv d cb u before) (run ops).
Proof.
  apply preserves_run.
  - apply until_inv_flat.
  - apply until_inv_close.
  - apply until_inv_maybe_add_error_listener.
  - intros p w H. exact H.
  - intros w H. unfold io_loop_next.
    destruct (callbacks (io_loop w)); exact H.
Qed.

Lemma until_inv_try_inline_read d cb u before :
  preserves (until_inv d cb u before) _try_inline_read.
Proof. preserves_methods. Qed.

(** Arming: [read_until(d, cb)] on a stream that is not reading. *)
Lemma read_until_arms d cb w :
  idle w -> _streaming_callback (self w) = None ->
  until_inv d cb (unconsumed w) (run_callback_calls w)
    (snd (read_until d cb w)).
Proof.
  intros (H1 & H2 & H3 & H4 & H5) Hs.
  change (wp (read_until d cb)
            (fun _ w' => until_inv d cb (unconsumed w)
                           (run_callback_calls w) w') w).
  unfold read_until, _set_read_callback.
  apply wp_bind, wp_bind, wp_get. rewrite H1. simpl is_some. cbv iota.
  apply wp_assign. apply wp_bind, wp_assign.
  apply (wp_step_inv _ (until_inv d cb (unconsumed w) (run_callback_calls w)));
    [apply until_inv_try_inline_read | | auto].
  left. unfold armed_until. simpl.
  repeat (split; [first [assumption | reflexivity]|]).
  exists []. split; [rewrite app_nil_r; reflexivity | constructor].
Qed.



(** The unconsumed bytes start with what the read buffer holds when the
    read is armed: here the second [read_until] completes with a
    payload that arrived before it was armed, and no byte arrives
    after. *)
Example read_until_completes_from_residue :
  let w1 := snd (run [ReadUntil (b ";") 1%nat] two_delimiters) in
  let w2 := snd (run [ReadUntil (b ";") 2%nat] w1) in
  idle w1 /\
  _streaming_callback (self w1) = None /\
  buffered w1 = b "b;c" /\
  recv_script (net w1) = [] /\
  run_callback_calls w2 =
    run_callback_calls w1 ++ [call ReadCb (Some 2%nat) [b "b;"] true 1] /\
  buffered w2 = b "c".
Proof. vm_compute. repeat split. Qed.
(** ** A [read_bytes] in a run *)

Lemma armed_bytes_recv_blind n cb scb u before :
  recv_blind (armed_bytes n cb scb u before).
Proof.
  intros w w' ((Hs & _ & Hc) & Hr) H.
  unfold armed_bytes, size_counted, unconsumed, buffered in *.
  rewrite Hs, Hc, Hr. exact H.
Qed.

Lemma bytes_inv_recv_blind n cb scb u before :
  recv_blind (bytes_inv n cb scb u before).
Proof.
  intros w w' Hww [H|H]; [left | right].
  - eapply armed_bytes_recv_blind; eassumption.
  - eapply (net_blind_recv_blind _ (completed_net_blind _ _)); eassumption.
Qed.

Lemma streamed_other r callback args socket_present pending :
  r <> StreamingCb ->
  streamed [call r callback args socket_present pending] = [].
Proof. intros Hr. destruct r; try congruence; reflexivity. Qed.

(** Scheduling a callback that belongs to no read. *)
Lemma armed_bytes_run_callback n cb scb u before r callback args :
  r <> ReadCb -> r <> StreamingCb ->
  preserves (armed_bytes n cb scb u before) (_run_callback r callback args).
Proof.
  intros Hr Hs w (H1 & H2 & H3 & H4 & H5 & H6 & new & k & Hnew & Hno & Hto
                  & Hk & Hk0 & Hsum & Hu).
  assert (streamed (new ++ [call r callback args (is_some (socket (self w)))
                              (_pending_callbacks (self w))]) = streamed new)
    as Hst.
  { rewrite streamed_app, streamed_other by exact Hs. apply app_nil_r. }
  unfold armed_bytes. simpl.
  repeat (split; [assumption|]).
  eexists. exists k. split; [rewrite Hnew, <- app_assoc; reflexivity|].
  split; [apply no_read_app; [exact Hno|]; constructor; [exact Hr|constructor]|].
  split.
  { apply Forall_app. split; [exact Hto|].
    constructor; [|constructor]. intros Hrole. simpl in Hrole. congruence. }
  split; [exact Hk|]. split; [exact Hk0|].
  unfold call in Hst. rewrite Hst. split; assumption.
Qed.

#[global] Hint Extern 1
  (preserves (armed_bytes _ _ _ _ _) (_run_callback _ _ _)) =>
  apply armed_bytes_run_callback; discriminate : preserves.
#[global] Hint Extern 1
  (preserves (armed_bytes _ _ _ _ _) (socket_send _)) =>
  apply recv_blind_socket_send, armed_bytes_recv_blind : preserves.
#[global] Hint Extern 1
  (preserves (armed_bytes _ _ _ _ _) socket_do_handshake) =>
  apply recv_blind_socket_do_handshake, armed_bytes_recv_blind : preserves.
#[global] Hint Extern 1
  (preserves (armed_bytes _ _ _ _ _) socket_connect) =>
  apply recv_blind_socket_connect, armed_bytes_recv_blind : preserves.
#[global] Hint Extern 1
  (preserves (armed_bytes _ _ _ _ _) socket_getsockopt_SO_ERROR) =>
  apply recv_blind_socket_getsockopt, armed_bytes_recv_blind : preserves.

Lemma armed_bytes_close n cb scb u before exc :
  preserves (armed_bytes n cb scb u before) (close exc).
Proof.
  intros w H.
  change (wp (close exc) (fun _ w' => armed_bytes n cb scb u before w') w).
  unfold close.
  apply wp_bind, wp_get. cbv beta iota.
  destruct (socket (self w)) as [sk|] eqn:Es.
  - apply wp_bind. apply wp_bind.
    wp_inv (armed_bytes n cb scb u before);
      [exact H | | exact H0 | exact H0].
    pose proof H0 as (_ & _ & _ & _ & H5 & _).
    apply wp_bind, wp_get. cbv beta iota. rewrite H5.
    apply wp_bind, wp_ret.
    wp_inv (armed_bytes n cb scb u before);
      [exact H0 | | assumption | assumption].
    wp_inv (armed_bytes n cb scb u before); assumption.
  - apply wp_bind, wp_ret.
    wp_inv (armed_bytes n cb scb u before); assumption.
Qed.

#[global] Hint Resolve armed_bytes_close : preserves.

Lemma buffered_appended chunk w :
  buffered (appended chunk w) = buffered w ++ chunk.
Proof.
  unfold buffered, appended. simpl. rewrite concat_app. simpl.
  rewrite app_nil_r. reflexivity.
Qed.

(** A chunk that [recv] returns is on its way to the read buffer. *)
Lemma armed_bytes_socket_recv n cb scb u before size w :
  armed_bytes n cb scb u before w ->
  wp (socket_recv size)
     (fun r w' =>
        match r with
        | Ret chunk => armed_bytes n cb scb u before (appended chunk w')
        | _ => armed_bytes n cb scb u before w'
        end) w.
Proof.
  intros H. unfold wp, socket_recv, bind.
  pose proof (the_socket_same w) as E.
  destruct (the_socket w) as [[sk|e|] w']; simpl in E; subst w';
    try exact H.
  destruct H as (H1 & H2 & H3 & H4 & H5 & H6 & new & k & Hnew & Hno & Hto
                 & Hk & Hk0 & Hsum & Hu).
  destruct (recv_script (net w)) as [|[chunk|e] rest] eqn:Escript; simpl.
  - repeat (split; [assumption|]). exists new, k.
    repeat (split; [assumption|]). assumption.
  - repeat (split; [assumption|]). split.
    { unfold size_counted in *. rewrite buffered_appended, len_app.
      simpl. unfold buffered in *. simpl. rewrite H6. reflexivity. }
    exists new, k. repeat (split; [assumption|]).
    rewrite <- Hu. unfold unconsumed. rewrite buffered_appended.
    unfold buffered. simpl. rewrite Escript. simpl.
    rewrite <- app_assoc. reflexivity.
  - repeat (split; [assumption|]). exists new, k.
    repeat (split; [assumption|]).
    rewrite <- Hu. unfold unconsumed. simpl. rewrite Escript. reflexivity.
Qed.

Lemma armed_bytes_appended_nothing n cb scb u before w :
  armed_bytes n cb scb u before (appended [] w) ->
  armed_bytes n cb scb u before w.
Proof.
  intros (H1 & H2 & H3 & H4 & H5 & H6 & new & k & Hnew & Hno & Hto
          & Hk & Hk0 & Hsum & Hu).
  repeat (split; [assumption|]). split.
  { unfold size_counted in *. rewrite buffered_appended, app_nil_r in H6.
    simpl in H6. unfold len in H6 at 1. simpl in H6. lia. }
  exists new, k. repeat (split; [assumption|]).
  rewrite <- Hu. unfold unconsumed. rewrite buffered_appended, app_nil_r.
  reflexivity.
Qed.

Lemma armed_bytes_read_to_buffer n cb scb u before :
  preserves (armed_bytes n cb scb u before) _read_to_buffer.
Proof.
  apply receiving_read_to_buffer.
  - intros size w. apply armed_bytes_socket_recv.
  - apply armed_bytes_appended_nothing.
  - apply armed_bytes_close.
Qed.

(** [_consume(k)] on a buffer that holds at least [k] bytes: the first
    [k] bytes come back, and the size counter stays right. *)
Lemma consume_counted k w :
  size_counted w -> 0 <= k <= _read_buffer_size (self w) ->
  exists data buf,
    _consume k w =
      (Ret data,
       snd (assign (fun s => with_read_buffer buf
                      (with_read_buffer_size (_read_buffer_size s - k) s))
              w)) /\
    data = firstn (Z.to_nat k) (buffered w) /\
    len data = k /\
    concat buf = skipn (Z.to_nat k) (buffered w).
Proof.
  intros Hsize Hk. unfold size_counted in Hsize.
  destruct (Z.eq_dec k 0) as [->|Hk0].
  - exists (b ""), (_read_buffer (self w)).
    split; [|repeat split].
    unfold _consume. simpl. rewrite Z.sub_0_r.
    destruct w as [s l nt c]. destruct s. reflexivity.
  - destruct (consume_positive k w ltac:(lia))
      as (data & rest & Hmp & Hdata & Hrest & Hrun).
    exists data, rest. split; [exact Hrun|]. split; [exact Hdata|].
    split; [|exact Hrest].
    rewrite Hdata. unfold len in *. rewrite firstn_length_le; lia.
Qed.

Lemma len_skipn {A} (l : list A) k :
  0 <= k <= len l -> len (skipn (Z.to_nat k) l) = len l - k.
Proof. intros H. unfold len in *. rewrite length_skipn. lia. Qed.

(** What the streaming part of [_read_from_buffer] does to an armed
    [read_bytes]. *)
Lemma armed_bytes_streaming n cb scb u before w :
  armed_bytes n cb scb u before w ->
  wp (if is_some (_streaming_callback (self w))
         && negb (_read_buffer_size (self w) =? 0)
      then
        read_bytes <- get _read_bytes ;;
        bytes_to_consume <-
          match read_bytes with
          | Some n =>
              let bytes_to_consume :=
                Z.min n (_read_buffer_size (self w)) in
              assign (with_read_bytes (Some (n - bytes_to_consume))) ;;
              ret bytes_to_consume
          | None => ret (_read_buffer_size (self w))
          end ;;
        data <- _consume bytes_to_consume ;;
        _run_callback StreamingCb (_streaming_callback (self w)) [data]
      else ret tt)
     (fun r w' =>
        r = Ret tt /\
        armed_bytes n cb scb u before w' /\
        (scb <> None ->
         _read_bytes (self w') = Some 0 \/ _read_buffer_size (self w') = 0))
     w.
Proof.
  intros H.
  pose proof H as (H1 & H2 & H3 & H4 & H5 & H6 & new & k & Hnew & Hno & Hto
                   & Hk & Hk0 & Hsum & Hu).
  destruct (Z.eqb_spec (_read_buffer_size (self w)) 0) as [E|E].
  { rewrite andb_false_r. apply wp_ret. auto. }
  rewrite H2. destruct scb as [s|]; simpl is_some; simpl andb; cbv iota.
  2:{ apply wp_ret. split; [reflexivity|]. split; [exact H|]. congruence. }
  pose proof (len_nonneg (buffered w)) as Hlen.
  unfold size_counted in H6.
  set (size := _read_buffer_size (self w)) in *.
  set (btc := Z.min k size).
  apply wp_bind, wp_get. cbv beta iota. rewrite Hk. cbv zeta.
  apply wp_bind, wp_bind, wp_assign. cbv beta iota. apply wp_ret.
  fold btc.
  match goal with
  | |- wp _ _ ?x => set (w1 := x)
  end.
  destruct (consume_counted btc w1) as (data & buf & Hrun & Hdata & Hdlen & Hbuf).
  { exact H6. }
  { change (_read_buffer_size (self w1)) with size. unfold btc. lia. }
  change (buffered w1) with (buffered w) in Hdata, Hbuf.
  apply wp_bind. eapply wp_run; [exact Hrun|].
  eapply wp_run; [reflexivity|].
  split; [reflexivity|]. split.
  - unfold armed_bytes. simpl.
    repeat (split; [assumption|]). split.
    { unfold size_counted, buffered. simpl. rewrite Hbuf.
      rewrite len_skipn by (unfold btc; lia). fold size. lia. }
    eexists. exists (k - btc).
    split; [rewrite Hnew, <- app_assoc; reflexivity|].
    split; [apply no_read_app; [exact Hno|];
            constructor; [discriminate | constructor]|].
    split.
    { apply Forall_app. split; [exact Hto|].
      constructor; [|constructor]. intros _. split; [reflexivity|congruence]. }
    split; [reflexivity|]. split; [unfold btc; lia|].
    assert (streamed (new ++ [call StreamingCb (Some s) [data]
                                (is_some (socket (self w)))
                                (_pending_callbacks (self w))])
            = streamed new ++ data) as Hst.
    { rewrite streamed_app. unfold streamed at 2. simpl.
      rewrite !app_nil_r. reflexivity. }
    unfold call in Hst. rewrite Hst. split.
    + rewrite len_app. lia.
    + rewrite <- Hu. unfold unconsumed, buffered. simpl. rewrite Hbuf.
      rewrite <- !app_assoc. f_equal. rewrite app_assoc. f_equal.
      rewrite Hdata. apply firstn_skipn.
  - intros _. simpl. unfold btc. fold size.
    destruct (Z.min_spec k size) as [[_ ->]|[_ ->]]; [left|right];
      [f_equal|]; lia.
Qed.

Lemma armed_bytes_read_from_buffer n cb scb u before :
  hoare (armed_bytes n cb scb u before) _read_from_buffer
        (bytes_inv n cb scb u before).
Proof.
  intros w H.
  change (wp _read_from_buffer
            (fun _ w' => bytes_inv n cb scb u before w') w).
  unfold _read_from_buffer.
  apply wp_bind, wp_get. cbv beta iota.
  apply wp_bind, wp_get. cbv beta iota.
  apply wp_bind.
  eapply wp_conseq; [apply armed_bytes_streaming, H|].
  clear w H. intros r w (-> & H & Hz). cbv beta iota.
  pose proof H as (H1 & H2 & H3 & H4 & H5 & H6 & new & k & Hnew & Hno & Hto
                   & Hk & Hk0 & Hsum & Hu).
  apply wp_bind, wp_get. cbv beta iota.
  apply wp_bind, wp_get. cbv beta iota.
  apply wp_bind, wp_get. cbv beta iota.
  apply wp_bind, wp_get. cbv beta iota.
  apply wp_bind, wp_get. cbv beta iota zeta.
  rewrite Hk, H3, H4. simpl is_some. cbv iota.
  destruct (Z.leb_spec k (_read_buffer_size (self w))) as [Hle|Hgt].
  2:{ apply wp_ret. left. exact H. }
  apply wp_bind, wp_get. cbv beta iota.
  apply wp_bind, wp_assign. apply wp_bind, wp_assign.
  apply wp_bind, wp_assign. cbv beta iota.
  match goal with
  | |- wp _ _ ?x => set (w1 := x)
  end.
  destruct (consume_counted k w1) as (data & buf & Hrun & Hdata & Hdlen & Hbuf).
  { exact H6. }
  { change (_read_buffer_size (self w1)) with (_read_buffer_size (self w)).
    lia. }
  change (buffered w1) with (buffered w) in Hdata, Hbuf.
  apply wp_bind. eapply wp_run; [exact Hrun|].
  apply wp_bind. eapply wp_run; [reflexivity|]. apply wp_ret.
  right. eexists. split.
  { simpl. rewrite Hnew, <- app_assoc. reflexivity. }
  exists new. eexists. exists []. split; [reflexivity|].
  split; [exact Hno|]. split; [reflexivity|].
  split; [exact H1|]. split; [exact Hto|].
  exists data, (concat buf ++ data_of (recv_script (net w))).
  split; [reflexivity|]. split.
  { intros Hscb. destruct (Hz Hscb) as [Hz0|Hz0].
    - assert (k = 0) as -> by congruence. rewrite Hdata. reflexivity.
    - assert (k = 0) as -> by lia. rewrite Hdata. reflexivity. }
  split; [rewrite len_app; lia|].
  rewrite <- Hu. unfold unconsumed. f_equal.
  rewrite app_assoc. f_equal.
  rewrite Hdata, Hbuf. symmetry. apply firstn_skipn.
Qed.

Lemma bytes_inv_run_callback n cb scb u before r callback args :
  r <> ReadCb -> r <> StreamingCb ->
  preserves (bytes_inv n cb scb u before) (_run_callback r callback args).
Proof.
  intros Hr Hs. apply preserves_or.
  - intros w H. left. apply armed_bytes_run_callback; assumption.
  - apply completed_run_callback.
Qed.

Lemma bytes_inv_close n cb scb u before exc :
  preserves (bytes_inv n cb scb u before) (close exc).
Proof.
  apply preserves_or.
  - intros w H. left. apply armed_bytes_close. exact H.
  - apply completed_close.
Qed.

Lemma bytes_inv_read_to_buffer n cb scb u before :
  preserves (bytes_inv n cb scb u before) _read_to_buffer.
Proof.
  apply preserves_or.
  - intros w H. left. apply armed_bytes_read_to_buffer. exact H.
  - apply completed_read_to_buffer.
Qed.

Lemma bytes_inv_read_from_buffer n cb scb u before :
  preserves (bytes_inv n cb scb u before) _read_from_buffer.
Proof.
  apply preserves_or.
  - apply armed_bytes_read_from_buffer.
  - apply completed_read_from_buffer.
Qed.

#[global] Hint Resolve bytes_inv_close bytes_inv_read_to_buffer
  bytes_inv_read_from_buffer : preserves.
#[global] Hint Extern 1
  (preserves (bytes_inv _ _ _ _ _) (_run_callback _ _ _)) =>
  apply bytes_inv_run_callback; discriminate : preserves.
#[global] Hint Extern 1
  (preserves (bytes_inv _ _ _ _ _) (socket_send _)) =>
  apply recv_blind_socket_send, bytes_inv_recv_blind : preserves.
#[global] Hint Extern 1
  (preserves (bytes_inv _ _ _ _ _) socket_do_handshake) =>
  apply recv_blind_socket_do_handshake, bytes_inv_recv_blind : preserves.
#[global] Hint Extern 1
  (preserves (bytes_inv _ _ _ _ _) socket_connect) =>
  apply recv_blind_socket_connect, bytes_inv_recv_blind : preserves.
#[global] Hint Extern 1
  (preserves (bytes_inv _ _ _ _ _) socket_getsockopt_SO_ERROR) =>
  apply recv_blind_socket_getsockopt, bytes_inv_recv_blind : preserves.

Lemma bytes_inv_inline_read_loop n cb scb u before fuel :
  preserves (bytes_inv n cb scb u before) (inline_read_loop fuel).
Proof. induction fuel; simpl; preserves_methods. Qed.

Lemma bytes_inv_handle_read_loop n cb scb u before fuel :
  preserves (bytes_inv n cb scb u before) (handle_read_loop fuel).
Proof. induction fuel; simpl; preserves_methods. Qed.

Lemma bytes_inv_handle_write_loop n cb scb u before fuel :
  preserves (bytes_inv n cb scb u before) (handle_write_loop fuel).
Proof. induction fuel; simpl; preserves_methods. Qed.

#[global] Hint Resolve bytes_inv_inline_read_loop
  bytes_inv_handle_read_loop bytes_inv_handle_write_loop : preserves.

Lemma bytes_inv_flat n cb scb u before o :
  (forall body raised, o <> RunNext body raised) ->
  preserves (bytes_inv n cb scb u before) (perform o).
Proof.
  intros Hnest w [H|Hc]; [|right; apply completed_perform; assumption].
  pose proof (arming_while_reading o w cb (proj1 H)) as Harm.
  destruct o; try (rewrite Harm; left; exact H);
    try (exfalso; eapply Hnest; reflexivity);
    clear Harm;
    match goal with
    | |- bytes_inv _ _ _ _ _ (snd (?m _)) =>
        assert (preserves (bytes_inv n cb scb u before) m) as Hp
          by (simpl; preserves_methods);
        apply Hp; left; exact H
    end.
Qed.

Lemma bytes_inv_maybe_add_error_listener n cb scb u before :
  preserves (bytes_inv n cb scb u before) _maybe_add_error_listener.
Proof. preserves_methods. Qed.

Lemma bytes_inv_run n cb scb u before ops :
  preserves (bytes_inv n cb scb u before) (run ops).
Proof.
  apply preserves_run.
  - apply bytes_inv_flat.
  - apply bytes_inv_close.
  - apply bytes_inv_maybe_add_error_listener.
  - intros p w H. exact H.
  - intros w H. unfold io_loop_next.
    destruct (callbacks (io_loop w)); exact H.
Qed.

Lemma bytes_inv_try_inline_read n cb scb u before :
  preserves (bytes_inv n cb scb u before) _try_inline_read.
Proof. preserves_methods. Qed.

(** Arming: [read_bytes(n, cb, scb)] on a stream that is not reading. *)
Lemma read_bytes_arms n cb scb w :
  idle w -> size_counted w -> 0 <= n ->
  bytes_inv n cb scb (unconsumed w) (run_callback_calls w)
    (snd (read_bytes n cb scb w)).
Proof.
  intros (H1 & H2 & H3 & H4 & H5) Hsize Hn.
  change (wp (read_bytes n cb scb)
            (fun _ w' => bytes_inv n cb scb (unconsumed w)
                           (run_callback_calls w) w') w).
  unfold read_bytes, _set_read_callback.
  apply wp_bind, wp_bind, wp_get. rewrite H1. simpl is_some. cbv iota.
  apply wp_assign. apply wp_bind, wp_assign. apply wp_bind, wp_assign.
  apply (wp_step_inv _ (bytes_inv n cb scb (unconsumed w)
                          (run_callback_calls w)));
    [apply bytes_inv_try_inline_read | | auto].
  left. unfold armed_bytes. simpl.
  repeat (split; [first [assumption | reflexivity]|]).
  exists [], n. split; [rewrite app_nil_r; reflexivity|].
  split; [constructor|]. split; [constructor|].
  split; [reflexivity|]. split; [exact Hn|].
  split; reflexivity.
Qed.

Lemma read_bytes_in_run n cb scb ops w :
  idle w -> size_counted w -> 0 <= n ->
  bytes_inv n cb scb (unconsumed w) (run_callback_calls w)
    (snd (run (ReadBytes n cb scb :: ops) w)).
Proof.
  intros Hidle Hsize Hn.
  assert (hoare (fun w' => w' = w) (run (ReadBytes n cb scb :: ops))
            (bytes_inv n cb scb (unconsumed w) (run_callback_calls w)))
    as Hh.
  { change (run (ReadBytes n cb scb :: ops))
      with (caught (perform (ReadBytes n cb scb)) ;; run ops).
    apply hoare_bind
      with (R := bytes_inv n cb scb (unconsumed w) (run_callback_calls w)).
    - unfold caught.
      apply hoare_try_except
        with (R := bytes_inv n cb scb (unconsumed w) (run_callback_calls w)).
      + intros w' ->. apply read_bytes_arms; assumption.
      + auto.
      + intros e' w' H. exact H.
    - auto.
    - intros _. apply bytes_inv_run. }
  apply Hh. reflexivity.
Qed.

Lemma streamed_none l :
  Forall (to_streaming_callback None) l -> streamed l = [].
Proof.
  induction 1 as [|c l Hc _ IH]; [reflexivity|].
  change (c :: l) with ([c] ++ l). rewrite streamed_app.
  rewrite IH, app_nil_r. unfold streamed. simpl. rewrite app_nil_r.
  destruct (rc_role c) eqn:E; try reflexivity.
  destruct (Hc E) as (_ & Hne). congruence.
Qed.



(** Without a streaming callback the same bytes come in one payload. *)
Example read_bytes_in_one_payload :
  run_callback_calls
    (snd (run [ReadBytes 10 1%nat None; RunNext [] None;
               HandleEvents 7 READ] twelve_bytes_in_two_reads)) =
    [call ReadCb (Some 1%nat) [b "abcdefghij"] true 0].
Proof. vm_compute. reflexivity. Qed.
(** * More of the stream *)

(** ** Reads *)

(** X3.  One read at a time: while a read is armed, each of the four
    read methods fails with the assertion error ["Already reading"]
    before it touches the stream, so the armed read stays as it is. *)
Theorem one_read_at_a_time (w : world) (cb : callable) :
  _read_callback (self w) = Some cb ->
  let failed := (Raise (AssertionError "Already reading"), w) in
  (forall re callback, read_until_regex re callback w = failed) /\
  (forall delimiter callback, read_until delimiter callback w = failed) /\
  (forall num_bytes callback streaming_callback,
     read_bytes num_bytes callback streaming_callback w = failed) /\
  (forall callback streaming_callback,
     read_until_close callback streaming_callback w = failed).
Proof.
  intros H failed. subst failed.
  repeat split; intros;
    unfold read_until_regex, read_until, read_bytes, read_until_close;
    apply bind_raise, (set_read_callback_reading w cb); exact H.
Qed.

Lemma one_read_at_a_time_witness :
  let w := snd (read_until (b ";") 1%nat (new_world plain_stream quiet)) in
  read_bytes 3 2%nat None w = (Raise (AssertionError "Already reading"), w).
Proof.
  intros w.
  exact (proj1 (proj2 (proj2 (one_read_at_a_time w 1%nat eq_refl)))
           3 2%nat None).
Defined.

(** X4.  [_consume(loc)] for [loc >= 0] never raises: it returns the
    first [loc] bytes of the read buffer (all of them when the buffer
    holds fewer), leaves the bytes behind them buffered in their order,
    takes [loc] off the size counter, and touches nothing else. *)
Theorem consume_cuts_the_front (loc : Z) (w : world) :
  0 <= loc ->
  let r := _consume loc w in
  fst r = Ret (firstn (Z.to_nat loc) (buffered w)) /\
  buffered (snd r) = skipn (Z.to_nat loc) (buffered w) /\
  _read_buffer_size (self (snd r)) = _read_buffer_size (self w) - loc /\
  self (snd r) =
    with_read_buffer (_read_buffer (self (snd r)))
      (with_read_buffer_size (_read_buffer_size (self w) - loc) (self w)) /\
  io_loop (snd r) = io_loop w /\ net (snd r) = net w /\
  run_callback_calls (snd r) = run_callback_calls w.
Proof.
  intros Hloc r. subst r.
  destruct (Z.eq_dec loc 0) as [->|Hne].
  - unfold _consume. simpl. rewrite Z.sub_0_r.
    repeat split. destruct w as [s l nt c]. destruct s. reflexivity.
  - destruct (consume_positive loc w ltac:(lia))
      as (data & rest & Hmp & Hdata & Hrest & Hrun).
    rewrite Hrun. simpl. unfold buffered at 2. simpl.
    rewrite Hdata, Hrest. repeat split.
Qed.

Lemma consume_cuts_the_front_witness :
  let w := snd (run [ReadBytes 10 1%nat None] twelve_bytes_in_two_reads) in
  fst (_consume 3 w) = Ret (b "abc") /\
  buffered (snd (_consume 3 w)) = b "d".
Proof.
  intros w.
  destruct (consume_cuts_the_front 3 w ltac:(lia)) as (H1 & H2 & _).
  split; [exact H1 | exact H2].
Defined.

(** ** The buffer utilities *)

(** X5.  [_double_prefix] on a deque of at least two chunks keeps the
    bytes and merges chunks at the front: the new first chunk has
    [max(2 * len(d0), len(d0) + len(d1))] bytes, or all the bytes when
    there are fewer, so it holds the first two chunks at least; only
    when both of them are empty does the deque stay as it is.  On a
    deque of fewer than two chunks the indexing fails. *)
Theorem double_prefix_merges (d0 d1 : bytes) (rest : list bytes) :
  let deque := d0 :: d1 :: rest in
  let new_len := Z.max (len d0 * 2) (len d0 + len d1) in
  _double_prefix [] = None /\
  _double_prefix [d0] = None /\
  exists deque',
    _double_prefix deque = Some deque' /\
    concat deque' = concat deque /\
    (0 < new_len ->
     exists first rest',
       deque' = first :: rest' /\
       len first = Z.min new_len (len (concat deque)) /\
       len d0 + len d1 <= len first /\
       first = firstn (Z.to_nat new_len) (concat deque)) /\
    (new_len = 0 -> deque' = deque).
Proof.
  intros deque new_len.
  split; [reflexivity|]. split; [reflexivity|].
  exists (_merge_prefix deque new_len).
  split; [reflexivity|]. split; [apply merge_prefix_concat|].
  pose proof (len_nonneg d0). pose proof (len_nonneg d1).
  pose proof (len_nonneg (concat rest)).
  assert (len (concat deque) = len d0 + len d1 + len (concat rest)) as Htotal.
  { unfold deque. simpl. rewrite !len_app. lia. }
  split.
  - intros Hpos.
    destruct (merge_prefix_cut deque new_len Hpos)
      as (first & rest' & Hmp & Hlen & Hfirst & _).
    exists first, rest'. repeat split; try assumption.
    rewrite Hlen. unfold new_len in *. lia.
  - intros Hzero. apply merge_prefix_nonpositive; [lia | discriminate].
Qed.

(** X6.  What is buffered is read without the socket: a
    [read_bytes(n, cb)] on a stream that is not reading and whose read
    buffer holds at least [n] bytes completes at once, whether the
    stream is open or closed; [cb] is scheduled with the first [n]
    buffered bytes, the rest stays buffered, the socket is not asked,
    and the stream is ready for the next read. *)
Theorem read_bytes_from_the_buffer (w : world) (n : Z) (cb : callable) :
  idle w -> size_counted w -> 0 <= n <= _read_buffer_size (self w) ->
  let r := read_bytes n cb None w in
  fst r = Ret tt /\
  run_callback_calls (snd r) =
    run_callback_calls w ++
    [call ReadCb (Some cb) [firstn (Z.to_nat n) (buffered w)]
       (is_some (socket (self w))) (_pending_callbacks (self w))] /\
  buffered (snd r) = skipn (Z.to_nat n) (buffered w) /\
  net (snd r) = net w /\
  socket (self (snd r)) = socket (self w) /\
  idle (snd r).
Proof.
  intros (H1 & H2 & H3 & H4 & H5) Hsize Hn r.
  set (Q := fun (r : result unit) (w' : world) =>
    r = Ret tt /\
    run_callback_calls w' =
      run_callback_calls w ++
      [call ReadCb (Some cb) [firstn (Z.to_nat n) (buffered w)]
         (is_some (socket (self w))) (_pending_callbacks (self w))] /\
    buffered w' = skipn (Z.to_nat n) (buffered w) /\
    net w' = net w /\
    socket (self w') = socket (self w) /\
    idle w').
  change (wp (read_bytes n cb None) Q w).
  unfold read_bytes, _set_read_callback.
  apply wp_bind, wp_bind, wp_get. rewrite H1. simpl is_some. cbv iota.
  apply wp_assign. apply wp_bind, wp_assign. apply wp_bind, wp_assign.
  unfold _try_inline_read. apply wp_bind.
  unfold _read_from_buffer.
  apply wp_bind, wp_get. cbv beta iota.
  apply wp_bind, wp_get. cbv beta iota. simpl is_some. simpl andb. cbv iota.
  apply wp_bind, wp_ret.
  apply wp_bind, wp_get. cbv beta iota.
  apply wp_bind, wp_get. cbv beta iota.
  apply wp_bind, wp_get. cbv beta iota.
  apply wp_bind, wp_get. cbv beta iota.
  apply wp_bind, wp_get. cbv beta iota zeta.
  simpl _read_bytes. simpl _read_buffer_size. cbv iota.
  destruct (Z.leb_spec n (_read_buffer_size (self w))) as [_|]; [|lia].
  apply wp_bind, wp_get. cbv beta iota.
  apply wp_bind, wp_assign. apply wp_bind, wp_assign.
  apply wp_bind, wp_assign. cbv beta iota.
  match goal with
  | |- wp _ _ ?x => set (w1 := x)
  end.
  destruct (consume_counted n w1) as (data & buf & Hrun & Hdata & Hdlen & Hbuf).
  { exact Hsize. }
  { exact Hn. }
  change (buffered w1) with (buffered w) in Hdata, Hbuf.
  apply wp_bind. eapply wp_run; [exact Hrun|].
  apply wp_bind. eapply wp_run; [reflexivity|]. apply wp_ret. apply wp_ret.
  unfold Q. simpl. rewrite Hdata.
  split; [reflexivity|]. split; [reflexivity|].
  split; [exact Hbuf|]. split; [reflexivity|]. split; [reflexivity|].
  unfold idle. simpl. auto.
Qed.

Lemma read_bytes_from_the_buffer_witness :
  let w := snd (run [ReadBytes 2 1%nat None] twelve_bytes_in_two_reads) in
  run_callback_calls (snd (read_bytes 1 2%nat None w)) =
    run_callback_calls w ++ [call ReadCb (Some 2%nat) [b "c"] true 1] /\
  buffered (snd (read_bytes 1 2%nat None w)) = b "d".
Proof.
  intros w.
  destruct (read_bytes_from_the_buffer w 1 2%nat
              ltac:(repeat split) eq_refl ltac:(vm_compute; split; discriminate))
    as (_ & H1 & H2 & _).
  split; [exact H1 | exact H2].
Defined.

(** ** Closing *)

Lemma close_open (w : world) (sk : sock) (exc : option exn) :
  socket (self w) = Some sk ->
  let r := close exc w in
  fst r = Ret tt /\
  socket (self (snd r)) = None /\
  _state (self (snd r)) = None /\
  handler_calls (io_loop (snd r)) =
    handler_calls (io_loop w) ++
    (if is_some (_state (self w)) then [remove_handler (fileno sk)] else []) /\
  error (self (snd r)) = (if is_some exc then exc else error (self w)).
Proof.
  intros Hs r.
  split; [subst r; rewrite close_run; reflexivity|].
  set (h1 := handler_calls (io_loop w) ++
             (if is_some (_state (self w))
              then [remove_handler (fileno sk)] else [])).
  set (e1 := if is_some exc then exc else error (self w)).
  set (I0 := fun w' : world =>
               socket (self w') = Some sk /\
               _state (self w') = _state (self w) /\
               handler_calls (io_loop w') = handler_calls (io_loop w) /\
               error (self w') = e1).
  set (I1 := fun w' : world =>
               socket (self w') = None /\
               _state (self w') = None /\
               handler_calls (io_loop w') = h1 /\
               error (self w') = e1).
  change (wp (close exc) (fun _ w' => I1 w') w).
  unfold close.
  apply wp_bind, wp_get. cbv beta iota. rewrite Hs.
  apply wp_bind. apply wp_bind.
  assert (wp (if is_some exc then assign (with_error exc) else ret tt)
             (fun r w' => r = Ret tt /\ I0 w') w) as Herr.
  { unfold I0, e1. destruct exc; (split; [reflexivity|]); simpl;
      repeat split; assumption. }
  eapply wp_conseq; [exact Herr|]. clear Herr.
  intros r0 w1 (-> & H1). cbv beta iota.
  apply wp_bind, wp_get. cbv beta iota.
  apply wp_bind.
  apply (wp_returns_preserves _ I0);
    [destruct (_read_until_close (self w1)); returns_methods
    |unfold I0; preserves_methods
    |exact H1|].
  intros w2 (H2s & H2st & H2h & H2e). cbv beta iota.
  apply wp_bind, wp_get. cbv beta iota. rewrite H2st.
  destruct (_state (self w)) as [st|] eqn:Est; simpl is_some; cbv iota.
  - apply wp_bind, wp_bind. eapply wp_run; [reflexivity|].
    apply wp_assign. apply wp_assign.
    apply (wp_step_inv _ I1); [unfold I1; preserves_methods | | auto].
    unfold I1, h1. simpl. rewrite H2h. auto.
  - apply wp_bind, wp_ret. apply wp_assign.
    apply (wp_step_inv _ I1); [unfold I1; preserves_methods | | auto].
    unfold I1, h1. simpl. rewrite H2h, app_nil_r. auto.
Qed.

(** X7.  [close()] on an open stream takes it off the event loop: the
    socket is gone, no interest is registered any more, and
    [remove_handler] has been called once if an interest was registered
    and not at all otherwise.  The exception being handled, if any, is
    kept in [error].  [close()] always returns. *)
Theorem close_unregisters (w : world) (sk : sock) (exc : option exn) :
  socket (self w) = Some sk ->
  let r := close exc w in
  fst r = Ret tt /\
  socket (self (snd r)) = None /\
  _state (self (snd r)) = None /\
  handler_calls (io_loop (snd r)) =
    handler_calls (io_loop w) ++
    (if is_some (_state (self w)) then [remove_handler (fileno sk)] else []) /\
  error (self (snd r)) = (if is_some exc then exc else error (self w)).
Proof. exact (close_open w sk exc). Qed.

Lemma close_unregisters_witness :
  let w := snd (read_until (b ";") 1%nat (new_world plain_stream quiet)) in
  socket (self (snd (close None w))) = None /\
  handler_calls (io_loop (snd (close None w))) =
    [add_handler 7 25; remove_handler 7].
Proof.
  intros w.
  destruct (close_unregisters w {| fileno := 7; wrapped := false |} None
              ltac:(vm_compute; reflexivity))
    as (_ & H1 & _ & H2 & _).
  split; [exact H1 | exact H2].
Defined.

(** X8.  Closing an open stream on which [read_until_close] is armed
    completes that read: everything that is buffered goes, in one
    payload, to the read callback (also when a streaming callback is
    set, which is left in its slot), the read buffer is empty
    afterwards, and the stream is no longer reading.  The read callback
    is pending then, so the close callback is not scheduled by this
    call. *)
Theorem close_completes_read_until_close (w : world) (sk : sock)
    (exc : option exn) :
  socket (self w) = Some sk ->
  _read_until_close (self w) = true ->
  size_counted w ->
  0 <= _pending_callbacks (self w) ->
  let r := close exc w in
  run_callback_calls (snd r) =
    run_callback_calls w ++
    [call ReadCb (_read_callback (self w)) [buffered w] true
       (_pending_callbacks (self w))] /\
  buffered (snd r) = [] /\
  _read_callback (self (snd r)) = None /\
  _read_until_close (self (snd r)) = false /\
  _streaming_callback (self (snd r)) = _streaming_callback (self w) /\
  socket (self (snd r)) = None.
Proof.
  intros Hs Hu Hsize Hp r.
  set (Q := fun w' : world =>
    run_callback_calls w' =
      run_callback_calls w ++
      [call ReadCb (_read_callback (self w)) [buffered w] true
         (_pending_callbacks (self w))] /\
    buffered w' = [] /\
    _read_callback (self w') = None /\
    _read_until_close (self w') = false /\
    _streaming_callback (self w') = _streaming_callback (self w) /\
    _pending_callbacks (self w') = _pending_callbacks (self w) + 1).
  assert (wp (close exc) (fun _ w' => Q w' /\ socket (self w') = None) w)
    as H.
  { unfold close.
    apply wp_bind, wp_get. cbv beta iota. rewrite Hs.
    apply wp_bind. apply wp_bind.
    assert (wp (if is_some exc then assign (with_error exc) else ret tt)
               (fun r w' => r = Ret tt /\
                            w' = snd ((if is_some exc
                                       then assign (with_error exc)
                                       else ret tt) w)) w) as Herr.
    { destruct exc; split; reflexivity. }
    eapply wp_conseq; [exact Herr|]. clear Herr.
    intros r0 w1 (-> & Hw1). cbv beta iota.
    assert (size_counted w1 /\ buffered w1 = buffered w /\
            self w1 = (if is_some exc then with_error exc (self w)
                       else self w) /\
            io_loop w1 = io_loop w /\ net w1 = net w /\
            run_callback_calls w1 = run_callback_calls w)
      as (Hsize1 & Hb1 & Hself1 & _ & _ & Hc1).
    { subst w1. destruct exc; simpl; repeat split; assumption. }
    assert (_read_until_close (self w1) = true /\
            _read_callback (self w1) = _read_callback (self w) /\
            _streaming_callback (self w1) = _streaming_callback (self w) /\
            _pending_callbacks (self w1) = _pending_callbacks (self w) /\
            socket (self w1) = Some sk)
      as (Hu1 & Hcb1 & Hscb1 & Hp1 & Hs1).
    { rewrite Hself1. destruct exc; simpl; repeat split; assumption. }
    clear Hw1.
    apply wp_bind, wp_get. cbv beta iota. rewrite Hu1.
    apply wp_bind. apply wp_bind, wp_get. cbv beta iota.
    apply wp_bind, wp_assign. apply wp_bind, wp_assign.
    apply wp_bind, wp_get. cbv beta iota.
    match goal with
    | |- wp _ _ ?x => set (w2 := x)
    end.
    change (_read_buffer_size
              (self (snd (assign (with_read_callback None) w1))))
      with (_read_buffer_size (self w2)).
    destruct (consume_all w2 Hsize1) as (rest & Hrest & Hrun).
    apply wp_bind. eapply wp_run; [exact Hrun|].
    eapply wp_run; [reflexivity|]. cbv beta iota.
    match goal with
    | |- wp _ _ ?x => set (w3 := x)
    end.
    assert (Q w3 /\ socket (self w3) = Some sk) as (HQ & Hs3).
    { unfold Q, w3, buffered. simpl. rewrite Hc1, Hcb1, Hs1, Hp1, Hscb1.
      change (concat (_read_buffer (self w1))) with (buffered w1).
      rewrite Hb1, Hrest. repeat split. }
    clearbody w3. clear w2 Hrun.
    apply wp_bind, wp_get. cbv beta iota.
    apply wp_bind.
    apply (wp_returns_preserves _ Q);
      [destruct (is_some (_state (self w3))); returns_methods
      |unfold Q; preserves_methods
      |exact HQ|].
    intros w4 HQ4. cbv beta iota.
    apply wp_assign.
    unfold _maybe_run_close_callback.
    apply wp_bind, wp_get. cbv beta iota.
    apply wp_bind, wp_get. cbv beta iota.
    apply wp_bind, wp_get. cbv beta iota.
    destruct HQ4 as (Q1 & Q2 & Q3 & Q4 & Q5 & Q6).
    simpl _pending_callbacks. rewrite Q6.
    destruct (Z.eqb_spec (_pending_callbacks (self w) + 1) 0) as [|_]; [lia|].
    rewrite andb_false_r. apply wp_ret.
    split; [|reflexivity].
    unfold Q. simpl. repeat split; assumption. }
  unfold wp in H. destruct H as ((H1 & H2 & H3 & H4 & H5 & _) & H6).
  subst r. repeat split; assumption.
Qed.

Lemma close_completes_read_until_close_witness :
  let w := snd (run [ReadBytes 2 1%nat None; ReadUntilClose 2%nat (Some 3%nat)]
                  twelve_bytes_in_two_reads) in
  run_callback_calls (snd (close None w)) =
    run_callback_calls w ++ [call ReadCb (Some 2%nat) [b "cd"] true 1].
Proof.
  intros w.
  destruct (close_completes_read_until_close w
              {| fileno := 7; wrapped := false |} None
              ltac:(vm_compute; reflexivity) ltac:(vm_compute; reflexivity)
              ltac:(vm_compute; reflexivity) ltac:(vm_compute; discriminate))
    as (H1 & _).
  vm_compute in H1 |- *. exact H1.
Defined.

(** X9.  A closed stream refuses work and leaves everything as it is:
    [write] raises [IOError("Stream is closed")] and queues nothing,
    events that still arrive for it are ignored, and a [read_bytes]
    that the read buffer cannot satisfy raises the same error.  That
    read stays armed, though: the callback and the byte count are
    stored before the stream is found closed. *)
Theorem closed_stream_refuses (w : world) :
  socket (self w) = None ->
  (forall data callback,
     write data callback w = (Raise (IOError "Stream is closed"), w)) /\
  (forall fd events, _handle_events fd events w = (Ret tt, w)) /\
  (forall n callback,
     idle w -> _read_buffer_size (self w) < n ->
     let r := read_bytes n callback None w in
     fst r = Raise (IOError "Stream is closed") /\
     _read_callback (self (snd r)) = Some callback /\
     _read_bytes (self (snd r)) = Some n /\
     buffered (snd r) = buffered w /\
     run_callback_calls (snd r) = run_callback_calls w /\
     net (snd r) = net w).
Proof.
  intros Hs. split; [|split].
  - intros data callback. unfold write, _check_closed.
    apply bind_raise. unfold bind, get. simpl. rewrite Hs. reflexivity.
  - intros fd events. unfold _handle_events, bind, get. simpl.
    rewrite Hs. reflexivity.
  - intros n callback (H1 & H2 & H3 & H4 & H5) Hn r.
    set (Q := fun (r : result unit) (w' : world) =>
      r = Raise (IOError "Stream is closed") /\
      _read_callback (self w') = Some callback /\
      _read_bytes (self w') = Some n /\
      buffered w' = buffered w /\
      run_callback_calls w' = run_callback_calls w /\
      net w' = net w).
    change (wp (read_bytes n callback None) Q w).
    unfold read_bytes, _set_read_callback.
    apply wp_bind, wp_bind, wp_get. rewrite H1. simpl is_some. cbv iota.
    apply wp_assign. apply wp_bind, wp_assign. apply wp_bind, wp_assign.
    unfold _try_inline_read. apply wp_bind.
    unfold _read_from_buffer.
    apply wp_bind, wp_get. cbv beta iota.
    apply wp_bind, wp_get. cbv beta iota. simpl is_some. simpl andb. cbv iota.
    apply wp_bind, wp_ret.
    apply wp_bind, wp_get. cbv beta iota.
    apply wp_bind, wp_get. cbv beta iota.
    apply wp_bind, wp_get. cbv beta iota.
    apply wp_bind, wp_get. cbv beta iota.
    apply wp_bind, wp_get. cbv beta iota zeta.
    simpl _read_bytes. simpl _read_buffer_size. simpl _read_delimiter.
    simpl _read_regex. rewrite H2, H3. simpl is_some. cbv iota.
    destruct (Z.leb_spec n (_read_buffer_size (self w))) as [|_]; [lia|].
    apply wp_ret. unfold _check_closed.
    apply wp_bind, wp_bind, wp_get. simpl socket. rewrite Hs.
    simpl is_none. cbv iota. apply wp_raise.
    unfold Q. repeat split.
Qed.

Lemma closed_stream_refuses_witness :
  let w := snd (run [Close] (new_world plain_stream quiet)) in
  write (b "late") None w = (Raise (IOError "Stream is closed"), w).
Proof.
  intros w.
  exact (proj1 (closed_stream_refuses w ltac:(vm_compute; reflexivity))
           (b "late") None).
Defined.

(** ** Connecting *)

Lemma socket_connect_run w sk :
  socket (self w) = Some sk ->
  exists w',
    socket_connect w =
      (match raised_by (next_connect (net w)) with
       | None => Ret tt
       | Some e => Raise e
       end, w') /\
    same_but_net w w'.
Proof.
  intros Hs. unfold socket_connect, the_socket, bind, get, next_connect.
  simpl. rewrite Hs. simpl.
  destruct (connect_script (net w)) as [|[|e] rest]; simpl;
    eexists; (split; [reflexivity|]); repeat split.
Qed.



Lemma only_added_run_callback r before r' callback args :
  r' <> r ->
  preserves (only_added (not_role r) before) (_run_callback r' callback args).
Proof.
  intros Hr w (new & Hnew & Hall).
  eexists. split; [simpl; rewrite Hnew, <- app_assoc; reflexivity|].
  apply Forall_app. split; [exact Hall|].
  constructor; [exact Hr | constructor].
Qed.

#[global] Hint Extern 1
  (preserves (only_added (not_role _) _) (_run_callback _ _ _)) =>
  apply only_added_run_callback; discriminate : preserves.

Lemma only_added_start P w : only_added P (run_callback_calls w) w.
Proof. exists []. split; [rewrite app_nil_r; reflexivity | constructor]. Qed.

Lemma socket_getsockopt_run w sk :
  socket (self w) = Some sk ->
  exists w',
    socket_getsockopt_SO_ERROR w = (Ret (next_so_error (net w)), w') /\
    same_but_net w w'.
Proof.
  intros Hs.
  unfold socket_getsockopt_SO_ERROR, the_socket, bind, get, next_so_error.
  simpl. rewrite Hs. simpl.
  destruct (so_error_script (net w)) as [|err rest]; simpl;
    eexists; (split; [reflexivity|]); repeat split.
Qed.



(** ** Events *)

(** X12.  An [ERROR] event (with no [READ] or [WRITE] in it) on an open
    stream does not close the stream at once: the socket's [SO_ERROR]
    is kept in [error] and [close] is handed to the event loop, so that
    callbacks scheduled before still run first; nothing else changes.
    When the event loop then runs that [close], the stream is
    closed. *)
Theorem error_event_defers_close (w : world) (sk : sock) (fd events : Z) :
  socket (self w) = Some sk ->
  Z.land events READ = 0 ->
  Z.land events WRITE = 0 ->
  Z.land events ERROR <> 0 ->
  let r := _handle_events fd events w in
  (fst r = Ret tt /\
   socket (self (snd r)) = Some sk /\
   error (self (snd r)) =
     Some (socket_error (EOTHER (next_so_error (net w)))) /\
   callbacks (io_loop (snd r)) = callbacks (io_loop w) ++ [bound_close] /\
   handler_calls (io_loop (snd r)) = handler_calls (io_loop w) /\
   _state (self (snd r)) = _state (self w) /\
   run_callback_calls (snd r) = run_callback_calls w) /\
  (callbacks (io_loop w) = [] ->
   forall body raised,
     socket (self (snd (run [HandleEvents fd events; RunNext body raised] w)))
       = None).
Proof.
  intros Hs Hr Hw He r.
  destruct (socket_getsockopt_run w sk Hs) as (w1 & Hrun & Hself & Hloop & Hc).
  set (w2 := snd (io_loop_add_callback bound_close
                    (snd (assign (with_error
                                    (Some (socket_error
                                             (EOTHER (next_so_error (net w))))))
                            w1)))).
  assert (wp (_handle_events fd events)
             (fun r w' => r = Ret tt /\ w' = w2) w) as Heq.
  { unfold _handle_events.
    apply wp_bind, wp_get. rewrite Hs. simpl is_none. cbv beta iota.
    apply wp_try_except. apply wp_bind.
    rewrite Hr. simpl negb. cbv iota. apply wp_ret.
    apply wp_bind, wp_get. rewrite Hs. simpl is_none. cbv beta iota.
    apply wp_bind. rewrite Hw. simpl negb. cbv iota. apply wp_ret.
    apply wp_bind, wp_get. rewrite Hs. simpl is_none. cbv beta iota.
    destruct (Z.eqb_spec (Z.land events ERROR) 0) as [|_]; [contradiction|].
    simpl negb. cbv iota.
    apply wp_bind. eapply wp_run; [exact Hrun|]. cbv beta iota.
    apply wp_bind, wp_assign. eapply wp_run; [reflexivity|].
    split; reflexivity. }
  unfold wp in Heq. destruct Heq as (Hfst & Hsnd).
  split.
  - subst r. rewrite Hfst, Hsnd. unfold w2. simpl. rewrite Hself, Hloop, Hc.
    repeat split. exact Hs.
  - intros Hq body raised.
    change (wp (run [HandleEvents fd events; RunNext body raised])
              (fun _ w' => socket (self w') = None) w).
    unfold run. simpl fold_right.
    apply wp_bind. unfold caught at 1. apply wp_try_except.
    eapply wp_run;
      [rewrite (surjective_pairing (_handle_events fd events w)), Hfst, Hsnd;
       reflexivity|].
    cbv beta iota.
    assert (io_loop_next w2 =
            (Ret (Some bound_close),
             {| self := self w2;
                io_loop := {| handler_calls := handler_calls (io_loop w2);
                              callbacks := [] |};
                net := net w2;
                run_callback_calls := run_callback_calls w2 |})) as Hnext.
    { unfold io_loop_next, w2. simpl. rewrite Hloop, Hq. reflexivity. }
    apply wp_bind. unfold caught. apply wp_try_except.
    apply wp_bind. eapply wp_run; [exact Hnext|]. cbv beta iota.
    eapply wp_run; [apply close_run|]. cbv beta iota.
    apply wp_ret. apply closed_after_close.
Qed.

Lemma error_event_defers_close_witness :
  let w := snd (read_until (b ";") 1%nat (new_world plain_stream refusing)) in
  let r := _handle_events 7 ERROR w in
  socket (self (snd r)) = Some {| fileno := 7; wrapped := false |} /\
  error (self (snd r)) = Some (socket_error (EOTHER 111)) /\
  callbacks (io_loop (snd r)) = [bound_close] /\
  socket (self (snd (run [HandleEvents 7 ERROR; RunNext [] None] w))) = None.
Proof.
  intros w r.
  destruct (error_event_defers_close w {| fileno := 7; wrapped := false |}
              7 ERROR
              ltac:(vm_compute; reflexivity) eq_refl eq_refl
              ltac:(discriminate))
    as ((_ & H1 & H2 & H3 & _) & H4).
  split; [exact H1|]. split; [exact H2|]. split; [exact H3|].
  exact (H4 eq_refl [] None).
Defined.
Example merge_prefix_doctest :
  let d0 := [b "abc"; b "de"; b "fghi"; b "j"] in
  let d1 := _merge_prefix d0 5 in
  let d2 := _merge_prefix d1 7 in
  let d3 := _merge_prefix d2 3 in
  let d4 := _merge_prefix d3 100 in
  d1 = [b "abcde"; b "fghi"; b "j"] /\
  d2 = [b "abcdefg"; b "hi"; b "j"] /\
  d3 = [b "abc"; b "defg"; b "hi"; b "j"] /\
  d4 = [b "abcdefghij"].
Proof. vm_compute. repeat split. Qed.
